(* ===== verification/_CoqProject ===== *)
-Q . S2P
Prelude.v
Dom.v
Platform.v
Conditions.v
Island.v
EventLoop.v
Reachable.v
Causes.v
Once.v
Live.v
Exactly.v
Scenarios.v
