(* ===== verification/Prelude.v ===== *)
(** * A verification development of mini-island (src/mini-island.js)

    The program.  [src/mini-island.js] defines a custom element
    [<mini-island>] (class [MiniIsland], lines 1-41) that defers the
    activation ("hydration") of its subtree until the conditions
    declared on it by [client:idle], [client:visible] and
    [client:media] attributes hold, and then replaces every
    [<template data-island>] below it by the template's content.  The
    conditions are evaluated by the static class [Conditions]
    (lines 43-132); lines 134-138 register the element with the
    browser's custom element registry.  Everything else the program
    touches is the browser: the DOM tree, [document.readyState] and the
    [load] event, [requestIdleCallback], [IntersectionObserver],
    [matchMedia], promises and the event loop.

    The library, file by file (the order of _CoqProject):
    - [Prelude] (this file): the development's scope [island_scope],
      the store order [⊑] on promise stores with its lemmas, generic
      list lemmas, the tactics and the hint databases [island] and
      [island_rw].
    - [Dom]: the DOM subset the code uses.  A node is a text node, an
      element with tag, attributes and children, or a template element
      with its content fragment; every node carries an identity (a
      [nat]).  It models [hasAttribute], [getAttribute],
      [querySelectorAll] (preorder, descendants only, template contents
      are not descendants) and [ChildNode.replaceWith] (splice the
      fragment's children at the node's place; a node without parent is
      left alone), and the well-formedness invariant that identities
      are unique.
    - [Platform]: the state of the window as a record [world]: the
      document, [readyState], the capabilities the code tests with
      [in window], the current answer of every media query, a store of
      promise cells (resolved or pending), the subscriptions the code
      registers ([load] listeners, idle callbacks, intersection
      observers, media-query listeners, each kept as the data its
      closure captures), the suspended [hydrate] activations, the
      custom element registry and the console.  It also states the
      interface [ConditionRegistry] that the controller requires of the
      condition catalogue, with the laws [RegistryLaws].
    - [Conditions]: the class [Conditions]: its [map], [getConditions],
      [hasConditions], the three evaluators [waitForIdle],
      [waitForVisible], [waitForMedia] and the bodies of the callbacks
      they register, and the instance of the interface.
    - [Island]: the class [MiniIsland]: [hydrate] up to its [await]
      (which leaves a suspended frame in the world), [getTemplates],
      [replaceTemplates] and the continuation after the [await]; it is
      written against the interface, so its lemmas hold for any
      registry that satisfies the laws.
    - [EventLoop]: the host: the events that drive the program
      (connection of an element, [DOMContentLoaded], [load], an idle
      period, an intersection notification, a media-query change), the
      microtask checkpoint that resumes every suspended [hydrate] whose
      [Promise.all] has settled, runs of events, and the registration
      at lines 134-138.
    - [Reachable]: the states a page reaches: an inductive relation
      whose base case is the script's boot on a page with unique
      identities and no subscription, and whose step is any task with
      its checkpoint; the state invariants are proved by induction on
      it.
    - [Causes]: the link between a hydration and the events of the
      run.  Every promise cell of a suspended frame has a role (the
      [load] listener, the idle callback, the observer of an element,
      the listener of a query); the invariant [cinv], indexed by the
      list of events run so far, says that every resolved cell has the
      cause of its role among those events (or in the initial page),
      that the subscription that can resolve a cell gives it the same
      role as its frame, and that every hydrated island has the causes
      of all its declared conditions.  It is preserved by the boot, by
      every task handler and by every round of the checkpoint,
      promotions and the islands they connect included.
    - [Once]: the islands whose [hydrate] has started (hydrated or
      waiting) are distinct islands of the tree as long as no task
      connects an element again: the boot connects each island of the
      tree once, and a promotion connects only islands that were
      inside a template content until then.
    - [Live]: progress.  A pending promise cell of a waiting frame is
      "live" for its role: its [load] listener is registered and the
      page has not loaded, its idle callback is queued, its observer
      still observes the island, or its media listener is registered
      and the query does not match.  The invariant [lv] (every cell of
      a frame has a role, and every pending cell is live for each of
      its roles) holds in every reachable state; each event then
      resolves the cells of its role.
    - [Exactly]: the composition.  The invariant [covered] says that
      with the registry defined every island of the document has
      started its [hydrate]; it holds after the boot (the upgrade of
      every island of the tree) and across promotions, whose inserted
      islands are the only new islands of the tree and are connected
      by the custom element reactions.  Joined with [Once] and [Live],
      it gives the spec's "each island is promoted exactly once".
    - [Scenarios]: small concrete pages and the witnesses that apply
      each theorem with hypotheses at one of them, the hypotheses
      discharged by evaluation.

    What the theorems show (by group):
    - Island: the continuation after the [await] changes the document
      exactly by promoting the island's subtree in place
      ([resume_promotes], through [Dom.replace_each_promote]: the
      [replaceWith] loop over the static node list equals a structural
      promotion); [getTemplates] lists exactly the marked templates
      below the island in the tree, at any depth, those of nested
      islands included and those inside template contents excluded
      ([getTemplates_spec]); the synchronous part of
      [connectedCallback] never promotes ([connectedCallback_defers]).
    - EventLoop: liveness at the checkpoint (an island without
      conditions, an island whose media query starts to match, an
      island whose conditions all fail open are hydrated in the task
      that enables them); fire-once of the visibility observer (it
      resolves, stops, and stays stopped whatever tasks follow); the
      second registration throws.
    - Conditions: [getConditions] and [hasConditions] exactly; for
      each evaluator, when the value it returns has already settled,
      on every capability branch (the fail-open branches included);
      the intersection callback reads the first entry only.
    - Reachable: without [customElements] the page stays dormant
      whatever tasks follow, after a single diagnostic
      ([no_registry_stays_dormant]).  The state invariants proved by
      induction on [reachable] (unique identities, promise cells in
      range, only islands of the document started) are lemmas the
      other groups use.
    - Causes (the spec's AND semantics over a whole run): an island is
      hydrated only after the [load] event and an idle period for
      [client:idle] ([idle_hydration_has_causes]), an intersecting
      first entry for [client:visible]
      ([visible_hydration_has_cause]), a matching query for
      [client:media] ([media_hydration_has_cause]), each with the
      fail-open exceptions of the evaluator.
    - Once: without a re-connection, every island is hydrated at most
      once and never waits again ([hydrated_at_most_once]), the
      spec's one-shot promotion; a re-connection of a hydrated island
      starts a second [hydrate] ([reconnect_starts_twice]), so the
      hypothesis is needed.
    - Live: every island waiting in a reachable state is hydrated after
      the events its conditions wait for ([waiting_island_hydrated]):
      the [load] event, one idle period per pending idle callback
      (callbacks run one per period, oldest first), an intersection
      notification for the island whose first entry intersects, and a
      media change after which every query matches.
    - Exactly: with [customElements], the hydrated and waiting islands
      of a reachable state are exactly the islands of its document
      ([reachable_islands_started]); from the boot, every island of
      the page is hydrated after its wake-up events and no island is
      hydrated twice on the way ([island_promoted_exactly_once]).
    - Termination and equivalence: the checkpoint completes within its
      fuel ([checkpoint_completes]); the sequential [replaceWith] loop
      equals the simultaneous replacement ([replace_each_simultaneous]);
      every condition [getConditions] reports has its evaluator
      ([getConditions_lookup]), so [hydrate] awaits one value per
      declared condition.

    Findings the model exhibits: an outer island promotes the
    templates of a nested island whose conditions are still pending
    ([getTemplates_spec]: querySelectorAll at line 33 searches all
    descendants); a batch whose first entry does not intersect is
    ignored ([on_intersection_first_entry_only], line 81); promotion
    without conditions is deferred to the checkpoint, not synchronous
    ([connectedCallback_defers], line 25); media listeners are never
    removed (line 107); reconnecting an element hydrates it again
    ([reconnect_starts_twice], line 7); a marked template inside a
    fragment stays dormant ([getTemplates_spec], line 37); running
    the script twice throws ([boot_twice_throws], line 135); a
    resolved media promise stays resolved, so an island with a second
    condition can be hydrated after its query stopped matching
    (line 107).

    Bounds and fuel.  The microtask checkpoint [EventLoop.drain] takes
    fuel, one unit per resumed [hydrate]; a task gives it
    [checkpoint_fuel]: one more than [Island.pending_work], the number
    of suspended frames plus the number of nodes inside template
    contents.  Each resume consumes a frame and adds no work: the
    islands a promotion connects come out of a content, which shrinks
    by at least as many nodes ([Dom.replaceWith_content_bound]).  So
    the fuel always suffices ([EventLoop.drain_complete]), also for
    frames created during the checkpoint.  Promise cells are indices
    into a store that only grows; [Reachable] shows that every index
    the world holds is in range, so the out-of-range case of stdpp's
    list insert, a silent no-op, never happens.

    Not modelled: the HTML parser and the markup format; microtask
    ordering finer than "every settled continuation runs before the
    next task" (frames are resumed in creation order); layout (the
    environment decides when intersections and media changes happen);
    the promise returned by [connectedCallback], which nothing reads;
    [disconnectedCallback] and the removal of elements, which the code
    does not handle.  Every line of [src/mini-island.js] that does
    something is translated (the map leaves out only blank lines and
    closing braces); the DOM and the platform are modelled as far as
    the code calls them, which is why those two components are
    partly modelled. *)

From stdpp Require Export base list strings relations.

Declare Scope island_scope.
Delimit Scope island_scope with island.

Create HintDb island discriminated.
Create Rewrite HintDb island_rw.

(** ** Promise stores

    A store of promise cells is a [list bool]: the cell with index [i]
    is resolved when [l !! i = Some true].  A later store extends an
    earlier one when it has at least its cells and keeps every resolved
    cell resolved; [⊑] (stdpp's [sqsubseteq]) is that order. *)

Definition bools_le (l l' : list bool) : Prop :=
  length l ≤ length l' ∧ ∀ i, l !! i = Some true → l' !! i = Some true.

#[export] Instance bools_sqsubseteq : SqSubsetEq (list bool) := bools_le.

Lemma bools_le_refl (l : list bool) : l ⊑ l.
Proof. split; auto. Qed.

Lemma bools_le_trans (l1 l2 l3 : list bool) : l1 ⊑ l2 → l2 ⊑ l3 → l1 ⊑ l3.
Proof. intros [H1 H2] [H3 H4]. split; [lia | auto]. Qed.

#[export] Instance bools_le_preorder : PreOrder (⊑@{list bool}).
Proof. split; [intros ?; apply bools_le_refl | intros ???; apply bools_le_trans]. Qed.

Lemma bools_le_snoc (l : list bool) b : l ⊑ l ++ [b].
Proof.
  split; [rewrite length_app; simpl; lia|].
  intros i Hi. rewrite lookup_app_l; [done|]. by eapply lookup_lt_Some.
Qed.

Lemma bools_le_set_true (l : list bool) i : l ⊑ <[i:=true]> l.
Proof.
  split; [by rewrite length_insert|].
  intros j Hj. rewrite list_lookup_insert.
  case_decide as Hd; [done|]. exact Hj.
Qed.

Lemma lookup_set_true (l : list bool) i : i < length l → <[i:=true]> l !! i = Some true.
Proof. apply list_lookup_insert_eq. Qed.

Lemma lookup_set_true_ne (l : list bool) i j : i ≠ j → <[i:=true]> l !! j = l !! j.
Proof. apply list_lookup_insert_ne. Qed.

Lemma lookup_snoc_new (l : list bool) b : (l ++ [b]) !! length l = Some b.
Proof. rewrite lookup_app_r; [|lia]. by rewrite Nat.sub_diag. Qed.

Lemma lookup_snoc_old (l : list bool) b i : i < length l → (l ++ [b]) !! i = l !! i.
Proof. apply lookup_app_l. Qed.

(** Resolving the cell just created is creating it resolved. *)
Lemma insert_snoc_true (l : list bool) : <[length l := true]> (l ++ [false]) = l ++ [true].
Proof. induction l as [|x l IH]; simpl; [done|]. by rewrite IH. Qed.

Lemma bools_le_snoc_r (l l' : list bool) b : l ⊑ l' → l ⊑ l' ++ [b].
Proof. intros H. etrans; [exact H|]. apply bools_le_snoc. Qed.

Lemma bools_le_set_true_r (l l' : list bool) i : l ⊑ l' → l ⊑ <[i:=true]> l'.
Proof. intros H. etrans; [exact H|]. apply bools_le_set_true. Qed.

#[export] Hint Resolve bools_le_refl bools_le_snoc bools_le_set_true : island.
#[export] Hint Resolve lookup_set_true lookup_snoc_new : island.

(** ** Generic list facts *)

Lemma flat_map_ext_in {A B} (f g : A → list B) (l : list A) :
  (∀ x, x ∈ l → f x = g x) → flat_map f l = flat_map g l.
Proof.
  induction l as [|x l IH]; intros Hfg; simpl; [done|].
  rewrite Hfg; [|by left]. f_equal. apply IH. intros y Hy. apply Hfg. by right.
Qed.

Lemma elem_of_flat_map {A B} (f : A → list B) (l : list A) (y : B) :
  y ∈ flat_map f l ↔ ∃ x, x ∈ l ∧ y ∈ f x.
Proof.
  rewrite list_elem_of_In, in_flat_map. setoid_rewrite list_elem_of_In. done.
Qed.

Lemma elem_of_map_iff {A B} (f : A → B) (l : list A) y : y ∈ map f l ↔ ∃ x, y = f x ∧ x ∈ l.
Proof. rewrite list_elem_of_In, in_map_iff. setoid_rewrite list_elem_of_In. naive_solver. Qed.

Lemma elem_of_zip_r {A B} (l : list A) (k : list B) x y : (x, y) ∈ zip l k → y ∈ k.
Proof.
  revert k. induction l as [|a l IH]; intros [|b k] H; simpl in H; try by apply not_elem_of_nil in H.
  apply elem_of_cons in H as [[= -> ->]|H]; [by left|right; by eapply IH].
Qed.

(** [Forall2] seen through the pairs of [zip]. *)
Lemma Forall2_zip_impl {A B} (P Q : A → B → Prop) l k :
  Forall2 P l k → (∀ x y, (x, y) ∈ zip l k → P x y → Q x y) → Forall2 Q l k.
Proof.
  induction 1 as [|x y l k Hxy _ IH]; intros HPQ; constructor.
  - apply HPQ; [by left|done].
  - apply IH. intros a b Hab. apply HPQ. by right.
Qed.

Lemma map_flat_map_distr {A B C} (f : B → C) (g : A → list B) (l : list A) :
  map f (flat_map g l) = flat_map (λ x, map f (g x)) l.
Proof. induction l as [|x l IH]; simpl; [done|]. by rewrite map_app, IH. Qed.

Lemma flat_map_flat_map {A B C} (f : A → list B) (g : B → list C) (l : list A) :
  flat_map g (flat_map f l) = flat_map (λ x, flat_map g (f x)) l.
Proof. induction l as [|x l IH]; simpl; [done|]. by rewrite flat_map_app, IH. Qed.

Lemma flat_map_sublist {A B} (f g : A → list B) (l : list A) :
  (∀ x, x ∈ l → f x `sublist_of` g x) → flat_map f l `sublist_of` flat_map g l.
Proof.
  induction l as [|x l IH]; intros Hfg; simpl; [done|].
  apply sublist_app; [apply Hfg; by left|]. apply IH. intros y Hy. apply Hfg. by right.
Qed.

Lemma flat_map_subseteq {A B} (f g : A → list B) (l : list A) :
  (∀ x, x ∈ l → f x ⊆ g x) → flat_map f l ⊆ flat_map g l.
Proof.
  intros Hfg y. rewrite !elem_of_flat_map. intros (x & Hx & Hy). exists x. split; [done|]. by apply Hfg.
Qed.

Lemma flat_map_app_perm {A B} (f g : A → list B) (l : list A) :
  flat_map (λ x, f x ++ g x) l ≡ₚ flat_map f l ++ flat_map g l.
Proof.
  induction l as [|x l IH]; simpl; [done|].
  rewrite IH, <- !app_assoc. f_equiv. by rewrite !app_assoc, (Permutation_app_comm (g x)).
Qed.

Lemma map_subseteq {A B} (f : A → B) (l1 l2 : list A) : l1 ⊆ l2 → map f l1 ⊆ map f l2.
Proof.
  intros Hl y. rewrite !list_elem_of_In, !in_map_iff. intros (x & <- & Hx).
  exists x. split; [done|]. apply list_elem_of_In, Hl, list_elem_of_In, Hx.
Qed.

(** Two elements of a list with the same image under a map whose image
    list has no duplicates are equal. *)
Lemma NoDup_map_inj {A B} (f : A → B) (l : list A) x y :
  NoDup (map f l) → x ∈ l → y ∈ l → f x = f y → x = y.
Proof.
  induction l as [|z l IH]; simpl; intros Hnd Hx Hy Hf; [by apply not_elem_of_nil in Hx|].
  apply NoDup_cons in Hnd as [Hz Hnd].
  apply elem_of_cons in Hx as [->|Hx]; apply elem_of_cons in Hy as [->|Hy]; auto.
  - exfalso. apply Hz. rewrite Hf, list_elem_of_In. apply in_map. by apply list_elem_of_In.
  - exfalso. apply Hz. rewrite <- Hf, list_elem_of_In. apply in_map. by apply list_elem_of_In.
Qed.

(** A fold whose every step is related to its input by a preorder
    relates its result to its start. *)
(** In a list whose keys are unique, searching for an element's key
    finds that element. *)
Lemma find_unique {A} (f : A → nat) (l : list A) x :
  NoDup (map f l) → x ∈ l → List.find (λ m, bool_decide (f m = f x)) l = Some x.
Proof.
  induction l as [|y l IH]; intros Hnd Hx; [by apply not_elem_of_nil in Hx|].
  simpl. apply NoDup_cons in Hnd as [Hy Hnd]. case_bool_decide as Hfy.
  - f_equal. apply elem_of_cons in Hx as [->|Hx]; [done|]. exfalso. apply Hy. rewrite Hfy.
    apply list_elem_of_In, in_map, list_elem_of_In, Hx.
  - apply elem_of_cons in Hx as [->|Hx]; [done|]. by apply IH.
Qed.

Lemma fold_left_rel {A B} (R : relation A) `{!PreOrder R} (g : A → B → A) (l : list B) (a : A) :
  (∀ a x, x ∈ l → R a (g a x)) → R a (fold_left g l a).
Proof.
  revert a. induction l as [|x l IH]; intros a Hg; simpl; [reflexivity|].
  etrans; [apply Hg; by left|]. apply IH. intros b y Hy. apply Hg. by right.
Qed.

(** Occurrences of an identity in a list of identities. *)
Definition occurrences (x : nat) (l : list nat) : nat := length (filter (λ y, y = x) l).

Lemma sublist_map {A B} (f : A → B) (l1 l2 : list A) : l1 `sublist_of` l2 → map f l1 `sublist_of` map f l2.
Proof. induction 1; simpl; [constructor|by apply sublist_skip|by apply sublist_cons]. Qed.

Lemma sublist_flat_map_elem {A B} (f : A → list B) (l : list A) x :
  x ∈ l → f x `sublist_of` flat_map f l.
Proof.
  intros Hx. apply list_elem_of_split in Hx as (l1 & l2 & ->). rewrite flat_map_app. simpl.
  apply sublist_inserts_l, sublist_inserts_r. reflexivity.
Qed.

(** An invariant of every step of a [fold_left] holds at its end. *)
Lemma fold_left_inv {A B} (I : A → Prop) (g : A → B → A) (l : list B) (a : A) :
  (∀ a x, x ∈ l → I a → I (g a x)) → I a → I (fold_left g l a).
Proof.
  revert a. induction l as [|x l IH]; intros a Hg Ha; simpl; [done|].
  apply IH; [intros b y Hy; apply Hg; by right|apply Hg; [by left|done]].
Qed.

Lemma occurrences_app x l1 l2 : occurrences x (l1 ++ l2) = occurrences x l1 + occurrences x l2.
Proof. unfold occurrences. by rewrite filter_app, length_app. Qed.

#[export] Hint Rewrite occurrences_app : island_rw.

(** ** Tactics *)

Ltac inv_clear H := inversion H; subst; clear H.

(** Close [l ⊑ l'] when [l'] is [l] with cells appended or resolved. *)
Ltac solve_store_le :=
  repeat first [ apply bools_le_refl | apply bools_le_snoc_r | apply bools_le_set_true_r ].

(** Evaluate lookups in a store built by appending and resolving
    cells. *)
Ltac store_lookup :=
  repeat first
    [ rewrite lookup_snoc_new
    | rewrite lookup_snoc_old by (repeat first [rewrite length_insert | rewrite length_app]; simpl; lia)
    | rewrite lookup_set_true by (repeat first [rewrite length_insert | rewrite length_app]; simpl; lia)
    | rewrite lookup_set_true_ne by (repeat first [rewrite length_insert | rewrite length_app]; simpl; lia)
    | rewrite !length_insert
    | rewrite length_app ].

(** Destruct the pairs produced by [let '(x, y) := e in _] in the goal. *)
Ltac break_pairs :=
  repeat match goal with
  | |- context [let '(_, _) := ?e in _] => let E := fresh "E" in destruct e eqn:E
  | H : context [let '(_, _) := ?e in _] |- _ => let E := fresh "E" in destruct e eqn:E
  end.
