(* ===== verification/Dom.v ===== *)
(** * Dom: the part of the DOM that src/mini-island.js uses

    Nodes carry an identity (a [nat]) so that a static [NodeList] can
    refer to them after the tree has changed, the way JavaScript object
    references do.  A template element keeps its content fragment in
    [content]; the nodes of a fragment are not in the tree (they are not
    descendants of anything), which is why [querySelectorAll] does not
    look inside it.  The HTML parser puts a template's children in its
    content, so a template has no children of its own here.

    Operations: [hasAttribute], [getAttribute], [querySelectorAll] and
    [replaceWith] applied to a template's content.  Invariant: [wf], the
    identities of all nodes (content included) are distinct. *)

From S2P Require Import Prelude.

Module Dom.

Local Set Warnings "-register-all -clear-no-such-hyp".

Definition attr : Type := string * string.

Inductive node : Type :=
| Text (nid : nat) (data : string)
| Elem (nid : nat) (tag : string) (attrs : list attr) (kids : list node)
| Template (nid : nat) (attrs : list attr) (content : list node).

Definition node_id (n : node) : nat :=
  match n with Text i _ | Elem i _ _ _ | Template i _ _ => i end.

Definition node_attrs (n : node) : list attr :=
  match n with Text _ _ => [] | Elem _ _ a _ | Template _ a _ => a end.

(** Induction with a hypothesis on every child and on every node of a
    content fragment. *)
Section node_rect.
Variable P : node → Prop.
Hypothesis HText : ∀ i s, P (Text i s).
Hypothesis HElem : ∀ i t a kids, Forall P kids → P (Elem i t a kids).
Hypothesis HTemplate : ∀ i a c, Forall P c → P (Template i a c).

Fixpoint node_ind' (n : node) : P n :=
  let fix all (l : list node) : Forall P l :=
    match l with
    | [] => List.Forall_nil P
    | k :: l' => @List.Forall_cons _ P k l' (node_ind' k) (all l')
    end in
  match n with
  | Text i s => HText i s
  | Elem i t a kids => HElem i t a kids (all kids)
  | Template i a c => HTemplate i a c (all c)
  end.
End node_rect.

(** ** Attributes ([Element.hasAttribute], [Element.getAttribute]) *)

Definition hasAttribute (attrs : list attr) (name : string) : bool :=
  existsb (λ a, bool_decide (a.1 = name)) attrs.

(** [getAttribute] returns the value of the first attribute with that
    name, or [null] ([None]). *)
Fixpoint getAttribute (attrs : list attr) (name : string) : option string :=
  match attrs with
  | [] => None
  | (k, v) :: rest => if bool_decide (k = name) then Some v else getAttribute rest name
  end.

(** ** Tree order *)

(** The strict descendants of a node in tree order (preorder). *)
Fixpoint descendants (n : node) : list node :=
  match n with
  | Elem _ _ _ kids => flat_map (λ k, k :: descendants k) kids
  | _ => []
  end.

Definition subtree (n : node) : list node := n :: descendants n.

(** The identities of the nodes in the tree, and of all nodes, fragment
    contents included. *)
Definition tree_ids (n : node) : list nat := map node_id (subtree n).

Fixpoint all_ids (n : node) : list nat :=
  node_id n ::
  match n with
  | Text _ _ => []
  | Elem _ _ _ kids => flat_map all_ids kids
  | Template _ _ c => flat_map all_ids c
  end.

Definition forest_ids (doc : list node) : list nat := flat_map all_ids doc.

(** Well-formedness: identities are unique. *)
Definition wf (doc : list node) : Prop := NoDup (forest_ids doc).

(** [querySelectorAll]: the identities of the descendants that match
    the selector, in tree order (a static [NodeList]). *)
Definition querySelectorAll (sel : node → bool) (n : node) : list nat :=
  map node_id (filter sel (descendants n)).

(** The selector [template[name]]. *)
Definition template_with (name : string) (n : node) : bool :=
  match n with Template _ a _ => hasAttribute a name | _ => false end.

(** The first node of the tree (fragment contents excluded) with an
    identity. *)
Definition find_node (id : nat) (doc : list node) : option node :=
  List.find (λ m, bool_decide (node_id m = id)) (flat_map subtree doc).

(** The content fragment of the template with identity [id], the
    nodes that [node.replaceWith(node.content)] inserts; nothing when
    that node is not a template of the tree. *)
Definition content_of (id : nat) (doc : list node) : list node :=
  match find_node id doc with Some (Template _ _ c) => c | _ => [] end.

(** ** [node.replaceWith(node.content)]

    The node with identity [id] is replaced, at its place in its
    parent, by the children of its content fragment.  A node that is
    not in the tree has no parent and [replaceWith] returns without
    doing anything.  Only templates are ever passed here (the
    [NodeList] comes from the selector [template[...]], see
    [querySelectorAll_templates]); a non-template node is kept. *)
Fixpoint replace_template (id : nat) (n : node) : list node :=
  match n with
  | Template i a c => if bool_decide (i = id) then c else [n]
  | Elem i t a kids => [Elem i t a (flat_map (replace_template id) kids)]
  | Text _ _ => [n]
  end.

Definition replaceWith_content (id : nat) (doc : list node) : list node :=
  flat_map (replace_template id) doc.

(** The loop [for (const node of templates) node.replaceWith(node.content)]
    over a static list. *)
Definition replace_each (ids : list nat) (doc : list node) : list node :=
  fold_left (λ d id, replaceWith_content id d) ids doc.

(** ** Reference definitions

    The simultaneous replacement of every template whose identity is in
    [S], and the structural promotion of the templates carrying
    attribute [name] below a node. *)
Fixpoint replace_in (S : list nat) (n : node) : list node :=
  match n with
  | Template i a c => if bool_decide (i ∈ S) then c else [n]
  | Elem i t a kids => [Elem i t a (flat_map (replace_in S) kids)]
  | Text _ _ => [n]
  end.

Fixpoint promote (name : string) (n : node) : list node :=
  match n with
  | Template i a c => if hasAttribute a name then c else [n]
  | Elem i t a kids => [Elem i t a (flat_map (promote name) kids)]
  | Text _ _ => [n]
  end.

Definition promote_children (name : string) (n : node) : node :=
  match n with
  | Elem i t a kids => Elem i t a (flat_map (promote name) kids)
  | _ => n
  end.

(** Apply [f] to the node of the tree with identity [r]. *)
Fixpoint map_node (r : nat) (f : node → node) (n : node) : node :=
  if bool_decide (node_id n = r) then f n
  else match n with
       | Elem i t a kids => Elem i t a (map (map_node r f) kids)
       | _ => n
       end.

(** ** Lemmas *)

(** The parent-child relation of the tree; template contents are not
    children. *)
Inductive child_of : node → node → Prop :=
| child_elem i t a kids k : k ∈ kids → child_of k (Elem i t a kids).

Lemma hasAttribute_getAttribute attrs name :
  hasAttribute attrs name = true ↔ is_Some (getAttribute attrs name).
Proof.
  induction attrs as [|[k v] attrs IH]; simpl.
  - split; [done|]. by intros [? ?].
  - case_bool_decide; simpl; [split; eauto|exact IH].
Qed.

Lemma descendants_trans x y n : y ∈ descendants n → x ∈ descendants y → x ∈ descendants n.
Proof.
  induction n as [i s|i t a kids IH|i a c _] using node_ind'; simpl; try (intros Hy; by apply not_elem_of_nil in Hy).
  rewrite !elem_of_flat_map. intros (k & Hk & Hy) Hx. exists k. split; [done|].
  rewrite Forall_forall in IH. apply elem_of_cons in Hy as [->|Hy]; apply elem_of_cons; right; [done|].
  by apply (IH k Hk).
Qed.

(** [descendants] lists exactly the nodes below [n] in the tree. *)
Lemma descendants_tc m n : m ∈ descendants n ↔ tc child_of m n.
Proof.
  split.
  - induction n as [i s|i t a kids IH|i a c _] using node_ind'; simpl;
      try (intros Hm; by apply not_elem_of_nil in Hm).
    rewrite elem_of_flat_map. intros (k & Hk & Hm). rewrite Forall_forall in IH.
    apply elem_of_cons in Hm as [->|Hm].
    + apply tc_once. by constructor.
    + eapply tc_r; [by apply IH|]. by constructor.
  - assert (Hchild : ∀ x y, child_of x y → x ∈ descendants y).
    { intros x y [i t a kids k Hk]. simpl. apply elem_of_flat_map. exists k. split; [done|]. by left. }
    induction 1 as [x y Hxy|x y z Hxy _ IH]; [by apply Hchild|].
    eapply descendants_trans; [exact IH|]. by apply Hchild.
Qed.

Lemma tree_ids_Elem i t a kids : tree_ids (Elem i t a kids) = i :: flat_map tree_ids kids.
Proof. unfold tree_ids, subtree. simpl. by rewrite map_flat_map_distr. Qed.

Lemma tree_ids_leaf n : (∀ i t a kids, n ≠ Elem i t a kids) → tree_ids n = [node_id n].
Proof. destruct n; [done| |done]. intros H. by destruct (H nid tag attrs kids). Qed.

Lemma tree_ids_sublist n : tree_ids n `sublist_of` all_ids n.
Proof.
  induction n as [i s|i t a kids IH|i a c _] using node_ind'.
  - done.
  - rewrite tree_ids_Elem. simpl. apply sublist_skip, flat_map_sublist.
    intros k Hk. rewrite Forall_forall in IH. by apply IH.
  - rewrite tree_ids_leaf by done. apply sublist_skip, sublist_nil_l.
Qed.

(** The identities inside template contents. *)
Fixpoint inner_ids (n : node) : list nat :=
  match n with
  | Text _ _ => []
  | Elem _ _ _ kids => flat_map inner_ids kids
  | Template _ _ c => flat_map all_ids c
  end.

Lemma all_ids_perm n : all_ids n ≡ₚ tree_ids n ++ inner_ids n.
Proof.
  induction n as [i s|i t a kids IH|i a c _] using node_ind'.
  - done.
  - rewrite tree_ids_Elem. simpl. f_equiv. rewrite <- flat_map_app_perm.
    rewrite Forall_forall in IH.
    induction kids as [|k kids IHk]; cbn [flat_map]; [done|]. apply Permutation_app.
    + apply IH. by left.
    + apply IHk. intros x Hx. apply IH. by right.
  - by rewrite tree_ids_leaf.
Qed.

Lemma replace_in_disjoint S m : (∀ j, j ∈ tree_ids m → j ∉ S) → replace_in S m = [m].
Proof.
  induction m as [i s|i t a kids IH|i a c _] using node_ind'; intros Hd; simpl.
  - done.
  - rewrite tree_ids_Elem in Hd. do 2 f_equal. rewrite Forall_forall in IH.
    induction kids as [|k kids IHk]; [done|]. cbn [flat_map].
    rewrite IH; [| by left | intros j Hj; apply Hd; set_solver]. simpl. f_equal.
    apply IHk; [intros x Hx; apply IH; set_solver | intros j Hj; apply Hd; set_solver].
  - rewrite bool_decide_eq_false_2; [done|]. apply Hd. rewrite tree_ids_leaf by done. by left.
Qed.

Lemma flat_map_replace_in_id S c :
  (∀ j, j ∈ flat_map all_ids c → j ∉ S) → flat_map (replace_in S) c = c.
Proof.
  induction c as [|x c IH]; intros Hd; [done|]. cbn [flat_map].
  rewrite replace_in_disjoint, IH; [done| |].
  - intros j Hj. apply Hd. cbn [flat_map]. set_solver.
  - intros j Hj. apply Hd. cbn [flat_map]. apply elem_of_app. left.
    by eapply sublist_subseteq; [apply tree_ids_sublist|].
Qed.

Lemma inner_ids_subseteq m : inner_ids m ⊆ all_ids m.
Proof. intros j Hj. rewrite (all_ids_perm m). set_solver. Qed.

(** One pass of the loop, followed by the simultaneous replacement of
    the remaining identities, is the simultaneous replacement of all. *)
Lemma replace_template_in i L m :
  (∀ j, j ∈ inner_ids m → j ∉ L) →
  flat_map (replace_in L) (replace_template i m) = replace_in (i :: L) m.
Proof.
  induction m as [k s|k t a kids IH|k a c _] using node_ind'; intros Hd; simpl.
  - done.
  - rewrite ?app_nil_r, flat_map_flat_map. do 2 f_equal. apply flat_map_ext_in.
    intros x Hx. rewrite Forall_forall in IH. apply IH; [done|].
    intros j Hj. apply Hd. apply elem_of_flat_map. eauto.
  - case_bool_decide as Hki.
    + subst k. rewrite bool_decide_eq_true_2 by (by left). by apply flat_map_replace_in_id.
    + simpl. rewrite ?app_nil_r. rewrite (bool_decide_ext (k ∈ i :: L) (k ∈ L)); [done|].
      rewrite elem_of_cons. naive_solver.
Qed.

Lemma inner_ids_replace_template i m : flat_map inner_ids (replace_template i m) ⊆ inner_ids m.
Proof.
  induction m as [k s|k t a kids IH|k a c _] using node_ind'; simpl.
  - done.
  - rewrite ?app_nil_r, flat_map_flat_map. apply flat_map_subseteq.
    intros x Hx. rewrite Forall_forall in IH. by apply IH.
  - case_bool_decide; simpl; [|by rewrite ?app_nil_r].
    apply flat_map_subseteq. intros x _. apply inner_ids_subseteq.
Qed.

(** The [replaceWith] loop over a static list of identities equals the
    simultaneous replacement, as long as no identity of the list is
    inside a template content. *)
Lemma replace_each_in L doc :
  (∀ j, j ∈ flat_map inner_ids doc → j ∉ L) → replace_each L doc = flat_map (replace_in L) doc.
Proof.
  unfold replace_each. revert doc. induction L as [|i L IH]; intros doc Hd; simpl.
  - symmetry. apply flat_map_replace_in_id. intros j _ Hj. by apply not_elem_of_nil in Hj.
  - rewrite IH.
    + unfold replaceWith_content. rewrite flat_map_flat_map. apply flat_map_ext_in.
      intros m Hm. apply replace_template_in. intros j Hj HjL.
      apply (Hd j); [apply elem_of_flat_map; eauto | by right].
    + intros j Hj HjL. unfold replaceWith_content in Hj. rewrite flat_map_flat_map in Hj.
      apply elem_of_flat_map in Hj as (m & Hm & Hj). apply inner_ids_replace_template in Hj.
      apply (Hd j); [apply elem_of_flat_map; eauto | by right].
Qed.

Lemma subtree_kid i t a kids k x :
  k ∈ kids → x ∈ subtree k → x ∈ descendants (Elem i t a kids).
Proof. intros Hk Hx. simpl. apply elem_of_flat_map. eauto. Qed.

Lemma replace_in_promote S name m :
  (∀ i a c, Template i a c ∈ subtree m → (i ∈ S ↔ hasAttribute a name = true)) →
  replace_in S m = promote name m.
Proof.
  induction m as [k s|k t a kids IH|k a c _] using node_ind'; intros HS; simpl.
  - done.
  - do 2 f_equal. apply flat_map_ext_in. intros x Hx. rewrite Forall_forall in IH.
    apply IH; [done|]. intros i a' c Hin. apply (HS i a' c). right. by eapply subtree_kid.
  - specialize (HS k a c (list_elem_of_here _ _)).
    case_bool_decide as Hk; destruct (hasAttribute a name); naive_solver.
Qed.

(** The identities found by [querySelectorAll] for [template[name]] are
    exactly the templates the structural promotion replaces. *)
Lemma querySelectorAll_promote name n :
  NoDup (tree_ids n) →
  replace_in (querySelectorAll (template_with name) n) n = [promote_children name n].
Proof.
  intros Hnd. destruct n as [k s|k t a kids|k a c]; [done| |done].
  simpl replace_in. simpl promote_children. do 2 f_equal. apply flat_map_ext_in. intros x Hx.
  apply replace_in_promote. intros i a' c Hin.
  assert (Hdesc : Template i a' c ∈ descendants (Elem k t a kids)) by (by eapply subtree_kid).
  unfold querySelectorAll. rewrite list_elem_of_In, in_map_iff. setoid_rewrite <- list_elem_of_In.
  setoid_rewrite list_elem_of_filter. split.
  - intros (y & Hy & Hsel & Hyd). unfold tree_ids, subtree in Hnd. simpl map in Hnd.
    apply NoDup_cons in Hnd as [_ Hnd].
    assert (y = Template i a' c) as -> by (eapply NoDup_map_inj; eauto). by apply Is_true_true.
  - intros Ha. exists (Template i a' c). split; [done|]. split; [by apply Is_true_true | exact Hdesc].
Qed.

Lemma subtree_subseteq x m : x ∈ subtree m → subtree x ⊆ subtree m.
Proof.
  intros Hx z Hz. unfold subtree in *. apply elem_of_cons in Hx as [->|Hx]; [done|].
  right. apply elem_of_cons in Hz as [->|Hz]; [done|]. by eapply descendants_trans.
Qed.

Lemma tree_ids_subtree x m : x ∈ subtree m → tree_ids x ⊆ tree_ids m.
Proof. intros Hx. apply map_subseteq, subtree_subseteq, Hx. Qed.

Lemma tree_ids_forest x ms : x ∈ flat_map subtree ms → tree_ids x ⊆ flat_map tree_ids ms.
Proof.
  rewrite elem_of_flat_map. intros (m & Hm & Hx) j Hj. apply elem_of_flat_map.
  exists m. split; [done|]. by eapply tree_ids_subtree.
Qed.

Lemma map_node_notin r f m : r ∉ tree_ids m → map_node r f m = m.
Proof.
  induction m as [k s|k t a kids IH|k a c _] using node_ind'; intros Hr; simpl;
    rewrite bool_decide_eq_false_2; try (intros <-; apply Hr; unfold tree_ids, subtree; by left); try done.
  rewrite tree_ids_Elem in Hr. f_equal. rewrite Forall_forall in IH.
  induction kids as [|x kids IHk]; [done|]. simpl. rewrite IH; [| by left | set_solver]. f_equal.
  apply IHk; [intros y Hy; apply IH; by right | set_solver].
Qed.

Section locate.
Context (S : list nat) (n : node) (g : node → node).
Hypothesis Hn : NoDup (tree_ids n) → replace_in S n = [g n].
Hypothesis HS : ∀ j, j ∈ S → j ∈ tree_ids n.

Lemma replace_in_forest ms :
  (∀ m, m ∈ ms → NoDup (tree_ids m) →
     (n ∈ subtree m ∨ ∀ j, j ∈ tree_ids n → j ∉ tree_ids m) →
     replace_in S m = [map_node (node_id n) g m]) →
  NoDup (flat_map tree_ids ms) →
  (n ∈ flat_map subtree ms ∨ ∀ j, j ∈ tree_ids n → j ∉ flat_map tree_ids ms) →
  flat_map (replace_in S) ms = map (map_node (node_id n) g) ms.
Proof.
  induction ms as [|m ms IHms]; intros Hm Hnd Hloc; [done|].
  cbn [flat_map] in *. apply NoDup_app in Hnd as (Hnd1 & Hdisj & Hnd2).
  simpl. rewrite Hm; [| by left | done |].
  - simpl. f_equal. apply IHms; [intros m' Hm'; apply Hm; by right | done |].
    destruct Hloc as [Hloc|Hloc]; [apply elem_of_app in Hloc as [Hloc|Hloc]|].
    + right. intros j Hj Hj'. eapply Hdisj; [|exact Hj']. by eapply tree_ids_subtree.
    + by left.
    + right. intros j Hj Hj'. eapply Hloc; [exact Hj|]. set_solver.
  - destruct Hloc as [Hloc|Hloc]; [apply elem_of_app in Hloc as [Hloc|Hloc]|].
    + by left.
    + right. intros j Hj Hj'. eapply Hdisj; [exact Hj'|]. by eapply tree_ids_forest.
    + right. intros j Hj Hj'. eapply Hloc; [exact Hj|]. set_solver.
Qed.

Lemma map_node_here (x : node) : map_node (node_id x) g x = g x.
Proof. destruct x; simpl; by rewrite bool_decide_eq_true_2. Qed.

Lemma locate_disjoint m :
  (∀ j, j ∈ tree_ids n → j ∉ tree_ids m) → replace_in S m = [map_node (node_id n) g m].
Proof.
  intros Hloc. rewrite replace_in_disjoint, map_node_notin; [done| |].
  - intros Hr. eapply Hloc; [unfold tree_ids, subtree; by left | done].
  - intros j Hj HjS. eapply Hloc; [by apply HS | done].
Qed.

Lemma replace_in_locate m :
  NoDup (tree_ids m) → (n ∈ subtree m ∨ ∀ j, j ∈ tree_ids n → j ∉ tree_ids m) →
  replace_in S m = [map_node (node_id n) g m].
Proof.
  induction m as [k s|k t a kids IH|k a c _] using node_ind'; intros Hnd Hloc;
    (destruct Hloc as [Hloc|Hloc]; [|by apply locate_disjoint]);
    apply elem_of_cons in Hloc as [Heq|Hloc];
    try (rewrite Heq, map_node_here, <- Heq; apply Hn; by rewrite Heq);
    simpl in Hloc; try (by apply not_elem_of_nil in Hloc).
  simpl. rewrite bool_decide_eq_false_2.
  - do 2 f_equal. rewrite tree_ids_Elem in Hnd. apply NoDup_cons in Hnd as [Hk Hnd].
    apply replace_in_forest; [| done | by left].
    intros m Hm. rewrite Forall_forall in IH. by apply IH.
  - intros Hkn. rewrite tree_ids_Elem in Hnd. apply NoDup_cons in Hnd as [Hk _]. apply Hk.
    rewrite Hkn. apply (tree_ids_forest n kids Hloc). unfold tree_ids, subtree. by left.
Qed.
End locate.

Lemma forest_ids_perm doc : flat_map all_ids doc ≡ₚ flat_map tree_ids doc ++ flat_map inner_ids doc.
Proof.
  rewrite <- flat_map_app_perm. induction doc as [|m doc IH]; [done|]. cbn [flat_map].
  by rewrite all_ids_perm, IH.
Qed.

(** C18: The [replaceWith] loop over a static list of tree nodes of a
    well-formed document does the same as replacing all of them at
    once: no replacement can make or unmake a later one's target,
    because fragments bring in no identity of the list. *)
Theorem replace_each_simultaneous L doc :
  wf doc → (∀ j, j ∈ L → j ∈ flat_map tree_ids doc) →
  replace_each L doc = flat_map (replace_in L) doc.
Proof.
  unfold wf, forest_ids. rewrite forest_ids_perm. intros Hwf HL.
  apply NoDup_app in Hwf as (_ & Hdisj & _).
  apply replace_each_in. intros j Hj HjL. by apply (Hdisj j); [apply HL|].
Qed.

(** The replacement loop of [MiniIsland.replaceTemplates] run over the
    static list [querySelectorAll('template[name]')] of the node with
    identity [r] equals the structural promotion of that node's subtree,
    the rest of the document being left as it is. *)
Lemma replace_each_promote name doc r n :
  wf doc → find_node r doc = Some n →
  replace_each (querySelectorAll (template_with name) n) doc =
  map (map_node r (promote_children name)) doc.
Proof.
  unfold wf, find_node, forest_ids. intros Hwf Hfind.
  apply find_some in Hfind as [Hn Hr]. apply list_elem_of_In in Hn. apply bool_decide_eq_true in Hr.
  rewrite forest_ids_perm in Hwf. apply NoDup_app in Hwf as (Hnd & Hdisj & _).
  set (S := querySelectorAll (template_with name) n).
  assert (HS : ∀ j, j ∈ S → j ∈ tree_ids n).
  { intros j. unfold S, querySelectorAll, tree_ids, subtree. simpl map. intros Hj. right.
    revert Hj. apply map_subseteq. intros x. rewrite list_elem_of_filter. naive_solver. }
  rewrite replace_each_in.
  - subst r. apply replace_in_forest; [intros Hndn; by apply querySelectorAll_promote | done | | done | by left].
    intros m _ Hndm Hlocm. apply replace_in_locate; [| done | done | done].
    intros Hndn. by apply querySelectorAll_promote.
  - intros j Hj HjS. apply (Hdisj j); [|done]. by eapply tree_ids_forest, HS.
Qed.

Lemma replace_template_ids i m : flat_map all_ids (replace_template i m) `sublist_of` all_ids m.
Proof.
  induction m as [k s|k t a kids IH|k a c _] using node_ind'; simpl; rewrite ?app_nil_r.
  - done.
  - rewrite flat_map_flat_map. apply sublist_skip, flat_map_sublist.
    intros x Hx. rewrite Forall_forall in IH. by apply IH.
  - case_bool_decide; simpl; rewrite ?app_nil_r; [by apply sublist_cons|done].
Qed.

Lemma replace_each_ids L doc : forest_ids (replace_each L doc) `sublist_of` forest_ids doc.
Proof.
  unfold replace_each. revert doc. induction L as [|i L IH]; intros doc; simpl; [done|].
  etrans; [apply IH|]. unfold forest_ids, replaceWith_content. rewrite flat_map_flat_map.
  apply flat_map_sublist. intros m _. apply replace_template_ids.
Qed.

(** [querySelectorAll] returns the identities of exactly the nodes
    below [n] in the tree that match the selector. *)
Lemma querySelectorAll_spec sel n id :
  id ∈ querySelectorAll sel n ↔ ∃ m, tc child_of m n ∧ sel m = true ∧ node_id m = id.
Proof.
  unfold querySelectorAll. rewrite list_elem_of_In, in_map_iff.
  setoid_rewrite <- list_elem_of_In. setoid_rewrite list_elem_of_filter.
  setoid_rewrite <- descendants_tc. setoid_rewrite Is_true_true.
  split; intros (m & ? & ? & ?); exists m; naive_solver.
Qed.

Lemma querySelectorAll_templates name n id :
  id ∈ querySelectorAll (template_with name) n →
  ∃ a c, Template id a c ∈ descendants n ∧ hasAttribute a name = true.
Proof.
  unfold querySelectorAll. rewrite list_elem_of_In, in_map_iff.
  setoid_rewrite <- list_elem_of_In. setoid_rewrite list_elem_of_filter.
  intros (m & <- & Hsel & Hm). destruct m as [| |k a c]; try done.
  exists a, c. split; [done|]. by apply Is_true_true.
Qed.

(** ** The work a replacement leaves

    A [replaceWith] moves the nodes of the inserted fragment out of
    template contents: the number of identities inside contents drops
    by at least the number of inserted tree nodes.  This is the measure
    that bounds the microtask checkpoint. *)

Definition content_bound (id : nat) (doc : list node) : Prop :=
  length (flat_map inner_ids (replaceWith_content id doc)) + length (flat_map subtree (content_of id doc))
  ≤ length (flat_map inner_ids doc).

Lemma find_node_cons id n doc :
  find_node id (n :: doc) = match find_node id [n] with Some m => Some m | None => find_node id doc end.
Proof.
  unfold find_node. cbn [flat_map]. rewrite app_nil_r.
  induction (subtree n) as [|x l IH]; simpl; [done|]. by case_bool_decide.
Qed.

Lemma content_of_cons id n doc :
  content_of id (n :: doc) = match find_node id [n] with Some _ => content_of id [n] | None => content_of id doc end.
Proof. unfold content_of at 1 2. rewrite find_node_cons. by destruct (find_node id [n]). Qed.

Lemma find_node_Elem id i t a kids :
  find_node id [Elem i t a kids] = if bool_decide (i = id) then Some (Elem i t a kids) else find_node id kids.
Proof. unfold find_node. simpl. rewrite app_nil_r. by case_bool_decide. Qed.

Lemma length_flat_map_tree_ids ms : length (flat_map tree_ids ms) = length (flat_map subtree ms).
Proof.
  induction ms as [|m ms IH]; [done|]. cbn [flat_map]. rewrite !length_app, IH. unfold tree_ids. by rewrite length_map.
Qed.

Lemma content_bound_forest id doc : Forall (λ n, content_bound id [n]) doc → content_bound id doc.
Proof.
  unfold content_bound, replaceWith_content.
  induction doc as [|n doc IH]; intros HF; [unfold content_of, find_node; simpl; lia|].
  apply Forall_cons in HF as [Hn Hdoc]. specialize (IH Hdoc).
  rewrite content_of_cons. cbn [flat_map] in *. rewrite app_nil_r in Hn.
  rewrite !flat_map_app, !length_app in *. rewrite ?app_nil_r in Hn. cbn [length] in Hn.
  destruct (find_node id [n]) eqn:E; [lia|].
  unfold content_of in Hn. rewrite E in Hn. simpl in Hn. lia.
Qed.

Lemma content_bound_node id n : content_bound id [n].
Proof.
  unfold content_bound, replaceWith_content.
  induction n as [i s|i t a kids IH|i a c _] using node_ind'.
  - unfold content_of, find_node. simpl. case_bool_decide; simpl; lia.
  - apply content_bound_forest in IH. unfold content_bound, replaceWith_content in IH.
    unfold content_of in *. rewrite find_node_Elem. simpl. rewrite !app_nil_r.
    case_bool_decide; simpl; lia.
  - unfold content_of, find_node. simpl. case_bool_decide; simpl; rewrite ?app_nil_r; [|lia].
    rewrite (Permutation_length (forest_ids_perm c)), length_app, length_flat_map_tree_ids. lia.
Qed.

(** A [replaceWith] of any identity: the identities inside contents
    drop by at least the size of the inserted fragment's tree. *)
Lemma replaceWith_content_bound id doc : content_bound id doc.
Proof. apply content_bound_forest, Forall_forall. intros n _. apply content_bound_node. Qed.

(** ** What a [replaceWith] keeps and brings into the tree *)

Lemma wf_tree doc : wf doc → NoDup (map node_id (flat_map subtree doc)).
Proof.
  unfold wf, forest_ids. rewrite forest_ids_perm. intros H. apply NoDup_app in H as (H & _).
  unfold tree_ids in H. by rewrite map_flat_map_distr.
Qed.

(** In a well-formed document, a node of the tree is found by its
    identity. *)
Lemma find_node_tree doc x : wf doc → x ∈ flat_map subtree doc → find_node (node_id x) doc = Some x.
Proof. intros Hwf Hx. unfold find_node. apply find_unique; [by apply wf_tree|done]. Qed.

Lemma replace_template_kid t m j tg b kids :
  m ∈ kids → flat_map subtree (replace_template t m) ⊆ flat_map subtree (replace_template t (Elem j tg b kids)).
Proof.
  intros Hm y Hy. simpl. rewrite app_nil_r. right.
  change (y ∈ flat_map subtree (flat_map (replace_template t) kids)).
  rewrite flat_map_flat_map. apply elem_of_flat_map. by exists m.
Qed.

Lemma replace_template_keeps_elem t n i tg a k :
  Elem i tg a k ∈ subtree n → ∃ k', Elem i tg a k' ∈ flat_map subtree (replace_template t n).
Proof.
  induction n as [j s|j tg' b kids IH|j b c _] using node_ind'; intros Hx;
    apply elem_of_cons in Hx as [Hx|Hx]; simpl in Hx; try (by apply not_elem_of_nil in Hx); try done.
  - injection Hx as -> -> -> ->. exists (flat_map (replace_template t) kids). simpl. by left.
  - apply elem_of_flat_map in Hx as (m & Hm & Hx). rewrite Forall_forall in IH.
    destruct (IH m Hm Hx) as [k' Hk']. exists k'. by eapply replace_template_kid.
Qed.

(** An element of the tree stays in the tree, with the same tag and
    attributes, after a [replaceWith]. *)
Lemma replaceWith_keeps_elem t doc i tg a k :
  Elem i tg a k ∈ flat_map subtree doc → ∃ k', Elem i tg a k' ∈ flat_map subtree (replaceWith_content t doc).
Proof.
  intros Hx. apply elem_of_flat_map in Hx as (n & Hn & Hx).
  destruct (replace_template_keeps_elem t n i tg a k Hx) as [k' Hk']. exists k'.
  unfold replaceWith_content. rewrite flat_map_flat_map. apply elem_of_flat_map. eauto.
Qed.

Lemma replace_template_inserts t n a c :
  Template t a c ∈ subtree n → flat_map subtree c ⊆ flat_map subtree (replace_template t n).
Proof.
  induction n as [j s|j tg b kids IH|j b c' _] using node_ind'; intros Hx;
    apply elem_of_cons in Hx as [Hx|Hx]; simpl in Hx; try (by apply not_elem_of_nil in Hx); try done.
  - apply elem_of_flat_map in Hx as (m & Hm & Hx). rewrite Forall_forall in IH.
    etrans; [by apply IH|]. by apply replace_template_kid.
  - injection Hx as -> -> ->. simpl. rewrite bool_decide_eq_true_2 by done. done.
Qed.

(** The nodes of the inserted fragment are in the tree after the
    [replaceWith]. *)
Lemma replaceWith_inserts t doc a c :
  Template t a c ∈ flat_map subtree doc → flat_map subtree c ⊆ flat_map subtree (replaceWith_content t doc).
Proof.
  intros Hx y Hy. apply elem_of_flat_map in Hx as (n & Hn & Hx).
  unfold replaceWith_content. rewrite flat_map_flat_map. apply elem_of_flat_map.
  exists n. split; [done|]. by apply (replace_template_inserts t n a c).
Qed.

(** ** Tree nodes and template contents *)

Lemma tree_ids_flat doc : flat_map tree_ids doc = map node_id (flat_map subtree doc).
Proof. unfold tree_ids. by rewrite map_flat_map_distr. Qed.

Lemma find_node_tree_ids id doc n : find_node id doc = Some n → id ∈ flat_map tree_ids doc.
Proof.
  unfold find_node. intros Hf. apply find_some in Hf as [Hn Hid]. apply bool_decide_eq_true in Hid.
  apply list_elem_of_In in Hn. rewrite tree_ids_flat, elem_of_map_iff. by exists n.
Qed.

Lemma inner_ids_subtree x m : x ∈ subtree m → inner_ids x `sublist_of` inner_ids m.
Proof.
  induction m as [i s|i t a kids IH|i a c _] using node_ind'; intros Hx;
    apply elem_of_cons in Hx as [->|Hx]; try done; simpl in Hx; try (by apply not_elem_of_nil in Hx).
  apply elem_of_flat_map in Hx as (k & Hk & Hx). rewrite Forall_forall in IH.
  etrans; [by apply (IH k Hk)|]. by apply sublist_flat_map_elem.
Qed.

Lemma inner_ids_forest x doc : x ∈ flat_map subtree doc → inner_ids x `sublist_of` flat_map inner_ids doc.
Proof.
  intros Hx. apply elem_of_flat_map in Hx as (m & Hm & Hx).
  etrans; [by apply inner_ids_subtree|]. by apply sublist_flat_map_elem.
Qed.

(** In a well-formed document no identity of the tree is also inside a
    template content. *)
Lemma wf_tree_inner doc j : wf doc → j ∈ flat_map tree_ids doc → j ∉ flat_map inner_ids doc.
Proof.
  unfold wf, forest_ids. rewrite forest_ids_perm. intros H. apply NoDup_app in H as (_ & Hd & _). apply Hd.
Qed.

Lemma wf_inner doc : wf doc → NoDup (flat_map inner_ids doc).
Proof. unfold wf, forest_ids. rewrite forest_ids_perm. intros H. by apply NoDup_app in H as (_ & _ & H). Qed.

(** The tree nodes of the fragment a [replaceWith] inserts come from a
    template content. *)
Lemma content_of_inner t doc : flat_map tree_ids (content_of t doc) `sublist_of` flat_map inner_ids doc.
Proof.
  unfold content_of. destruct (find_node t doc) as [[i s|i tg a k|j a c]|] eqn:Hf; try apply sublist_nil_l.
  unfold find_node in Hf. apply find_some in Hf as [Hn _]. apply list_elem_of_In in Hn.
  etrans; [|by apply (inner_ids_forest _ doc Hn)]. simpl. apply flat_map_sublist. intros m _. apply tree_ids_sublist.
Qed.

Lemma wf_content t doc : wf doc → NoDup (map node_id (flat_map subtree (content_of t doc))).
Proof. intros Hwf. rewrite <- tree_ids_flat. eapply sublist_NoDup; [apply wf_inner, Hwf|apply content_of_inner]. Qed.

(** Conversely, an element of the tree after a [replaceWith] was an
    element of the tree before (with other children, perhaps), or a
    node of the inserted fragment. *)
Lemma replace_template_elem_origin t n i tg a k' :
  Elem i tg a k' ∈ flat_map subtree (replace_template t n) →
  (∃ k, Elem i tg a k ∈ subtree n) ∨ (∃ b c, Template t b c ∈ subtree n ∧ Elem i tg a k' ∈ flat_map subtree c).
Proof.
  induction n as [j s|j tg' b kids IH|j b c _] using node_ind'; simpl; rewrite ?app_nil_r.
  - intros [Hx|Hx]%elem_of_cons; [done|by apply not_elem_of_nil in Hx].
  - intros [Hx|Hx]%elem_of_cons.
    + injection Hx as -> -> -> ->. left. exists kids. by left.
    + change (Elem i tg a k' ∈ flat_map subtree (flat_map (replace_template t) kids)) in Hx.
      rewrite flat_map_flat_map in Hx. apply elem_of_flat_map in Hx as (m & Hm & Hx).
      rewrite Forall_forall in IH. destruct (IH m Hm Hx) as [[k Hk]|(b' & c & Hc & Hx')].
      * left. exists k. right. by eapply subtree_kid.
      * right. exists b', c. split; [right; by eapply subtree_kid|done].
  - case_bool_decide as Hj.
    + intros Hx. right. subst j. exists b, c. split; [by left|done].
    + simpl. rewrite ?app_nil_r. intros [Hx|Hx]%elem_of_cons; [done|by apply not_elem_of_nil in Hx].
Qed.

Lemma replaceWith_elem_origin t doc i tg a k' :
  wf doc → Elem i tg a k' ∈ flat_map subtree (replaceWith_content t doc) →
  (∃ k, Elem i tg a k ∈ flat_map subtree doc) ∨ Elem i tg a k' ∈ flat_map subtree (content_of t doc).
Proof.
  intros Hwf Hx. unfold replaceWith_content in Hx. rewrite flat_map_flat_map in Hx.
  apply elem_of_flat_map in Hx as (n & Hn & Hx).
  destruct (replace_template_elem_origin t n i tg a k' Hx) as [[k Hk]|(b & c & Hc & Hx')].
  - left. exists k. apply elem_of_flat_map. eauto.
  - right. unfold content_of.
    assert (Ht : Template t b c ∈ flat_map subtree doc) by (apply elem_of_flat_map; eauto).
    pose proof (find_node_tree doc _ Hwf Ht) as Hf. simpl in Hf. by rewrite Hf.
Qed.

End Dom.
