(* ===== verification/Platform.v ===== *)
(** * Platform: the state of the window the program runs in

    A [world] holds what src/mini-island.js reads or changes through
    browser APIs: the document, [document.readyState], the capabilities
    it tests with ['x' in window], the current answer of every media
    query, the promises it creates (as cells of a store: [true] once
    resolved) and the subscriptions it registers.  A subscription is
    kept as the data its closure captures (the closures are
    defunctionalised): a [load] listener or an idle callback is the cell
    it resolves, an intersection observer is its target, its cell and
    whether it still observes, a media-query listener is its query and
    its cell.  [w_frames] holds the suspended activations of [hydrate]
    (each waiting on one [Promise.all]); [w_defined] is the custom
    element registry, [w_console] the console.  [w_hydrated] is an
    instrumentation: the identities of the islands whose [hydrate]
    finished, in order.

    It also states the interface the controller ([Island]) requires of
    the condition catalogue ([Conditions]): [ConditionRegistry] with
    the laws [RegistryLaws]. *)

From S2P Require Import Prelude Dom.
Import Dom.

Module Platform.

Local Set Warnings "-register-all -clear-no-such-hyp".

(** [document.readyState] *)
Inductive ready_state := Loading | Interactive | Complete.

#[export] Instance ready_state_eq_dec : EqDecision ready_state.
Proof. solve_decision. Defined.

(** The facilities the code tests with ['name' in window]. *)
Record caps := mk_caps {
  has_requestIdleCallback : bool;
  has_IntersectionObserver : bool;
  has_matchMedia : bool;
  has_customElements : bool
}.

(** An [IntersectionObserver] created by [waitForVisible]: the element
    it observes, the cell its callback resolves, and whether it still
    observes (it stops after [unobserve]). *)
Record observer := mk_observer { ob_target : nat; ob_cell : nat; ob_observing : bool }.

(** A listener added by [queryList.addListener] in [waitForMedia]. *)
Record media_listener := mk_media_listener { ml_query : string; ml_cell : nat }.

(** What a condition evaluator returns and [Promise.all] takes:
    [undefined], a promise (a cell), or [Promise.all] of a list. *)
Inductive waitv := WUndef | WCell (p : nat) | WAll (ws : list waitv).

(** A suspended [hydrate] of the island [fr_el], waiting on [fr_join]. *)
Record frame := mk_frame { fr_el : nat; fr_join : waitv }.

Record world := mk_world {
  w_doc : list node;
  w_ready : ready_state;
  w_caps : caps;
  w_media : string → bool;
  w_store : list bool;
  w_load : list nat;
  w_idle : list nat;
  w_observers : list observer;
  w_mql : list media_listener;
  w_frames : list frame;
  w_defined : list string;
  w_console : list string;
  w_hydrated : list nat
}.

Definition set_doc (x : list node) (w : world) : world :=
  {| w_doc := x; w_ready := w_ready w; w_caps := w_caps w; w_media := w_media w; w_store := w_store w; w_load := w_load w; w_idle := w_idle w; w_observers := w_observers w; w_mql := w_mql w; w_frames := w_frames w; w_defined := w_defined w; w_console := w_console w; w_hydrated := w_hydrated w |}.
Definition set_ready (x : ready_state) (w : world) : world :=
  {| w_doc := w_doc w; w_ready := x; w_caps := w_caps w; w_media := w_media w; w_store := w_store w; w_load := w_load w; w_idle := w_idle w; w_observers := w_observers w; w_mql := w_mql w; w_frames := w_frames w; w_defined := w_defined w; w_console := w_console w; w_hydrated := w_hydrated w |}.
Definition set_media (x : string → bool) (w : world) : world :=
  {| w_doc := w_doc w; w_ready := w_ready w; w_caps := w_caps w; w_media := x; w_store := w_store w; w_load := w_load w; w_idle := w_idle w; w_observers := w_observers w; w_mql := w_mql w; w_frames := w_frames w; w_defined := w_defined w; w_console := w_console w; w_hydrated := w_hydrated w |}.
Definition set_store (x : list bool) (w : world) : world :=
  {| w_doc := w_doc w; w_ready := w_ready w; w_caps := w_caps w; w_media := w_media w; w_store := x; w_load := w_load w; w_idle := w_idle w; w_observers := w_observers w; w_mql := w_mql w; w_frames := w_frames w; w_defined := w_defined w; w_console := w_console w; w_hydrated := w_hydrated w |}.
Definition set_load (x : list nat) (w : world) : world :=
  {| w_doc := w_doc w; w_ready := w_ready w; w_caps := w_caps w; w_media := w_media w; w_store := w_store w; w_load := x; w_idle := w_idle w; w_observers := w_observers w; w_mql := w_mql w; w_frames := w_frames w; w_defined := w_defined w; w_console := w_console w; w_hydrated := w_hydrated w |}.
Definition set_idle (x : list nat) (w : world) : world :=
  {| w_doc := w_doc w; w_ready := w_ready w; w_caps := w_caps w; w_media := w_media w; w_store := w_store w; w_load := w_load w; w_idle := x; w_observers := w_observers w; w_mql := w_mql w; w_frames := w_frames w; w_defined := w_defined w; w_console := w_console w; w_hydrated := w_hydrated w |}.
Definition set_observers (x : list observer) (w : world) : world :=
  {| w_doc := w_doc w; w_ready := w_ready w; w_caps := w_caps w; w_media := w_media w; w_store := w_store w; w_load := w_load w; w_idle := w_idle w; w_observers := x; w_mql := w_mql w; w_frames := w_frames w; w_defined := w_defined w; w_console := w_console w; w_hydrated := w_hydrated w |}.
Definition set_mql (x : list media_listener) (w : world) : world :=
  {| w_doc := w_doc w; w_ready := w_ready w; w_caps := w_caps w; w_media := w_media w; w_store := w_store w; w_load := w_load w; w_idle := w_idle w; w_observers := w_observers w; w_mql := x; w_frames := w_frames w; w_defined := w_defined w; w_console := w_console w; w_hydrated := w_hydrated w |}.
Definition set_frames (x : list frame) (w : world) : world :=
  {| w_doc := w_doc w; w_ready := w_ready w; w_caps := w_caps w; w_media := w_media w; w_store := w_store w; w_load := w_load w; w_idle := w_idle w; w_observers := w_observers w; w_mql := w_mql w; w_frames := x; w_defined := w_defined w; w_console := w_console w; w_hydrated := w_hydrated w |}.
Definition set_defined (x : list string) (w : world) : world :=
  {| w_doc := w_doc w; w_ready := w_ready w; w_caps := w_caps w; w_media := w_media w; w_store := w_store w; w_load := w_load w; w_idle := w_idle w; w_observers := w_observers w; w_mql := w_mql w; w_frames := w_frames w; w_defined := x; w_console := w_console w; w_hydrated := w_hydrated w |}.
Definition set_console (x : list string) (w : world) : world :=
  {| w_doc := w_doc w; w_ready := w_ready w; w_caps := w_caps w; w_media := w_media w; w_store := w_store w; w_load := w_load w; w_idle := w_idle w; w_observers := w_observers w; w_mql := w_mql w; w_frames := w_frames w; w_defined := w_defined w; w_console := x; w_hydrated := w_hydrated w |}.
Definition set_hydrated (x : list nat) (w : world) : world :=
  {| w_doc := w_doc w; w_ready := w_ready w; w_caps := w_caps w; w_media := w_media w; w_store := w_store w; w_load := w_load w; w_idle := w_idle w; w_observers := w_observers w; w_mql := w_mql w; w_frames := w_frames w; w_defined := w_defined w; w_console := w_console w; w_hydrated := x |}.

(** ** Promises *)

Section waitv_ind'.
Variable P : waitv → Prop.
Hypothesis HUndef : P WUndef.
Hypothesis HCell : ∀ p, P (WCell p).
Hypothesis HAll : ∀ ws, Forall P ws → P (WAll ws).

Fixpoint waitv_ind' (v : waitv) : P v :=
  let fix all (l : list waitv) : Forall P l :=
    match l with
    | [] => List.Forall_nil P
    | x :: l' => @List.Forall_cons _ P x l' (waitv_ind' x) (all l')
    end in
  match v with
  | WUndef => HUndef
  | WCell p => HCell p
  | WAll ws => HAll ws (all ws)
  end.
End waitv_ind'.

(** A value has settled when it is not a promise, when its cell is
    resolved, or, for [Promise.all], when every element has settled. *)
Fixpoint settled (σ : list bool) (v : waitv) : bool :=
  match v with
  | WUndef => true
  | WCell p => bool_decide (σ !! p = Some true)
  | WAll ws => forallb (settled σ) ws
  end.

(** The cells a value waits on. *)
Fixpoint cells (v : waitv) : list nat :=
  match v with
  | WUndef => []
  | WCell p => [p]
  | WAll ws => flat_map cells ws
  end.

(** [new Promise(...)]: a fresh pending cell. *)
Definition new_promise (w : world) : nat * world :=
  (length (w_store w), set_store (w_store w ++ [false]) w).

(** [resolve()]: resolving a resolved promise does nothing. *)
Definition resolve (p : nat) (w : world) : world :=
  set_store (<[p := true]> (w_store w)) w.

(** The promise cells the world refers to: those the suspended frames
    wait on, and those the registered callbacks ([load] listeners, idle
    callbacks, observers, media listeners) resolve. *)
Definition world_cells (w : world) : list nat :=
  flat_map (λ f, cells (fr_join f)) (w_frames w) ++ w_load w ++ w_idle w ++
  map ob_cell (w_observers w) ++ map ml_cell (w_mql w).

(** Every referenced cell exists: a [resolve] through any of them
    writes a cell of the store. *)
Definition refs_ok (w : world) : Prop := ∀ p, p ∈ world_cells w → p < length (w_store w).

(** A change that only adds cells and refers only to old references or
    to existing cells. *)
Definition refs_grow (w w' : world) : Prop :=
  length (w_store w) ≤ length (w_store w') ∧
  ∀ p, p ∈ world_cells w' → p ∈ world_cells w ∨ p < length (w_store w').

(** ** The interface of the condition catalogue

    [registry_getConditions] is [Conditions.getConditions] on the
    element's attributes: the declared conditions with their attribute
    value ([null] is [None]).  [registry_lookup c] is
    [Conditions.map[c]]: the evaluator, called as
    [conditionFn(value, this)], or [undefined]. *)
Class ConditionRegistry := {
  registry_getConditions : list attr → list (string * option string);
  registry_lookup : string → option (option string → nat → world → waitv * world)
}.

(** An observer table [obs'] keeps the observers of [obs]: each keeps
    its index and state. *)
Definition keeps_observers (obs obs' : list observer) : Prop :=
  ∀ i ob, obs !! i = Some ob → obs' !! i = Some ob.

(** What the controller relies on: an evaluator leaves the document,
    the frames, the registry and the instrumentation alone, keeps the
    observers and media listeners already registered, only ever resolves
    or adds cells, and returns a value whose cells exist. *)
Definition evaluator_ok (f : option string → nat → world → waitv * world) : Prop :=
  ∀ v el w,
    w_doc (f v el w).2 = w_doc w ∧ w_frames (f v el w).2 = w_frames w ∧
    w_hydrated (f v el w).2 = w_hydrated w ∧ w_defined (f v el w).2 = w_defined w ∧
    w_caps (f v el w).2 = w_caps w ∧ w_store w ⊑ w_store (f v el w).2 ∧
    keeps_observers (w_observers w) (w_observers (f v el w).2) ∧
    w_mql w `prefix_of` w_mql (f v el w).2 ∧
    Forall (λ p, p < length (w_store (f v el w).2)) (cells (f v el w).1).

Class RegistryLaws `{ConditionRegistry} := {
  registry_lookup_ok : ∀ c f, registry_lookup c = Some f → evaluator_ok f;
  registry_lookup_refs : ∀ c f, registry_lookup c = Some f → ∀ v el w, refs_grow w (f v el w).2
}.

(** ** Lemmas *)

(** [Promise.all] semantics: a value has settled exactly when every
    cell it waits on is resolved. *)
Lemma settled_cells σ v : settled σ v = true ↔ ∀ p, p ∈ cells v → σ !! p = Some true.
Proof.
  induction v as [|p|ws IH] using waitv_ind'; simpl.
  - split; [intros _ p Hp; by apply not_elem_of_nil in Hp | done].
  - rewrite bool_decide_eq_true. split; [intros H q Hq; apply list_elem_of_singleton in Hq; by subst|].
    intros H. apply H. by left.
  - rewrite forallb_forall. rewrite Forall_forall in IH. setoid_rewrite elem_of_flat_map.
    split.
    + intros H q (x & Hx & Hq). apply (IH x Hx); [|done]. apply H, list_elem_of_In, Hx.
    + intros H x Hx. apply list_elem_of_In in Hx. apply (IH x Hx). intros q Hq. apply H. eauto.
Qed.

(** Once settled, a value stays settled: cells are never un-resolved. *)
Lemma settled_mono σ σ' v : σ ⊑ σ' → settled σ v = true → settled σ' v = true.
Proof.
  intros [_ Hle]. rewrite !settled_cells. intros H p Hp. by apply Hle, H.
Qed.

Lemma new_promise_store w : w_store (new_promise w).2 = w_store w ++ [false].
Proof. done. Qed.

Lemma resolve_store_le p w : w_store w ⊑ w_store (resolve p w).
Proof. apply bools_le_set_true. Qed.

Lemma resolve_resolved p w : p < length (w_store w) → w_store (resolve p w) !! p = Some true.
Proof. apply lookup_set_true. Qed.

#[export] Hint Resolve resolve_store_le bools_le_trans : island.

Lemma keeps_observers_refl obs : keeps_observers obs obs.
Proof. by intros i ob. Qed.

Lemma keeps_observers_trans o1 o2 o3 :
  keeps_observers o1 o2 → keeps_observers o2 o3 → keeps_observers o1 o3.
Proof. intros H1 H2 i ob Hi. by apply H2, H1. Qed.

Lemma keeps_observers_app obs extra : keeps_observers obs (obs ++ extra).
Proof. intros i ob Hi. rewrite lookup_app_l; [done|]. by eapply lookup_lt_Some. Qed.

#[export] Hint Resolve keeps_observers_refl keeps_observers_app : island.

(** A change of the world that leaves the document, the registry and
    the instrumentation alone, keeps every subscription and suspended
    frame, and only adds or resolves cells: what an evaluator or a
    [hydrate] up to its [await] does. *)
Definition quiet (w w' : world) : Prop :=
  w_doc w' = w_doc w ∧ w_hydrated w' = w_hydrated w ∧ w_defined w' = w_defined w ∧
  w_caps w' = w_caps w ∧ w_store w ⊑ w_store w' ∧ w_frames w `prefix_of` w_frames w' ∧
  keeps_observers (w_observers w) (w_observers w') ∧ w_mql w `prefix_of` w_mql w'.

Notation "w ≼ w'" := (quiet w w') (at level 70) : island_scope.

#[export] Instance quiet_preorder : PreOrder quiet.
Proof.
  split.
  - intros w. split_and!; [done..|apply bools_le_refl|done|apply keeps_observers_refl|done].
  - intros w1 w2 w3 (?&?&?&?&?&?&?&?) (?&?&?&?&?&?&?&?).
    split_and!; [congruence..|by etrans|by etrans|by eapply keeps_observers_trans|by etrans].
Qed.

Lemma evaluator_quiet f v el w : evaluator_ok f → quiet w (f v el w).2.
Proof.
  intros Hf. destruct (Hf v el w) as (?&Hfr&?&?&?&?&?&?&?). split_and!; try done. by rewrite Hfr.
Qed.

Lemma push_frame_quiet fr w : quiet w (set_frames (w_frames w ++ [fr]) w).
Proof.
  split_and!; [done..|apply bools_le_refl| |apply keeps_observers_refl|done].
  by apply prefix_app_r.
Qed.

#[export] Hint Resolve evaluator_quiet push_frame_quiet : island.

(** What every step of the program keeps: cells stay resolved, the
    instrumentation, the registry and the media listeners only grow,
    and an observer that has stopped stays as it is. *)
Definition stopped_kept (obs obs' : list observer) : Prop :=
  length obs ≤ length obs' ∧
  ∀ i ob, obs !! i = Some ob → ob_observing ob = false → obs' !! i = Some ob.

Definition grows (w w' : world) : Prop :=
  w_caps w' = w_caps w ∧ w_store w ⊑ w_store w' ∧ w_hydrated w `prefix_of` w_hydrated w' ∧
  w_defined w' = w_defined w ∧ w_mql w `prefix_of` w_mql w' ∧
  stopped_kept (w_observers w) (w_observers w').

#[export] Instance grows_preorder : PreOrder grows.
Proof.
  split.
  - intros w. split_and!; [done|apply bools_le_refl|done..|split; [done|auto]].
  - intros w1 w2 w3 (?&?&?&?&?&[? Ho1]) (?&?&?&?&?&[? Ho2]).
    split_and!; [congruence|by etrans|by etrans|congruence|by etrans|split; [lia|auto]].
Qed.

Lemma keeps_observers_length obs obs' : keeps_observers obs obs' → length obs ≤ length obs'.
Proof.
  intros H. destruct (decide (length obs ≤ length obs')) as [|Hlt]; [done|].
  destruct (lookup_lt_is_Some_2 obs (length obs') ltac:(lia)) as [ob Hob].
  apply H, lookup_lt_Some in Hob. lia.
Qed.

Lemma quiet_grows w w' : quiet w w' → grows w w'.
Proof.
  intros (?&Hh&Hd&?&?&?&Ho&?). split_and!; [done|done|by rewrite Hh|done|done|].
  split; [by apply keeps_observers_length|]. intros i ob Hi _. by apply Ho.
Qed.

Lemma set_doc_grows d w : grows w (set_doc d w).
Proof. split_and!; [done|apply bools_le_refl|done..|split; [done|auto]]. Qed.

Lemma set_frames_grows fs w : grows w (set_frames fs w).
Proof. split_and!; [done|apply bools_le_refl|done..|split; [done|auto]]. Qed.

Lemma push_hydrated_grows el w : grows w (set_hydrated (w_hydrated w ++ [el]) w).
Proof. split_and!; [done|apply bools_le_refl|by apply prefix_app_r|done|done|split; [done|auto]]. Qed.

#[export] Hint Resolve quiet_grows set_doc_grows set_frames_grows push_hydrated_grows : island.

Lemma resolve_grows p w : grows w (resolve p w).
Proof. split_and!; [done|apply bools_le_set_true|done..|split; [done|auto]]. Qed.

Lemma set_ready_grows r w : grows w (set_ready r w).
Proof. split_and!; [done|apply bools_le_refl|done..|split; [done|auto]]. Qed.

Lemma set_load_grows l w : grows w (set_load l w).
Proof. split_and!; [done|apply bools_le_refl|done..|split; [done|auto]]. Qed.

Lemma set_idle_grows l w : grows w (set_idle l w).
Proof. split_and!; [done|apply bools_le_refl|done..|split; [done|auto]]. Qed.

Lemma set_media_grows m w : grows w (set_media m w).
Proof. split_and!; [done|apply bools_le_refl|done..|split; [done|auto]]. Qed.

#[export] Hint Resolve resolve_grows set_ready_grows set_load_grows set_idle_grows set_media_grows : island.

(** ** Cell references *)

#[export] Instance refs_grow_preorder : PreOrder refs_grow.
Proof.
  split; [intros w; split; [lia|auto]|].
  intros w1 w2 w3 [H12 R12] [H23 R23]. split; [lia|]. intros p Hp.
  destruct (R23 p Hp) as [Hp2|]; [|by right]. destruct (R12 p Hp2); [by left|right; lia].
Qed.

Lemma refs_ok_grow w w' : refs_ok w → refs_grow w w' → refs_ok w'.
Proof. intros Hok [Hle R] p Hp. destruct (R p Hp) as [Hp'|]; [|done]. specialize (Hok p Hp'). lia. Qed.

Lemma refs_grow_intro w w' extra :
  length (w_store w) ≤ length (w_store w') → world_cells w' ⊆ world_cells w ++ extra →
  Forall (λ p, p < length (w_store w')) extra → refs_grow w w'.
Proof.
  intros Hle Hsub Hex. split; [done|]. intros p Hp. apply Hsub, elem_of_app in Hp as [|Hp]; [by left|].
  right. rewrite Forall_forall in Hex. by apply Hex.
Qed.

Lemma refs_grow_same w w' :
  length (w_store w) ≤ length (w_store w') → world_cells w' ⊆ world_cells w → refs_grow w w'.
Proof. intros Hle Hsub. apply (refs_grow_intro _ _ []); [done| |done]. by rewrite app_nil_r. Qed.

Lemma new_promise_refs w : refs_grow w (new_promise w).2.
Proof. apply refs_grow_same; [simpl; rewrite length_app; lia|done]. Qed.

Lemma resolve_refs p w : refs_grow w (resolve p w).
Proof. apply refs_grow_same; [simpl; rewrite length_insert; lia|done]. Qed.

#[export] Hint Resolve new_promise_refs resolve_refs : island.

(** Tactic: a setter that keeps the references, or a subset of them. *)
Ltac refs_setter :=
  apply refs_grow_same; [cbn; lia|unfold world_cells; cbn; set_solver].

Lemma set_doc_refs x w : refs_grow w (set_doc x w).
Proof. refs_setter. Qed.
Lemma set_ready_refs x w : refs_grow w (set_ready x w).
Proof. refs_setter. Qed.
Lemma set_media_refs x w : refs_grow w (set_media x w).
Proof. refs_setter. Qed.
Lemma set_defined_refs x w : refs_grow w (set_defined x w).
Proof. refs_setter. Qed.
Lemma set_console_refs x w : refs_grow w (set_console x w).
Proof. refs_setter. Qed.
Lemma set_hydrated_refs x w : refs_grow w (set_hydrated x w).
Proof. refs_setter. Qed.

#[export] Hint Resolve set_doc_refs set_ready_refs set_media_refs set_defined_refs
  set_console_refs set_hydrated_refs : island.

End Platform.
