(* ===== verification/Conditions.v ===== *)
(** * Conditions: the class [Conditions] of src/mini-island.js (lines 43-132)

    The catalogue of conditions: [map] (a closed set of three
    evaluators, one per [condition]), [getConditions] and
    [hasConditions] over an element's attributes, the evaluators
    [waitForIdle], [waitForVisible], [waitForMedia] and the bodies of
    the closures they register with the browser ([on_load], [on_idle],
    [on_intersection], [on_media_change]).  Each evaluator takes the
    world and returns the value it returns in the code ([undefined], a
    promise or [Promise.all] of promises) with the world after its
    synchronous part.  The section ends with the instance of the
    interface [Platform.ConditionRegistry] and its laws. *)

From S2P Require Import Prelude Dom Platform.
Import Dom Platform.

Module Conditions.

Local Set Warnings "-clear-no-such-hyp".

(** The keys of [Conditions.map], in declaration order (lines 44-48). *)
Inductive condition := Idle | Visible | Media.

#[export] Instance condition_eq_dec : EqDecision condition.
Proof. solve_decision. Defined.

Definition condition_name (k : condition) : string :=
  match k with Idle => "idle" | Visible => "visible" | Media => "media" end.

Definition all_conditions : list condition := [Idle; Visible; Media].

(** [Object.keys(Conditions.map)] *)
Definition map_keys : list string := map condition_name all_conditions.

(** The attribute [client:${condition}]. *)
Definition attr_name (condition : string) : string := String.append "client:" condition.

(** [getConditions(node)] (lines 121-131): for each key of the map, in
    order, the attribute's value when the attribute is present.  The
    result object is iterated in insertion order, hence a list. *)
Definition getConditions (attrs : list attr) : list (string * option string) :=
  flat_map (λ condition,
    if hasAttribute attrs (attr_name condition)
    then [(condition, getAttribute attrs (attr_name condition))]
    else []) map_keys.

(** [hasConditions(node)] (lines 115-119). *)
Definition hasConditions (attrs : list attr) : bool :=
  0 <? length (getConditions attrs).

(** ** Evaluators *)

(** [waitForIdle()] (lines 50-72).  [onLoad] resolves now when the
    document is complete and otherwise registers a one-shot [load]
    listener; [onIdle] resolves now when [requestIdleCallback] is
    missing and otherwise requests an idle callback.  The result is
    [Promise.all([onIdle, onLoad])]. *)
Definition waitForIdle (_ : option string) (_ : nat) (w : world) : waitv * world :=
  let '(onLoad, w1) := new_promise w in
  let w2 := if bool_decide (w_ready w1 ≠ Complete)
            then set_load (w_load w1 ++ [onLoad]) w1
            else resolve onLoad w1 in
  let '(onIdle, w3) := new_promise w2 in
  let w4 := if has_requestIdleCallback (w_caps w3)
            then set_idle (w_idle w3 ++ [onIdle]) w3
            else resolve onIdle w3 in
  (WAll [WCell onIdle; WCell onLoad], w4).

(** [waitForVisible(noop, el)] (lines 74-91): [undefined] without
    [IntersectionObserver]; otherwise a promise whose observer watches
    [el]. *)
Definition waitForVisible (noop : option string) (el : nat) (w : world) : waitv * world :=
  if negb (has_IntersectionObserver (w_caps w)) then (WUndef, w)
  else
    let '(p, w1) := new_promise w in
    (WCell p, set_observers (w_observers w1 ++ [mk_observer el p true]) w1).

(** JavaScript truthiness of the attribute value ([null] and [""] are
    falsy). *)
Definition truthy (query : option string) : bool :=
  match query with Some s => bool_decide (s ≠ "") | None => false end.

(** The query [window.matchMedia] is called with (lines 98-100), if it
    is called; otherwise [queryList] stays [{ matches: true }]. *)
Definition media_query_list (query : option string) (w : world) : option string :=
  match query with
  | Some q => if truthy query && has_matchMedia (w_caps w) then Some q else None
  | None => None
  end.

(** [waitForMedia(query)] (lines 93-113). *)
Definition waitForMedia (query : option string) (_ : nat) (w : world) : waitv * world :=
  match media_query_list query w with
  | None => (WUndef, w)
  | Some q =>
      if w_media w q then (WUndef, w)
      else
        let '(p, w1) := new_promise w in
        (WCell p, set_mql (w_mql w1 ++ [mk_media_listener q p]) w1)
  end.

(** ** The registered closures *)

(** The [load] listener (lines 53-55) and the idle callback (63-65). *)
Definition on_load (p : nat) (w : world) : world := resolve p w.
Definition on_idle (p : nat) (w : world) : world := resolve p w.

(** [observer.unobserve(entry.target)]: the observer [i] stops. *)
Definition unobserve (i : nat) (w : world) : world :=
  set_observers (alter (λ ob, mk_observer (ob_target ob) (ob_cell ob) false) i (w_observers w)) w.

(** The [IntersectionObserver] callback of observer [i] (lines 80-87).
    The browser never calls it with an empty list; [entries] is the
    [isIntersecting] of the first entry and of the others.  Only the
    first entry is read ([const [entry] = entries]). *)
Definition on_intersection (i : nat) (entries : bool * list bool) (w : world) : world :=
  match w_observers w !! i with
  | Some ob => if entries.1 then resolve (ob_cell ob) (unobserve i w) else w
  | None => w
  end.

(** The media-query listener (lines 107-111), called with [e.matches]. *)
Definition on_media_change (p : nat) (e_matches : bool) (w : world) : world :=
  if e_matches then resolve p w else w.

(** ** The map *)

Definition evaluator (k : condition) : option string → nat → world → waitv * world :=
  match k with Idle => waitForIdle | Visible => waitForVisible | Media => waitForMedia end.

Definition condition_of_name (c : string) : option condition :=
  List.find (λ k, bool_decide (condition_name k = c)) all_conditions.

(** [Conditions.map[condition]]: own properties only. *)
Definition map_lookup (c : string) : option (option string → nat → world → waitv * world) :=
  evaluator <$> condition_of_name c.

#[export] Instance conditions_registry : ConditionRegistry := {|
  registry_getConditions := getConditions;
  registry_lookup := map_lookup
|}.

(** ** Lemmas *)

Lemma waitForIdle_ok : evaluator_ok waitForIdle.
Proof.
  intros v el w. unfold waitForIdle, new_promise, resolve.
  destruct (bool_decide _), (has_requestIdleCallback _); simpl; split_and!; try done;
    first [ solve [solve_store_le] | apply keeps_observers_refl
          | repeat (apply List.Forall_cons; [simpl; repeat first [rewrite length_insert | rewrite length_app]; simpl; lia|]);
            apply List.Forall_nil ].
Qed.

Lemma waitForVisible_ok : evaluator_ok waitForVisible.
Proof.
  intros v el w. unfold waitForVisible, new_promise.
  destruct (has_IntersectionObserver _); simpl; split_and!; try done;
    try apply keeps_observers_refl.
  all: first [apply bools_le_snoc | apply keeps_observers_app
             | apply List.Forall_cons; [|apply List.Forall_nil]; rewrite length_app; simpl; lia].
Qed.

Lemma waitForMedia_ok : evaluator_ok waitForMedia.
Proof.
  intros v el w. unfold waitForMedia, new_promise.
  destruct (media_query_list v w) as [q|]; [destruct (w_media w q)|]; simpl; split_and!; try done;
    try apply keeps_observers_refl.
  all: first [ apply bools_le_snoc | by apply prefix_app_r | apply List.Forall_nil
             | apply List.Forall_cons; [|apply List.Forall_nil]; rewrite length_app; simpl; lia ].
Qed.

(** An evaluator refers only to the cells it creates: [extra] lists
    them, in terms of the length of the store it started from. *)
Ltac store_length := repeat first [rewrite length_insert | rewrite length_app]; simpl.

Ltac fresh_refs extra :=
  apply (refs_grow_intro _ _ extra);
  [ simpl; store_length; lia
  | unfold world_cells; simpl; store_length; set_solver
  | repeat (apply List.Forall_cons; [simpl; store_length; lia|]); apply List.Forall_nil ].

Lemma waitForIdle_refs v el w : refs_grow w (waitForIdle v el w).2.
Proof.
  unfold waitForIdle, new_promise.
  destruct (bool_decide _), (has_requestIdleCallback _); simpl;
    fresh_refs [length (w_store w); length (w_store w) + 1].
Qed.

Lemma waitForVisible_refs v el w : refs_grow w (waitForVisible v el w).2.
Proof.
  unfold waitForVisible, new_promise.
  destruct (has_IntersectionObserver _); simpl; first [reflexivity|fresh_refs [length (w_store w)]].
Qed.

Lemma waitForMedia_refs v el w : refs_grow w (waitForMedia v el w).2.
Proof.
  unfold waitForMedia, new_promise.
  destruct (media_query_list v w) as [q|]; [destruct (w_media w q)|]; simpl;
    first [reflexivity|fresh_refs [length (w_store w)]].
Qed.

Lemma evaluator_ok_all k : evaluator_ok (evaluator k).
Proof. destruct k; [apply waitForIdle_ok|apply waitForVisible_ok|apply waitForMedia_ok]. Qed.

#[export] Instance conditions_laws : RegistryLaws.
Proof.
  constructor. intros c f. unfold registry_lookup, conditions_registry, map_lookup.
  destruct (condition_of_name c) as [[| |]|]; simpl; intros [= <-].
  - apply waitForIdle_ok.
  - apply waitForVisible_ok.
  - apply waitForMedia_ok.
  - intros c f. unfold registry_lookup, conditions_registry, map_lookup.
    destruct (condition_of_name c) as [[| |]|]; simpl; intros [= <-].
    + apply waitForIdle_refs.
    + apply waitForVisible_refs.
    + apply waitForMedia_refs.
Qed.

(** Decide a goal about booleans computed from store lookups. *)
Ltac decide_settled := repeat (case_bool_decide; try congruence); simpl; naive_solver.

Lemma getConditions_elem attrs c v :
  (c, v) ∈ getConditions attrs ↔
  c ∈ map_keys ∧ hasAttribute attrs (attr_name c) = true ∧ v = getAttribute attrs (attr_name c).
Proof.
  unfold getConditions. rewrite elem_of_flat_map. split.
  - intros (c' & Hc' & Hin). destruct (hasAttribute attrs (attr_name c')) eqn:Ha;
      [|by apply not_elem_of_nil in Hin].
    apply list_elem_of_singleton in Hin. simplify_eq. done.
  - intros (Hc & Ha & ->). exists c. rewrite Ha. split; [done|]. by left.
Qed.

Lemma getConditions_keys attrs :
  map fst (getConditions attrs) = filter (λ c, hasAttribute attrs (attr_name c) = true) map_keys.
Proof.
  unfold getConditions. generalize map_keys. intros l. induction l as [|c l IH]; [done|].
  simpl. rewrite filter_cons. destruct (hasAttribute attrs (attr_name c)); simpl; by rewrite IH.
Qed.

Lemma getConditions_names attrs c v : (c, v) ∈ getConditions attrs → ∃ k, c = condition_name k.
Proof.
  intros Hcv. apply getConditions_elem in Hcv as (Hc & _).
  apply list_elem_of_fmap in Hc as (k & -> & _). by exists k.
Qed.

Lemma map_lookup_name k : map_lookup (condition_name k) = Some (evaluator k).
Proof. by destruct k. Qed.

(** C20: Every condition [getConditions] reports is a key of
    [Conditions.map] and looks up its own evaluator, so the guard
    [if (!conditionFn) continue] of [hydrate] never skips one. *)
Theorem getConditions_lookup attrs c v :
  (c, v) ∈ getConditions attrs → ∃ k, c = condition_name k ∧ map_lookup c = Some (evaluator k).
Proof.
  intros Hcv. destruct (getConditions_names _ _ _ Hcv) as [k ->].
  exists k. split; [done|]. apply map_lookup_name.
Qed.

(** C16: [getConditions] returns the declared conditions, in the order of
    [Conditions.map], each with the value of its attribute, which is
    never [null]. *)
Theorem getConditions_spec attrs :
  map fst (getConditions attrs) `sublist_of` ["idle"; "visible"; "media"] ∧
  ∀ c v, (c, v) ∈ getConditions attrs ↔
         c ∈ ["idle"; "visible"; "media"] ∧ v = getAttribute attrs (attr_name c) ∧ is_Some v.
Proof.
  split.
  - rewrite getConditions_keys. apply sublist_filter.
  - intros c v. rewrite getConditions_elem, hasAttribute_getAttribute. naive_solver.
Qed.

(** C27: [hasConditions] holds exactly when one of the three attributes is
    present. *)
Theorem hasConditions_spec attrs :
  hasConditions attrs = true ↔ ∃ k, hasAttribute attrs (attr_name (condition_name k)) = true.
Proof.
  unfold hasConditions. rewrite Nat.ltb_lt, <- (length_map fst), getConditions_keys.
  set (P := λ c, hasAttribute attrs (attr_name c) = true).
  split.
  - intros H. destruct (filter P map_keys) as [|c l] eqn:Hf; [simpl in H; lia|].
    assert (Hc : c ∈ filter P map_keys) by (rewrite Hf; by left).
    apply list_elem_of_filter in Hc as [Ha Hc]. unfold map_keys in Hc.
    apply list_elem_of_In, in_map_iff in Hc as (k & <- & _). by exists k.
  - intros [k Hk]. destruct (filter P map_keys) as [|c l] eqn:Hf; [|simpl; lia].
    assert (Hin : condition_name k ∈ filter P map_keys).
    { apply list_elem_of_filter. split; [done|]. unfold map_keys.
      apply list_elem_of_In, in_map, list_elem_of_In. destruct k; set_solver. }
    rewrite Hf in Hin. by apply not_elem_of_nil in Hin.
Qed.

(** C14: [waitForIdle] is settled at once exactly when the document has
    finished loading and [requestIdleCallback] is missing; otherwise it
    waits for a [load] event, an idle period, or both. *)
Theorem waitForIdle_settled_iff v el w :
  settled (w_store (waitForIdle v el w).2) (waitForIdle v el w).1 = true ↔
  w_ready w = Complete ∧ has_requestIdleCallback (w_caps w) = false.
Proof.
  unfold waitForIdle, new_promise, resolve.
  destruct (decide (w_ready w = Complete)) as [Hc|Hc];
    [rewrite bool_decide_eq_false_2 by naive_solver | rewrite bool_decide_eq_true_2 by done];
    destruct (has_requestIdleCallback _); simpl; store_lookup; decide_settled.
Qed.

(** C26: Without [IntersectionObserver], [waitForVisible] returns
    [undefined] and changes nothing: the condition is skipped. *)
Theorem waitForVisible_no_observer v el w :
  has_IntersectionObserver (w_caps w) = false → waitForVisible v el w = (WUndef, w).
Proof. unfold waitForVisible. by intros ->. Qed.

(** With it, [waitForVisible] returns a fresh pending promise and an
    observer of [el] that resolves it. *)
Lemma waitForVisible_observes v el w :
  has_IntersectionObserver (w_caps w) = true →
  let p := length (w_store w) in
  waitForVisible v el w =
    (WCell p, set_observers (w_observers w ++ [mk_observer el p true]) (set_store (w_store w ++ [false]) w)).
Proof. unfold waitForVisible. by intros ->. Qed.

(** C15: [waitForMedia] is settled at once exactly when there is no query
    (attribute empty), no [matchMedia], or the query matches now. *)
Theorem waitForMedia_settled_iff v el w :
  settled (w_store (waitForMedia v el w).2) (waitForMedia v el w).1 = true ↔
  ∀ q, v = Some q → q ≠ "" → has_matchMedia (w_caps w) = true → w_media w q = true.
Proof.
  unfold waitForMedia, media_query_list, truthy, new_promise.
  destruct v as [q|]; [|simpl; naive_solver].
  destruct (decide (q = "")) as [->|Hq]; [simpl; naive_solver|].
  rewrite bool_decide_eq_true_2 by done.
  destruct (has_matchMedia (w_caps w)) eqn:Hm; [|simpl; naive_solver].
  simpl. destruct (w_media w q) eqn:Hw; simpl.
  - split; [intros _ q' [= <-] _ _; done | done].
  - store_lookup. rewrite bool_decide_eq_false_2 by congruence.
    split; [done|]. intros H. rewrite H in Hw; congruence.
Qed.

(** C22: The observer callback reads only the first entry: when it does not
    intersect, nothing happens, whatever the other entries say. *)
Theorem on_intersection_first_entry_only i rest w :
  on_intersection i (false, rest) w = w.
Proof. unfold on_intersection. by destruct (w_observers w !! i). Qed.


(** When the first entry intersects, the observer stops observing and
    its promise is resolved. *)
Lemma on_intersection_fires i rest w ob :
  w_observers w !! i = Some ob → ob_cell ob < length (w_store w) →
  w_store (on_intersection i (true, rest) w) !! ob_cell ob = Some true ∧
  w_observers (on_intersection i (true, rest) w) !! i =
    Some (mk_observer (ob_target ob) (ob_cell ob) false).
Proof.
  intros Hob Hlt. unfold on_intersection, resolve, unobserve. rewrite Hob. simpl. split.
  - apply lookup_set_true. exact Hlt.
  - by rewrite list_lookup_alter_eq, Hob.
Qed.

Lemma evaluator_ready k v el w : w_ready (evaluator k v el w).2 = w_ready w.
Proof.
  destruct k; simpl; unfold waitForIdle, waitForVisible, waitForMedia, new_promise, resolve.
  - by repeat case_match.
  - by destruct (negb _).
  - destruct (media_query_list v w) as [q|]; [destruct (w_media w q)|]; done.
Qed.

(** Without [requestIdleCallback], [IntersectionObserver] and
    [matchMedia], and once the document is complete, every evaluator's
    value has settled when it returns. *)
Lemma evaluator_settled_no_capabilities k v el w :
  w_ready w = Complete → has_requestIdleCallback (w_caps w) = false →
  has_IntersectionObserver (w_caps w) = false → has_matchMedia (w_caps w) = false →
  settled (w_store (evaluator k v el w).2) (evaluator k v el w).1 = true.
Proof.
  intros Hr Hric Hio Hmm. destruct k; cbn [evaluator].
  - unfold waitForIdle, new_promise, resolve. case_bool_decide as Hb; cbn in Hb; rewrite Hr in Hb;
      [first [by destruct Hb | discriminate Hb]|]. simpl. rewrite Hric. simpl. store_lookup. by rewrite !bool_decide_eq_true_2.
  - unfold waitForVisible. by rewrite Hio.
  - unfold waitForMedia, media_query_list. destruct v as [q|]; [|done].
    simpl. rewrite Hmm, andb_false_r. done.
Qed.

End Conditions.
