(* ===== verification/Island.v ===== *)
(** * Island: the class [MiniIsland] of src/mini-island.js (lines 1-41)

    The controller of one [<mini-island>] element, written against the
    interface [Platform.ConditionRegistry] (a [Section] with the
    registry as [Context]), so that its lemmas hold for every catalogue
    that satisfies [Platform.RegistryLaws].

    [hydrate] runs in two parts, split at its [await]: [hydrate] below
    is the synchronous part (read the declared conditions, start every
    evaluator, leave a suspended frame waiting on [Promise.all]); the
    continuation [resume] runs when the event loop finds the frame's
    value settled: [getTemplates], then [replaceTemplates].  Inserting a
    template's content connects the [<mini-island>] elements it
    contains; the browser then calls their [connectedCallback]
    ([connect_inserted], the host's custom element reactions). *)

From S2P Require Import Prelude Dom Platform.
Import Dom Platform.

Module Island.

Local Set Warnings "-clear-no-such-hyp".

(** [static tagName] (line 2) and [static attributes.dataIsland] (line 4). *)
Definition tagName : string := "mini-island".
Definition dataIsland : string := "data-island".

Definition is_island (n : node) : bool :=
  match n with Elem _ t _ _ => bool_decide (t = tagName) | _ => false end.

Section controller.
Context `{ConditionRegistry}.

(** The attributes of [this]: a connected element is in the tree. *)
Definition element_attrs (el : nat) (w : world) : list attr :=
  match find_node el (w_doc w) with Some n => node_attrs n | None => [] end.

(** The [for ... in] loop of [hydrate] (lines 16-23): every declared
    condition that has an evaluator in the map is started, in order,
    and its result pushed on [conditions]. *)
Fixpoint start_conditions (conds : list (string * option string)) (el : nat) (w : world)
    : list waitv * world :=
  match conds with
  | [] => ([], w)
  | (condition, value) :: rest =>
      match registry_lookup condition with
      | Some conditionFn =>
          let '(conditionPromise, w1) := conditionFn value el w in
          let '(conditions, w2) := start_conditions rest el w1 in
          (conditionPromise :: conditions, w2)
      | None => start_conditions rest el w
      end
  end.

(** [hydrate()] up to [await Promise.all(conditions)] (lines 11-25). *)
Definition hydrate (el : nat) (w : world) : world :=
  let conditionAttributesMap := registry_getConditions (element_attrs el w) in
  let '(conditions, w1) := start_conditions conditionAttributesMap el w in
  set_frames (w_frames w1 ++ [mk_frame el (WAll conditions)]) w1.

(** [connectedCallback()] (lines 7-9) calls [hydrate]; the promise it
    returns is not read by anyone. *)
Definition connectedCallback (el : nat) (w : world) : world := hydrate el w.

(** [getTemplates()] (lines 32-34). *)
Definition getTemplates (el : nat) (doc : list node) : list nat :=
  match find_node el doc with
  | Some n => querySelectorAll (template_with dataIsland) n
  | None => []
  end.

(** The browser's custom element reactions after an insertion: every
    [<mini-island>] among the inserted nodes and their descendants,
    in tree order, gets its [connectedCallback] when the element is
    defined. *)
Definition connect_inserted (ns : list node) (w : world) : world :=
  if bool_decide (tagName ∈ w_defined w)
  then fold_left (λ w n, connectedCallback (node_id n) w) (filter is_island (flat_map subtree ns)) w
  else w.

(** One iteration of [replaceTemplates]: [node.replaceWith(node.content)]. *)
Definition replace_one (w : world) (id : nat) : world :=
  let inserted := content_of id (w_doc w) in
  connect_inserted inserted (set_doc (replaceWith_content id (w_doc w)) w).

(** [replaceTemplates(templates)] (lines 36-40). *)
Definition replaceTemplates (templates : list nat) (w : world) : world :=
  fold_left replace_one templates w.

(** The continuation of [hydrate] after the [await] (lines 27-29); the
    instrumentation records that the island's [hydrate] finished. *)
Definition resume (f : frame) (w : world) : world :=
  let relevantChildTemplates := getTemplates (fr_el f) (w_doc w) in
  let w1 := replaceTemplates relevantChildTemplates w in
  set_hydrated (w_hydrated w1 ++ [fr_el f]) w1.

End controller.

(** The work a microtask checkpoint can still do: the suspended
    frames, and the nodes inside template contents, each of which may
    become a connected island when its fragment is inserted. *)
Definition pending_work (w : world) : nat :=
  length (w_frames w) + length (flat_map inner_ids (w_doc w)).

(** The element with identity [el] is a [<mini-island>] of the tree. *)
Definition island_in (doc : list node) (el : nat) : Prop :=
  ∃ n, find_node el doc = Some n ∧ is_island n = true.

(** Every element hydrated or waiting to be is a [<mini-island>] of the
    document. *)
Definition islands_ok (w : world) : Prop :=
  ∀ el, el ∈ w_hydrated w ∨ el ∈ map fr_el (w_frames w) → island_in (w_doc w) el.

Lemma wf_replaceWith_content t doc : wf doc → wf (replaceWith_content t doc).
Proof. unfold wf. intros H. eapply sublist_NoDup; [exact H|apply (replace_each_ids [t])]. Qed.

(** An island of the tree stays an island of the tree, with the same
    attributes, after a [replaceWith]. *)
Lemma find_island_replaceWith t doc el n :
  wf doc → find_node el doc = Some n → is_island n = true →
  ∃ n', find_node el (replaceWith_content t doc) = Some n' ∧ is_island n' = true ∧
        node_attrs n' = node_attrs n.
Proof.
  intros Hwf Hf Hi. unfold find_node in Hf. apply find_some in Hf as [Hn Hid].
  apply bool_decide_eq_true in Hid. apply list_elem_of_In in Hn.
  destruct n as [|j tg a k|]; try done. simpl in Hid. subst j.
  destruct (replaceWith_keeps_elem t doc el tg a k Hn) as [k' Hk'].
  exists (Elem el tg a k'). split_and!; [|done|done].
  apply (find_node_tree _ (Elem el tg a k')); [by apply wf_replaceWith_content|done].
Qed.

Lemma island_in_replaceWith t doc el :
  wf doc → island_in doc el → island_in (replaceWith_content t doc) el.
Proof.
  intros Hwf (n & Hf & Hi). destruct (find_island_replaceWith t doc el n Hwf Hf Hi) as (n' & ? & ? & _).
  by exists n'.
Qed.



(** The same after any sequence of promotions. *)
Lemma find_island_replace_each L doc el n :
  wf doc → find_node el doc = Some n → is_island n = true →
  ∃ n', find_node el (replace_each L doc) = Some n' ∧ is_island n' = true ∧
        node_attrs n' = node_attrs n.
Proof.
  unfold replace_each. revert doc n. induction L as [|t L IH]; intros doc n Hwf Hf Hi; simpl; [by exists n|].
  destruct (find_island_replaceWith t doc el n Hwf Hf Hi) as (n1 & Hf1 & Hi1 & Ha1).
  destruct (IH _ n1 (wf_replaceWith_content t doc Hwf) Hf1 Hi1) as (n2 & ? & ? & Ha2).
  exists n2. split_and!; [done|done|congruence].
Qed.

(** An island's attributes, read by [element_attrs], survive the
    promotions. *)
Lemma element_attrs_replace_each L w w' el :
  wf (w_doc w) → island_in (w_doc w) el → w_doc w' = replace_each L (w_doc w) →
  element_attrs el w' = element_attrs el w.
Proof.
  intros Hwf (n & Hf & Hi) Hd. destruct (find_island_replace_each L _ el n Hwf Hf Hi) as (n' & Hf' & _ & Ha).
  unfold element_attrs. by rewrite Hd, Hf', Hf.
Qed.

Lemma island_in_replace_each L doc el :
  wf doc → island_in doc el → island_in (replace_each L doc) el.
Proof.
  unfold replace_each. revert doc. induction L as [|t L IH]; intros doc Hwf Hel; simpl; [done|].
  apply IH; [by apply wf_replaceWith_content|by apply island_in_replaceWith].
Qed.

(** The [<mini-island>] elements of the fragment a [replaceWith]
    inserts are in the tree afterwards. *)
Lemma island_in_inserted t doc n :
  wf doc → n ∈ filter is_island (flat_map subtree (content_of t doc)) →
  island_in (replaceWith_content t doc) (node_id n).
Proof.
  intros Hwf Hn. apply list_elem_of_filter in Hn as [Hi Hn]. unfold content_of in Hn.
  destruct (find_node t doc) as [[| |j a c]|] eqn:Hf; try (by apply not_elem_of_nil in Hn).
  unfold find_node in Hf. apply find_some in Hf as [Ht Hid].
  apply bool_decide_eq_true in Hid. apply list_elem_of_In in Ht. simpl in Hid. subst j.
  exists n. split; [|by apply Is_true_true].
  apply find_node_tree; [by apply wf_replaceWith_content|]. by eapply replaceWith_inserts.
Qed.

(** Conversely, an island of the document after a [replaceWith] was an
    island of the document before, or an island of the inserted
    fragment. *)
Lemma island_in_replaceWith_inv t doc el :
  wf doc → island_in (replaceWith_content t doc) el →
  island_in doc el ∨ ∃ n, n ∈ filter is_island (flat_map subtree (content_of t doc)) ∧ node_id n = el.
Proof.
  intros Hwf (n & Hf & Hi). unfold find_node in Hf. apply find_some in Hf as [Hn Hid].
  apply bool_decide_eq_true in Hid. apply list_elem_of_In in Hn.
  destruct n as [|j tg a k|]; try done. simpl in Hid. subst j.
  destruct (replaceWith_elem_origin t doc el tg a k Hwf Hn) as [[k0 Hk0]|Hc].
  - left. exists (Elem el tg a k0). split; [exact (find_node_tree doc _ Hwf Hk0)|done].
  - right. exists (Elem el tg a k). split; [|done]. apply list_elem_of_filter. split; [by apply Is_true_true|done].
Qed.



Lemma islands_ok_same w w' :
  w_hydrated w' = w_hydrated w → w_frames w' = w_frames w → w_doc w' = w_doc w →
  islands_ok w → islands_ok w'.
Proof. intros Hh Hf Hd H el. rewrite Hh, Hf, Hd. apply H. Qed.

Section lemmas.
Context `{RegistryLaws}.
Local Open Scope island_scope.

Lemma start_conditions_quiet conds el w : w ≼ (start_conditions conds el w).2.
Proof.
  revert w. induction conds as [|[c v] conds IH]; intros w; simpl; [reflexivity|].
  destruct (registry_lookup c) as [f|] eqn:Hf; [|apply IH].
  destruct (f v el w) as [p w1] eqn:Hw1. destruct (start_conditions conds el w1) as [ps w2] eqn:Hw2.
  simpl. etrans; [|specialize (IH w1); rewrite Hw2 in IH; exact IH].
  pose proof (evaluator_quiet f v el w (registry_lookup_ok c f Hf)) as Hq. by rewrite Hw1 in Hq.
Qed.

Lemma start_conditions_frames conds el w : w_frames (start_conditions conds el w).2 = w_frames w.
Proof.
  revert w. induction conds as [|[c v] conds IH]; intros w; simpl; [done|].
  destruct (registry_lookup c) as [f|] eqn:Hf; [|apply IH].
  destruct (f v el w) as [p w1] eqn:Hw1. specialize (IH w1).
  destruct (start_conditions conds el w1) as [ps w2]. simpl in *. rewrite IH.
  destruct (registry_lookup_ok c f Hf v el w) as (_&Hfr&_). by rewrite Hw1 in Hfr.
Qed.

Lemma hydrate_quiet el w : w ≼ hydrate el w.
Proof.
  unfold hydrate. pose proof (start_conditions_quiet (registry_getConditions (element_attrs el w)) el w) as Hq.
  destruct (start_conditions _ el w) as [ps w1]. etrans; [exact Hq|apply push_frame_quiet].
Qed.

Lemma hydrate_frames el w : ∃ v, w_frames (hydrate el w) = w_frames w ++ [mk_frame el v].
Proof.
  unfold hydrate. pose proof (start_conditions_frames (registry_getConditions (element_attrs el w)) el w) as Hf.
  destruct (start_conditions _ el w) as [ps w1]. simpl in *. exists (WAll ps). by rewrite Hf.
Qed.

(** C21: The synchronous part of [connectedCallback] never promotes: it
    leaves the document and the finished hydrations as they are and
    suspends one more frame for this element.  Promotion happens
    later, at the microtask checkpoint, even when no condition is
    declared ([await Promise.all([])] still yields). *)
Theorem connectedCallback_defers el w :
  w_doc (connectedCallback el w) = w_doc w ∧ w_hydrated (connectedCallback el w) = w_hydrated w ∧
  ∃ v, w_frames (connectedCallback el w) = w_frames w ++ [mk_frame el v].
Proof.
  unfold connectedCallback. destruct (hydrate_quiet el w) as (Hd&Hh&_).
  split_and!; [done|done|]. apply hydrate_frames.
Qed.

Lemma connect_inserted_quiet ns w : w ≼ connect_inserted ns w.
Proof.
  unfold connect_inserted. case_bool_decide as Hdef; [clear Hdef|reflexivity].
  generalize (filter is_island (flat_map subtree ns)). intros l. revert w.
  induction l as [|n l IH]; intros w; simpl; [reflexivity|].
  etrans; [apply hydrate_quiet|apply IH].
Qed.

Lemma replace_one_doc w id : w_doc (replace_one w id) = replaceWith_content id (w_doc w).
Proof.
  unfold replace_one. try match goal with |- context [connect_inserted ?ns ?w'] =>
    destruct (connect_inserted_quiet ns w') as (-> & _) end. done.
Qed.

(** On the document, [replaceTemplates] is the [replaceWith] loop:
    the callbacks of the islands it connects do not touch the tree. *)
Lemma replaceTemplates_doc ts w : w_doc (replaceTemplates ts w) = replace_each ts (w_doc w).
Proof.
  unfold replaceTemplates, replace_each. revert w. induction ts as [|t ts IH]; intros w; simpl; [done|].
  by rewrite IH, replace_one_doc.
Qed.

Lemma replaceTemplates_grows ts w : grows w (replaceTemplates ts w).
Proof.
  unfold replaceTemplates. revert w. induction ts as [|t ts IH]; intros w; simpl; [reflexivity|].
  etrans; [|apply IH]. unfold replace_one.
  first [etrans; [apply set_doc_grows|apply quiet_grows, connect_inserted_quiet] | apply set_doc_grows].
Qed.

Lemma replaceTemplates_frames ts w : w_frames w `prefix_of` w_frames (replaceTemplates ts w).
Proof.
  unfold replaceTemplates. revert w. induction ts as [|t ts IH]; intros w; simpl; [done|].
  etrans; [|apply IH]. unfold replace_one.
  first [match goal with |- context [connect_inserted ?ns ?w'] =>
    by destruct (connect_inserted_quiet ns w') as (_&_&_&_&_&Hf&_) end | done].
Qed.

Lemma resume_grows f w : grows w (resume f w).
Proof. unfold resume. etrans; [apply replaceTemplates_grows|apply push_hydrated_grows]. Qed.

Lemma resume_frames f w : w_frames w `prefix_of` w_frames (resume f w).
Proof. unfold resume. simpl. apply replaceTemplates_frames. Qed.

Lemma resume_hydrated f w : ∃ l, w_hydrated (resume f w) = w_hydrated w ++ l ++ [fr_el f].
Proof.
  unfold resume. simpl. destruct (replaceTemplates_grows (getTemplates (fr_el f) (w_doc w)) w)
    as (_ & _ & [l Hl] & _). rewrite Hl. exists l. by rewrite app_assoc.
Qed.

Lemma resume_doc f w : w_doc (resume f w) = replace_each (getTemplates (fr_el f) (w_doc w)) (w_doc w).
Proof. unfold resume. simpl. apply replaceTemplates_doc. Qed.

(** C3: The continuation of [hydrate] promotes the island's subtree: each
    [<template data-island>] below it is replaced by its content, in
    place, and the rest of the document is unchanged. *)
Theorem resume_promotes f w n :
  wf (w_doc w) → find_node (fr_el f) (w_doc w) = Some n →
  w_doc (resume f w) = map (map_node (fr_el f) (promote_children dataIsland)) (w_doc w).
Proof.
  intros Hwf Hn. rewrite resume_doc. unfold getTemplates. rewrite Hn. by apply replace_each_promote.
Qed.

Lemma connect_inserted_frames ns w :
  length (w_frames (connect_inserted ns w)) ≤ length (w_frames w) + length (flat_map subtree ns).
Proof.
  unfold connect_inserted. case_bool_decide; [|lia].
  pose proof (length_filter is_island (flat_map subtree ns)).
  enough (∀ l w, length (w_frames (fold_left (λ w n, connectedCallback (node_id n) w) l w))
                 = length (w_frames w) + length l) as -> by lia.
  clear -H0. intros l. induction l as [|n l IH]; intros w; simpl; [lia|].
  rewrite IH. unfold connectedCallback. destruct (hydrate_frames (node_id n) w) as [v ->].
  rewrite length_app. simpl. lia.
Qed.

(** One [replaceWith] and the reactions it triggers do not add work:
    every island it connects comes out of a template content. *)
Lemma replace_one_work w t : pending_work (replace_one w t) ≤ pending_work w.
Proof.
  unfold pending_work. rewrite replace_one_doc.
  pose proof (replaceWith_content_bound t (w_doc w)) as Hb. unfold content_bound in Hb.
  unfold replace_one. pose proof (connect_inserted_frames (content_of t (w_doc w))
    (set_doc (replaceWith_content t (w_doc w)) w)) as Hf. simpl in *. lia.
Qed.

Lemma resume_work f w : pending_work (resume f w) ≤ pending_work w.
Proof.
  unfold resume, pending_work, replaceTemplates. cbn [set_hydrated w_frames w_doc].
  generalize (getTemplates (fr_el f) (w_doc w)). intros ts. revert w.
  induction ts as [|t ts IH]; intros w; simpl; [lia|].
  etrans; [apply IH|]. apply replace_one_work.
Qed.

(** ** Cell references *)

Lemma start_conditions_refs conds el w :
  refs_grow w (start_conditions conds el w).2 ∧
  Forall (λ p, p < length (w_store (start_conditions conds el w).2)) (flat_map cells (start_conditions conds el w).1).
Proof.
  revert w. induction conds as [|[c v] conds IH]; intros w; simpl; [split; [reflexivity|constructor]|].
  destruct (registry_lookup c) as [f|] eqn:Hf; [|apply IH].
  pose proof (registry_lookup_refs c f Hf v el w) as Hr.
  destruct (registry_lookup_ok c f Hf v el w) as (_&_&_&_&_&_&_&_&Hc).
  destruct (f v el w) as [p w1]. specialize (IH w1).
  destruct (start_conditions conds el w1) as [ps w2]. simpl in *. destruct IH as [IHr IHc].
  split; [by etrans|]. apply Forall_app. split; [|done].
  destruct IHr as [Hle _]. rewrite Forall_forall in *. intros q Hq. specialize (Hc q Hq). lia.
Qed.

Lemma hydrate_refs el w : refs_grow w (hydrate el w).
Proof.
  unfold hydrate. destruct (start_conditions_refs (registry_getConditions (element_attrs el w)) el w) as [Hr Hc].
  destruct (start_conditions _ el w) as [ps w1]. simpl in *. etrans; [exact Hr|].
  apply (refs_grow_intro _ _ (flat_map cells ps)); [done| |done].
  unfold world_cells. cbn [set_frames w_frames w_load w_idle w_observers w_mql].
  rewrite flat_map_app. cbn [flat_map fr_join cells]. set_solver.
Qed.

Lemma connect_inserted_refs ns w : refs_grow w (connect_inserted ns w).
Proof.
  unfold connect_inserted. case_bool_decide; [|reflexivity].
  apply fold_left_rel; [apply _|]. intros w' n _. apply hydrate_refs.
Qed.

Lemma replaceTemplates_refs ts w : refs_grow w (replaceTemplates ts w).
Proof.
  unfold replaceTemplates. apply fold_left_rel; [apply _|]. intros w' t _. unfold replace_one.
  first [etrans; [apply set_doc_refs|apply connect_inserted_refs] | apply set_doc_refs].
Qed.

Lemma resume_refs f w : refs_grow w (resume f w).
Proof. unfold resume. etrans; [apply replaceTemplates_refs|apply set_hydrated_refs]. Qed.
(** ** Only islands of the document are hydrated *)

Lemma hydrate_islands el w : islands_ok w → island_in (w_doc w) el → islands_ok (hydrate el w).
Proof.
  intros Hok Hel el' Hel'. destruct (hydrate_quiet el w) as (Hd & Hh & _).
  destruct (hydrate_frames el w) as [v Hf]. rewrite Hd. rewrite Hh, Hf, map_app in Hel'.
  destruct Hel' as [Hel'|Hel']; [apply Hok; by left|].
  apply elem_of_app in Hel' as [Hel'|Hel']; [apply Hok; by right|].
  apply list_elem_of_singleton in Hel'. by subst.
Qed.

Lemma connect_all_islands l w :
  islands_ok w → (∀ n, n ∈ l → island_in (w_doc w) (node_id n)) →
  islands_ok (fold_left (λ w n, connectedCallback (node_id n) w) l w).
Proof.
  revert w. induction l as [|n l IH]; intros w Hok Hl; simpl; [done|]. unfold connectedCallback.
  destruct (hydrate_quiet (node_id n) w) as (Hd & _).
  apply IH; [apply hydrate_islands; [done|apply Hl; by left]|].
  intros m Hm. rewrite Hd. apply Hl. by right.
Qed.

Lemma connect_inserted_islands ns w :
  islands_ok w → (∀ n, n ∈ filter is_island (flat_map subtree ns) → island_in (w_doc w) (node_id n)) →
  islands_ok (connect_inserted ns w).
Proof. unfold connect_inserted. case_bool_decide; [apply connect_all_islands|done]. Qed.

Lemma replace_one_islands w t : wf (w_doc w) → islands_ok w → islands_ok (replace_one w t).
Proof.
  intros Hwf Hok. unfold replace_one. apply connect_inserted_islands.
  - intros el Hel. cbn [set_doc w_doc]. apply island_in_replaceWith; [done|]. by apply Hok.
  - intros n Hn. cbn [set_doc w_doc]. by apply island_in_inserted.
Qed.

Lemma replaceTemplates_islands ts w : wf (w_doc w) → islands_ok w → islands_ok (replaceTemplates ts w).
Proof.
  unfold replaceTemplates. revert w. induction ts as [|t ts IH]; intros w Hwf Hok; simpl; [done|].
  apply IH; [rewrite replace_one_doc; by apply wf_replaceWith_content|by apply replace_one_islands].
Qed.

Lemma resume_islands f w :
  wf (w_doc w) → islands_ok w → island_in (w_doc w) (fr_el f) → islands_ok (resume f w).
Proof.
  intros Hwf Hok Hf el Hel. unfold resume in *. cbn [set_hydrated w_hydrated w_frames w_doc] in *.
  destruct Hel as [Hel|Hel].
  - apply elem_of_app in Hel as [Hel|Hel]; [apply replaceTemplates_islands; [done|done|by left]|].
    apply list_elem_of_singleton in Hel. subst. rewrite replaceTemplates_doc.
    by apply island_in_replace_each.
  - apply replaceTemplates_islands; [done|done|by right].
Qed.

(** ** Invariants of the promotions

    A predicate on worlds that implies unique identities, survives a
    [hydrate] of an island of the tree and a [replaceWith] survives
    [replaceTemplates]: the islands it connects are in the tree. *)
Section promotions_inv.
Variable I : world → Prop.
Hypothesis I_wf : ∀ w, I w → wf (w_doc w).
Hypothesis I_hydrate : ∀ el w, I w → island_in (w_doc w) el → I (hydrate el w).
Hypothesis I_doc : ∀ t w, I w → I (set_doc (replaceWith_content t (w_doc w)) w).

Lemma connect_all_inv l w :
  I w → (∀ n, n ∈ l → island_in (w_doc w) (node_id n)) →
  I (fold_left (λ w n, connectedCallback (node_id n) w) l w).
Proof.
  intros HI Hl. eapply proj1, (fold_left_inv (λ w', I w' ∧ w_doc w' = w_doc w)); [|done].
  intros w' n Hn [HI' Hd]. destruct (hydrate_quiet (node_id n) w') as (Hd' & _).
  split; [|unfold connectedCallback; congruence]. apply I_hydrate; [done|]. rewrite Hd. by apply Hl.
Qed.

Lemma connect_inserted_inv ns w :
  I w → (∀ n, n ∈ filter is_island (flat_map subtree ns) → island_in (w_doc w) (node_id n)) →
  I (connect_inserted ns w).
Proof. unfold connect_inserted. case_bool_decide; [apply connect_all_inv|done]. Qed.

Lemma replace_one_inv w t : I w → I (replace_one w t).
Proof.
  intros HI. unfold replace_one. apply connect_inserted_inv; [by apply I_doc|].
  intros n Hn. apply island_in_inserted; [by apply I_wf|done].
Qed.

Lemma replaceTemplates_inv ts w : I w → I (replaceTemplates ts w).
Proof. unfold replaceTemplates. apply (fold_left_inv I). intros w' t _. apply replace_one_inv. Qed.
End promotions_inv.
End lemmas.

End Island.
