(* ===== verification/EventLoop.v ===== *)
(** * EventLoop: the host that drives src/mini-island.js

    Every task of the browser's event loop that the program reacts to
    is an [event]: the connection of an element ([connectedCallback]),
    [DOMContentLoaded], the [load] event, an idle period, an
    intersection notification and a change of the media environment.
    [dispatch] runs the task (calling the callbacks of [Conditions]);
    [drain] is the microtask checkpoint that follows every task: it
    resumes, in creation order, each suspended [hydrate] whose
    [Promise.all] has settled, including the frames created meanwhile
    by islands that a promotion connects.  [run] folds a list of tasks.
    [boot] is the script's top level (lines 134-138).

    The checkpoint's fuel, [checkpoint_fuel], is one more than the
    number of frames plus the number of nodes inside template contents:
    every resume consumes a frame, and every frame created during the
    checkpoint belongs to an island that was inside a template content
    and is connected once, when that content is inserted. *)

From S2P Require Import Prelude Dom Platform Conditions Island.
Import Dom Platform Conditions Island.

Module EventLoop.

Local Set Warnings "-clear-no-such-hyp".

Inductive event :=
| Connect (el : nat)
| DOMContentLoaded
| LoadEvent
| IdlePeriod
| Intersection (el : nat) (entries : bool * list bool)
| MediaChange (env : string → bool).

(** [load]: [readyState] becomes ["complete"], then the listeners
    registered with [{ once: true }] run once and are removed. *)
Definition fire_load (w : world) : world :=
  match w_ready w with
  | Complete => w
  | _ => fold_left (λ w p, on_load p w) (w_load w) (set_load [] (set_ready Complete w))
  end.

Definition fire_dom_content_loaded (w : world) : world :=
  match w_ready w with Loading => set_ready Interactive w | _ => w end.

(** An idle period runs the oldest pending idle callback. *)
Definition fire_idle (w : world) : world :=
  match w_idle w with
  | [] => w
  | p :: rest => on_idle p (set_idle rest w)
  end.

(** An intersection notification for [el] is delivered to every
    observer that still observes [el], in creation order. *)
Definition notify_observer (el : nat) (entries : bool * list bool) (w : world) (i : nat) : world :=
  match w_observers w !! i with
  | Some ob => if ob_observing ob && bool_decide (ob_target ob = el)
               then on_intersection i entries w else w
  | None => w
  end.

Definition fire_intersection (el : nat) (entries : bool * list bool) (w : world) : world :=
  fold_left (notify_observer el entries) (seq 0 (length (w_observers w))) w.

(** A change of the media environment: every listener whose query
    changes its answer is called with the new answer. *)
Definition fire_media_change (env : string → bool) (w : world) : world :=
  let old := w_media w in
  fold_left (λ w ml,
      if bool_decide (old (ml_query ml) = env (ml_query ml)) then w
      else on_media_change (ml_cell ml) (env (ml_query ml)) w)
    (w_mql w) (set_media env w).

(** The browser calls [connectedCallback] of a defined [<mini-island>]
    that is in the document. *)
Definition fire_connect (el : nat) (w : world) : world :=
  match find_node el (w_doc w) with
  | Some n => if is_island n && bool_decide (tagName ∈ w_defined w)
              then connectedCallback el w else w
  | None => w
  end.

Definition dispatch (e : event) (w : world) : world :=
  match e with
  | Connect el => fire_connect el w
  | DOMContentLoaded => fire_dom_content_loaded w
  | LoadEvent => fire_load w
  | IdlePeriod => fire_idle w
  | Intersection el entries => fire_intersection el entries w
  | MediaChange env => fire_media_change env w
  end.

(** ** The microtask checkpoint *)

(** The first frame, in creation order, whose value has settled. *)
Fixpoint take_settled (σ : list bool) (fs : list frame) : option (frame * list frame) :=
  match fs with
  | [] => None
  | f :: fs' =>
      if settled σ (fr_join f) then Some (f, fs')
      else match take_settled σ fs' with
           | Some (g, rest) => Some (g, f :: rest)
           | None => None
           end
  end.

Fixpoint drain (fuel : nat) (w : world) : world :=
  match fuel with
  | 0 => w
  | S k =>
      match take_settled (w_store w) (w_frames w) with
      | Some (f, rest) => drain k (resume f (set_frames rest w))
      | None => w
      end
  end.

Definition checkpoint_fuel (w : world) : nat :=
  S (length (w_frames w) + length (flat_map inner_ids (w_doc w))).

Definition step (e : event) (w : world) : world :=
  let w1 := dispatch e w in drain (checkpoint_fuel w1) w1.

Definition run (es : list event) (w : world) : world := fold_left (λ w e, step e w) es w.

(** ** Registration (lines 134-138) *)

Inductive js_error := NotSupportedError.

(** [customElements.define(name, ...)]: throws when the name is taken;
    otherwise the browser upgrades the elements with that name already
    in the document, in tree order, which calls their
    [connectedCallback]. *)
Definition define (name : string) (w : world) : world + js_error :=
  if bool_decide (name ∈ w_defined w) then inr NotSupportedError
  else
    let w1 := set_defined (w_defined w ++ [name]) w in
    inl (fold_left (λ w n, connectedCallback (node_id n) w)
                   (filter (λ n, is_island n) (flat_map subtree (w_doc w1))) w1).

Definition console_message : string :=
  "Island cannot be initiated because Window.customElements is unavailable.".

(** The script's top level, followed by its microtask checkpoint. *)
Definition boot (w : world) : world + js_error :=
  if has_customElements (w_caps w) then
    match define tagName w with
    | inl w1 => inl (drain (checkpoint_fuel w1) w1)
    | inr e => inr e
    end
  else inl (set_console (w_console w ++ [console_message]) w).

(** ** Lemmas *)

(** What a task does to the world, before the checkpoint: it grows and
    keeps every suspended frame. *)
Definition task_grows (w w' : world) : Prop := grows w w' ∧ w_frames w `prefix_of` w_frames w'.

#[export] Instance task_grows_preorder : PreOrder task_grows.
Proof.
  split; [intros w; split; reflexivity|].
  intros w1 w2 w3 [? ?] [? ?]. split; by etrans.
Qed.

Lemma grows_same_frames w w' : grows w w' → w_frames w' = w_frames w → task_grows w w'.
Proof. intros ? Hf. split; [done|]. by rewrite Hf. Qed.

Ltac task_grows_setter := apply grows_same_frames; [eauto with island | done].

Lemma unobserve_grows i w :
  (∀ ob, w_observers w !! i = Some ob → ob_observing ob = true) → task_grows w (unobserve i w).
Proof.
  intros Hi. apply grows_same_frames; [|done].
  split_and!; [done|apply bools_le_refl|done..|]. unfold unobserve. simpl. split.
  - by rewrite length_alter.
  - intros j ob Hj Hstop. rewrite list_lookup_alter_ne; [done|].
    intros ->. specialize (Hi ob Hj). congruence.
Qed.

(** Every task preserves a preorder that the primitive changes of
    the world preserve: a [hydrate], the setters the tasks use, a
    [resolve] and the [unobserve] of an observing observer. *)
Lemma fire_connect_rel (R : relation world) `{!Reflexive R} :
  (∀ el w, R w (hydrate el w)) → ∀ el w, R w (fire_connect el w).
Proof.
  intros H el w. unfold fire_connect. destruct (find_node el (w_doc w)); [|reflexivity].
  destruct (_ && _); [apply H|reflexivity].
Qed.

Section dispatch_rel.
Context (R : relation world) `{!PreOrder R}.
Hypothesis R_connect : ∀ el w, R w (fire_connect el w).
Hypothesis R_ready : ∀ x w, R w (set_ready x w).
Hypothesis R_load : ∀ w, R w (set_load [] w).
Hypothesis R_idle : ∀ w p rest, w_idle w = p :: rest → R w (set_idle rest w).
Hypothesis R_unobserve : ∀ i w ob, w_observers w !! i = Some ob → ob_observing ob = true → R w (unobserve i w).
Hypothesis R_resolve : ∀ p w, R w (resolve p w).
Hypothesis R_media : ∀ x w, R w (set_media x w).

(** The tasks other than a connection need no hypothesis on [hydrate]. *)
Lemma dispatch_rel_task e w : (∀ el, e ≠ Connect el) → R w (dispatch e w).
Proof.
  intros He. destruct e as [el| | | |el [b rest]|env]; simpl.
  - by destruct (He el).
  - unfold fire_dom_content_loaded. destruct (w_ready w); [apply R_ready|reflexivity..].
  - unfold fire_load. destruct (w_ready w); try reflexivity;
      (etrans; [etrans; [apply (R_ready Complete w)|apply R_load]|];
       apply fold_left_rel; [done|]; intros w' p _; apply R_resolve).
  - unfold fire_idle. destruct (w_idle w) as [|p rest] eqn:E; [reflexivity|].
    etrans; [apply (R_idle w p rest E)|apply R_resolve].
  - unfold fire_intersection. apply fold_left_rel; [done|]. intros w' i _.
    unfold notify_observer. destruct (w_observers w' !! i) as [ob|] eqn:Hob; [|reflexivity].
    destruct (ob_observing ob) eqn:Hobs; simpl; [|reflexivity].
    case_bool_decide; [|reflexivity]. unfold on_intersection. rewrite Hob. simpl.
    destruct b; try reflexivity;
      first [etrans; [apply (R_unobserve i w' ob Hob Hobs)|apply R_resolve] | apply (R_unobserve i w' ob Hob Hobs)].
  - unfold fire_media_change. etrans; [apply R_media|].
    apply fold_left_rel; [done|]. intros w' ml _. case_bool_decide; [reflexivity|].
    unfold on_media_change. case_match; [apply R_resolve|reflexivity].
Qed.

Lemma dispatch_rel e w : R w (dispatch e w).
Proof. destruct e; [apply R_connect|apply dispatch_rel_task; by intros ?..]. Qed.
End dispatch_rel.

Lemma dispatch_grows e w : task_grows w (dispatch e w).
Proof.
  apply (dispatch_rel task_grows).
  - apply (fire_connect_rel task_grows). intros el w0. destruct (hydrate_quiet el w0) as (_&_&_&_&_&Hf&_).
    split; [apply quiet_grows, hydrate_quiet|done].
  - intros; task_grows_setter.
  - intros; task_grows_setter.
  - intros; task_grows_setter.
  - intros i w0 ob Hob Hobs. apply unobserve_grows. intros ob' Hob'. rewrite Hob in Hob'. by injection Hob' as <-.
  - intros; task_grows_setter.
  - intros; task_grows_setter.
Qed.

Lemma take_settled_some σ fs g rest :
  take_settled σ fs = Some (g, rest) →
  settled σ (fr_join g) = true ∧ ∃ pre post, fs = pre ++ g :: post ∧ rest = pre ++ post.
Proof.
  revert rest. induction fs as [|f fs IH]; intros rest; simpl; [done|].
  destruct (settled σ (fr_join f)) eqn:Hf.
  - intros [= <- <-]. split; [done|]. by exists [], fs.
  - destruct (take_settled σ fs) as [[g' rest']|] eqn:Ht; [|done]. intros [= <- <-].
    destruct (IH rest' eq_refl) as [Hg (pre & post & -> & ->)]. split; [done|].
    by exists (f :: pre), post.
Qed.

(** A checkpoint preserves a preorder that [hydrate] and the setters of
    the document, the frames and the hydrated list preserve. *)
Section drain_rel.
Context (R : relation world) `{!PreOrder R}.
Hypothesis R_hydrate : ∀ el w, R w (hydrate el w).
Hypothesis R_doc : ∀ d w, R w (set_doc d w).
Hypothesis R_frames : ∀ fs w, R w (set_frames fs w).
Hypothesis R_hydrated : ∀ l w, R w (set_hydrated l w).

Lemma resume_rel f w : R w (resume f w).
Proof.
  unfold resume. etrans; [|apply R_hydrated]. unfold replaceTemplates. apply fold_left_rel; [done|].
  intros w' t _. unfold replace_one. etrans; [apply R_doc|]. unfold connect_inserted.
  case_bool_decide; [|reflexivity]. apply fold_left_rel; [done|]. intros w'' n _. apply R_hydrate.
Qed.

Lemma drain_rel n w : R w (drain n w).
Proof.
  revert w. induction n as [|n IH]; intros w; simpl; [reflexivity|].
  destruct (take_settled _ _) as [[f rest]|]; [|reflexivity].
  try (etrans; [apply R_frames|]). etrans; [apply resume_rel|apply IH].
Qed.
End drain_rel.

(** The checkpoint takes a settled frame [f], or one that comes before it. *)
Lemma take_settled_settled σ pre f post :
  settled σ (fr_join f) = true →
  ∃ g rest, take_settled σ (pre ++ f :: post) = Some (g, rest) ∧
    ((g = f ∧ rest = pre ++ post) ∨
     ∃ pre1 pre2, pre = pre1 ++ g :: pre2 ∧ rest = pre1 ++ pre2 ++ f :: post).
Proof.
  intros Hf. induction pre as [|h pre IH]; simpl.
  - rewrite Hf. eexists _, _. split; [done|]. by left.
  - destruct (settled σ (fr_join h)) eqn:Hh.
    + eexists _, _. split; [done|]. right. by exists [], pre.
    + destruct IH as (g & rest & -> & Hcase). eexists _, _. split; [done|].
      destruct Hcase as [[-> ->]|(pre1 & pre2 & -> & ->)]; [by left|].
      right. by exists (h :: pre1), pre2.
Qed.

Lemma drain_grows n w : grows w (drain n w).
Proof.
  revert w. induction n as [|n IH]; intros w; simpl; [reflexivity|].
  destruct (take_settled _ _) as [[f rest]|]; [|reflexivity].
  etrans; [|apply IH]. etrans; [apply set_frames_grows|apply resume_grows].
Qed.

Lemma hydrated_grows w w' el : grows w w' → el ∈ w_hydrated w → el ∈ w_hydrated w'.
Proof. intros (_&_&Hp&_) Hel. by eapply elem_of_prefix. Qed.

(** A settled frame with fewer than [n] frames before it is resumed by
    a checkpoint with fuel [n]: frames are taken in order, the frames a
    promotion creates come after it, and a settled value stays
    settled. *)
Lemma drain_resumes n w pre f post :
  w_frames w = pre ++ f :: post → settled (w_store w) (fr_join f) = true → length pre < n →
  fr_el f ∈ w_hydrated (drain n w).
Proof.
  revert w pre post. induction n as [|n IH]; intros w pre post Hfr Hset Hlen; [lia|].
  simpl. rewrite Hfr.
  destruct (take_settled_settled (w_store w) pre f post Hset) as (g & rest & -> & Hcase).
  destruct Hcase as [[-> ->]|(pre1 & pre2 & -> & ->)].
  - eapply hydrated_grows; [apply drain_grows|].
    destruct (resume_hydrated f (set_frames (pre ++ post) w)) as [l ->].
    apply elem_of_app. right. apply elem_of_app. right. by left.
  - destruct (resume_frames g (set_frames (pre1 ++ pre2 ++ f :: post) w)) as [k Hk].
    cbn [set_frames w_frames] in Hk.
    apply (IH _ (pre1 ++ pre2) (post ++ k)).
    + rewrite Hk, <- !app_assoc. done.
    + eapply settled_mono; [|exact Hset].
      destruct (resume_grows g (set_frames (pre1 ++ pre2 ++ f :: post) w)) as (_&Hs&_). exact Hs.
    + rewrite length_app in *. simpl in Hlen. lia.
Qed.

(** A frame that has settled when a task ends is resumed at that
    task's checkpoint. *)
Lemma step_resumes e w f :
  f ∈ w_frames (dispatch e w) → settled (w_store (dispatch e w)) (fr_join f) = true →
  fr_el f ∈ w_hydrated (step e w).
Proof.
  intros Hf Hs. apply list_elem_of_split in Hf as (pre & post & Hfr).
  unfold step. eapply drain_resumes; [exact Hfr|exact Hs|].
  unfold checkpoint_fuel. rewrite Hfr, length_app. simpl. lia.
Qed.

Lemma step_grows e w : grows w (step e w).
Proof. unfold step. etrans; [apply (proj1 (dispatch_grows e w))|apply drain_grows]. Qed.

Lemma take_settled_none σ fs :
  take_settled σ fs = None → ∀ f, f ∈ fs → settled σ (fr_join f) = false.
Proof.
  induction fs as [|g fs IH]; simpl; intros Ht f Hf; [by apply not_elem_of_nil in Hf|].
  destruct (settled σ (fr_join g)) eqn:Hg; [done|].
  destruct (take_settled σ fs) as [[? ?]|]; [done|].
  apply elem_of_cons in Hf as [->|Hf]; [done|]. by apply IH.
Qed.

(** Each round of the checkpoint consumes one frame and adds no work
    ([resume_work]), so fuel above the pending work reaches the state
    where no settled frame is left. *)
Lemma drain_complete n w :
  pending_work w < n → ∀ f, f ∈ w_frames (drain n w) → settled (w_store (drain n w)) (fr_join f) = false.
Proof.
  revert w. induction n as [|n IH]; intros w Hn; [lia|]. simpl.
  destruct (take_settled (w_store w) (w_frames w)) as [[f rest]|] eqn:Ht; [|by apply take_settled_none].
  apply IH. destruct (take_settled_some _ _ _ _ Ht) as [_ (pre & post & Hfs & ->)].
  assert (pending_work (set_frames (pre ++ post) w) < n).
  { unfold pending_work in *. rewrite Hfs, length_app in Hn. cbn [set_frames w_frames w_doc].
    rewrite length_app. simpl in Hn. lia. }
  pose proof (resume_work f (set_frames (pre ++ post) w)). lia.
Qed.

(** C11: The microtask checkpoint completes within its fuel: after any
    task, no suspended [hydrate] whose [Promise.all] has settled is
    left, those of the islands that promotions connected during the
    checkpoint included. *)
Theorem checkpoint_completes e w f :
  f ∈ w_frames (step e w) → settled (w_store (step e w)) (fr_join f) = false.
Proof. unfold step, checkpoint_fuel. apply drain_complete. unfold pending_work. lia. Qed.

(** A preorder that every task step respects holds along every run. *)
Lemma run_rel (R : relation world) `{!PreOrder R} :
  (∀ e w, R w (step e w)) → ∀ es w, R w (run es w).
Proof. intros Hs es w. unfold run. apply fold_left_rel; [apply _|]. intros w' e _. apply Hs. Qed.

(** C9: An island that declares no condition is hydrated at the microtask
    checkpoint of the task that connects it. *)
Theorem connect_without_conditions_hydrates w el n :
  find_node el (w_doc w) = Some n → is_island n = true → tagName ∈ w_defined w →
  getConditions (node_attrs n) = [] →
  el ∈ w_hydrated (step (Connect el) w).
Proof.
  intros Hn Hi Hd Hc.
  apply (step_resumes (Connect el) w (mk_frame el (WAll []))); [|reflexivity].
  simpl. unfold fire_connect. rewrite Hn, Hi, bool_decide_eq_true_2 by done. simpl.
  unfold connectedCallback, hydrate, element_attrs. rewrite Hn.
  cbn [registry_getConditions conditions_registry]. rewrite Hc. simpl.
  apply elem_of_app. right. by left.
Qed.

Lemma start_conditions_settled_no_capabilities conds el w :
  w_ready w = Complete → has_requestIdleCallback (w_caps w) = false →
  has_IntersectionObserver (w_caps w) = false → has_matchMedia (w_caps w) = false →
  Forall (λ v, settled (w_store (start_conditions conds el w).2) v = true) (start_conditions conds el w).1.
Proof.
  revert w. induction conds as [|[c v] conds IH]; intros w Hr Hric Hio Hmm; simpl; [constructor|].
  cbn [registry_lookup conditions_registry]. unfold map_lookup.
  destruct (condition_of_name c) as [k|]; simpl; [|by apply IH].
  pose proof (evaluator_settled_no_capabilities k v el w Hr Hric Hio Hmm) as Hset.
  pose proof (evaluator_ready k v el w) as Hready.
  destruct (evaluator_ok_all k v el w) as (_&_&_&_&Hcaps&_).
  destruct (evaluator k v el w) as [r w1] eqn:E. simpl in *.
  specialize (IH w1 ltac:(congruence) ltac:(congruence) ltac:(congruence) ltac:(congruence)).
  pose proof (start_conditions_quiet conds el w1) as (_&_&_&_&Hle&_).
  destruct (start_conditions conds el w1) as [ps w2]. simpl in *.
  constructor; [by eapply settled_mono|exact IH].
Qed.

(** C13: Fail-open: without [requestIdleCallback], [IntersectionObserver]
    and [matchMedia], once the document is complete, an island is
    hydrated at the checkpoint of the task that connects it, whatever
    conditions it declares. *)
Theorem connect_without_capabilities_hydrates w el n :
  find_node el (w_doc w) = Some n → is_island n = true → tagName ∈ w_defined w →
  w_ready w = Complete → has_requestIdleCallback (w_caps w) = false →
  has_IntersectionObserver (w_caps w) = false → has_matchMedia (w_caps w) = false →
  el ∈ w_hydrated (step (Connect el) w).
Proof.
  intros Hn Hi Hd Hr Hric Hio Hmm. unfold step. simpl dispatch. unfold fire_connect.
  rewrite Hn, Hi, bool_decide_eq_true_2 by done. cbv [andb]. unfold connectedCallback, hydrate.
  pose proof (start_conditions_settled_no_capabilities
                (registry_getConditions (element_attrs el w)) el w Hr Hric Hio Hmm) as Hs.
  destruct (start_conditions _ el w) as [ps w1]. simpl in Hs.
  eapply (drain_resumes _ _ (w_frames w1) (mk_frame el (WAll ps)) []); [done| |].
  - simpl. apply forallb_forall. intros x Hx. rewrite Forall_forall in Hs. by apply Hs, list_elem_of_In.
  - unfold checkpoint_fuel. simpl. rewrite length_app. simpl. lia.
Qed.

Lemma start_conditions_length conds el w :
  Forall (λ cv, is_Some (map_lookup cv.1)) conds →
  length (start_conditions conds el w).1 = length conds.
Proof.
  revert w. induction conds as [|[c v] conds IH]; intros w HF; [done|].
  apply Forall_cons in HF as [[f Hf] HF]. cbn [start_conditions].
  change (registry_lookup c) with (map_lookup c). simpl in Hf. rewrite Hf.
  destruct (f v el w) as [p w1]. specialize (IH w1 HF).
  destruct (start_conditions conds el w1) as [ps w2]. simpl in *. by rewrite IH.
Qed.

(** C19: [hydrate] awaits exactly one value per declared condition: the
    frame it suspends waits on [Promise.all] of a list as long as
    [getConditions] of the element. *)
Theorem hydrate_awaits_every_condition el w :
  ∃ ps, w_frames (hydrate el w) = w_frames w ++ [mk_frame el (WAll ps)] ∧
        length ps = length (getConditions (element_attrs el w)).
Proof.
  unfold hydrate. change (registry_getConditions (element_attrs el w)) with (getConditions (element_attrs el w)).
  pose proof (start_conditions_frames (getConditions (element_attrs el w)) el w) as Hf.
  pose proof (start_conditions_length (getConditions (element_attrs el w)) el w) as Hl.
  destruct (start_conditions _ el w) as [ps w1]. simpl in *. exists ps. rewrite Hf. split; [done|].
  apply Hl, Forall_forall. intros [c v] Hcv. destruct (getConditions_names _ _ _ Hcv) as [k ->].
  cbn [fst]. rewrite map_lookup_name. by eexists.
Qed.

(** One listener call of a media-query change. *)
Definition media_call (old env : string → bool) (w : world) (ml : media_listener) : world :=
  if bool_decide (old (ml_query ml) = env (ml_query ml)) then w
  else on_media_change (ml_cell ml) (env (ml_query ml)) w.

Lemma media_call_grows old env w ml : grows w (media_call old env w ml).
Proof.
  unfold media_call. case_bool_decide; [reflexivity|].
  unfold on_media_change. destruct (env _); [apply resolve_grows|reflexivity].
Qed.

Lemma fire_media_change_resolves env w ml :
  ml ∈ w_mql w → w_media w (ml_query ml) = false → env (ml_query ml) = true →
  ml_cell ml < length (w_store w) →
  w_store (fire_media_change env w) !! ml_cell ml = Some true.
Proof.
  intros Hml Hold Hnew Hlt. apply list_elem_of_split in Hml as (l1 & l2 & Hsplit).
  unfold fire_media_change. fold (media_call (w_media w) env). rewrite Hsplit, fold_left_app. simpl.
  set (w1 := fold_left (media_call (w_media w) env) l1 (set_media env w)).
  assert (Hg1 : grows w w1).
  { etrans; [apply set_media_grows|]. apply fold_left_rel; [apply _|]. intros; apply media_call_grows. }
  assert (Hres : w_store (media_call (w_media w) env w1 ml) !! ml_cell ml = Some true).
  { unfold media_call. rewrite Hold, Hnew. simpl. apply lookup_set_true.
    destruct Hg1 as (_&[Hlen _]&_). lia. }
  destruct (fold_left_rel grows (media_call (w_media w) env) l2 (media_call (w_media w) env w1 ml))
    as (_&[_ Hle]&_); [intros; apply media_call_grows|].
  by apply Hle.
Qed.

(** C10: An island waiting on [client:media] alone is hydrated at the
    checkpoint of the task in which its query starts to match. *)
Theorem media_change_hydrates w el p q env :
  mk_frame el (WAll [WCell p]) ∈ w_frames w → mk_media_listener q p ∈ w_mql w →
  w_media w q = false → env q = true → p < length (w_store w) →
  el ∈ w_hydrated (step (MediaChange env) w).
Proof.
  intros Hf Hml Hold Hnew Hlt.
  apply (step_resumes (MediaChange env) w (mk_frame el (WAll [WCell p]))).
  - destruct (dispatch_grows (MediaChange env) w) as [_ Hpre]. by eapply elem_of_prefix.
  - cbn [dispatch fr_join settled forallb]. rewrite andb_true_r. apply bool_decide_eq_true.
    apply (fire_media_change_resolves env w (mk_media_listener q p)); done.
Qed.

(** C12: Fire-once: when the first entry of a notification intersects, the
    observer's promise resolves and the observer stops; whatever tasks
    follow, it stays stopped, so its callback never runs again. *)
Theorem visible_fires_once w i ob rest es :
  w_observers w !! i = Some ob → ob_cell ob < length (w_store w) →
  w_store (on_intersection i (true, rest) w) !! ob_cell ob = Some true ∧
  w_observers (run es (on_intersection i (true, rest) w)) !! i =
    Some (mk_observer (ob_target ob) (ob_cell ob) false).
Proof.
  intros Hob Hlt. destruct (on_intersection_fires i rest w ob Hob Hlt) as [H1 H2].
  split; [done|].
  destruct (fold_left_rel grows (λ w e, step e w) es (on_intersection i (true, rest) w))
    as (_&_&_&_&_&[_ Hk]); [intros w' e _; apply step_grows|].
  by apply Hk.
Qed.

Lemma define_ok name w w1 :
  define name w = inl w1 → name ∈ w_defined w1 ∧ w_caps w1 = w_caps w.
Proof.
  unfold define. case_bool_decide as Hin; [done|]. intros [= <-].
  match goal with |- context [fold_left ?g ?l ?a] =>
    destruct (fold_left_rel quiet g l a) as (_&_&Hd&Hc&_) end.
  { intros w' n _. apply hydrate_quiet. }
  rewrite Hd, Hc. simpl. split; [|done]. apply elem_of_app. right. by left.
Qed.

(** C25: Loading the script twice throws: [customElements.define] refuses
    the name [mini-island] the first run registered. *)
Theorem boot_twice_throws w w1 :
  has_customElements (w_caps w) = true → boot w = inl w1 → boot w1 = inr NotSupportedError.
Proof.
  intros Hce Hboot. unfold boot in Hboot. rewrite Hce in Hboot.
  destruct (define tagName w) as [w0|] eqn:Hdef; [|done].
  assert (w1 = drain (checkpoint_fuel w0) w0) as -> by congruence.
  destruct (define_ok _ _ _ Hdef) as [Hin Hcaps].
  destruct (drain_grows (checkpoint_fuel w0) w0) as (Hc&_&_&Hd&_).
  unfold boot. rewrite Hc, Hcaps, Hce. unfold define. rewrite Hd. by rewrite bool_decide_eq_true_2.
Qed.

(** Without [customElements], the script only logs its diagnostic. *)
Lemma boot_without_registry w :
  has_customElements (w_caps w) = false →
  boot w = inl (set_console (w_console w ++ [console_message]) w).
Proof. unfold boot. by intros ->. Qed.

(** ** The state invariant: unique identities and cells that exist *)

(** Tasks, checkpoints and the registration keep the identities of the
    document unique and refer only to cells of the store. *)
Definition world_ok (w : world) : Prop := wf (w_doc w) ∧ refs_ok w.

Definition same_doc (w w' : world) : Prop := w_doc w' = w_doc w.

#[export] Instance same_doc_preorder : PreOrder same_doc.
Proof. split; [by intros w|intros w1 w2 w3 H12 H23; unfold same_doc in *; congruence]. Qed.

(** [unobserve] only clears a flag: what is read from an observer's
    target and cell is unchanged. *)
Lemma unobserve_map {B} (h : observer → B) i w :
  (∀ ob, h (mk_observer (ob_target ob) (ob_cell ob) false) = h ob) →
  map h (w_observers (unobserve i w)) = map h (w_observers w).
Proof.
  intros Hh. unfold unobserve. simpl. generalize (w_observers w). intros l. revert i.
  induction l as [|x l IH]; intros [|i]; simpl; [done..|by rewrite Hh|f_equal; apply IH].
Qed.

Lemma unobserve_cells i w : map ob_cell (w_observers (unobserve i w)) = map ob_cell (w_observers w).
Proof. by apply unobserve_map. Qed.

Lemma unobserve_refs i w : refs_grow w (unobserve i w).
Proof.
  apply refs_grow_same; [done|]. unfold world_cells. rewrite unobserve_cells. unfold unobserve. cbn. set_solver.
Qed.

Lemma world_ok_grow w w' : world_ok w → w_doc w' = w_doc w → refs_grow w w' → world_ok w'.
Proof. intros [Hwf Hrefs] Hd Hg. split; [by rewrite Hd|]. by eapply refs_ok_grow. Qed.

Lemma dispatch_refs e w : refs_grow w (dispatch e w).
Proof.
  apply (dispatch_rel refs_grow).
  - apply (fire_connect_rel refs_grow). intros. apply hydrate_refs.
  - intros. apply set_ready_refs.
  - intros. refs_setter.
  - intros w0 p rest E. apply refs_grow_same; [done|]. unfold world_cells. cbn. rewrite E. set_solver.
  - intros i w0 _ _ _. apply unobserve_refs.
  - intros. apply resolve_refs.
  - intros. apply set_media_refs.
Qed.

Lemma dispatch_doc e w : w_doc (dispatch e w) = w_doc w.
Proof.
  apply (dispatch_rel same_doc); try done.
  apply (fire_connect_rel same_doc). intros el w0. by destruct (hydrate_quiet el w0) as (? & _).
Qed.

Lemma take_frame_refs w pre f post :
  w_frames w = pre ++ f :: post → refs_grow w (set_frames (pre ++ post) w).
Proof.
  intros Hfs. apply refs_grow_same; [done|]. unfold world_cells. cbn. rewrite Hfs, !flat_map_app. simpl. set_solver.
Qed.

(** One round of the checkpoint: take frame [f] off the queue and
    resume it. *)
Lemma resume_taken_ok w pre f post :
  world_ok w → w_frames w = pre ++ f :: post → world_ok (resume f (set_frames (pre ++ post) w)).
Proof.
  intros [Hwf Hrefs] Hfs. split.
  - unfold wf. rewrite resume_doc. eapply sublist_NoDup; [exact Hwf|apply replace_each_ids].
  - eapply refs_ok_grow; [|apply resume_refs]. eapply refs_ok_grow; [exact Hrefs|]. by apply (take_frame_refs w pre f post).
Qed.

Lemma drain_ok n w : world_ok w → world_ok (drain n w).
Proof.
  revert w. induction n as [|n IH]; intros w Hok; simpl; [done|].
  destruct (take_settled (w_store w) (w_frames w)) as [[f rest]|] eqn:Ht; [|done].
  destruct (take_settled_some _ _ _ _ Ht) as [_ (pre & post & Hfs & ->)].
  by apply IH, resume_taken_ok.
Qed.

Lemma dispatch_ok e w : world_ok w → world_ok (dispatch e w).
Proof.
  intros [Hwf Hrefs]. split; [by rewrite dispatch_doc|].
  eapply refs_ok_grow; [exact Hrefs|apply dispatch_refs].
Qed.

Lemma step_ok e w : world_ok w → world_ok (step e w).
Proof. intros Hok. by apply drain_ok, dispatch_ok. Qed.

Lemma define_world_ok name w w1 : world_ok w → define name w = inl w1 → world_ok w1.
Proof.
  intros [Hwf Hrefs]. unfold define. case_bool_decide; [done|]. intros [= <-].
  match goal with |- context [fold_left ?g ?l ?a] =>
    destruct (fold_left_rel quiet g l a) as (Hd&_); [intros w0 n _; apply hydrate_quiet|];
    pose proof (fold_left_rel refs_grow g l a) as Hr end.
  split; [by rewrite Hd|]. eapply refs_ok_grow; [|apply Hr; intros w0 n _; apply hydrate_refs].
  eapply refs_ok_grow; [exact Hrefs|apply set_defined_refs].
Qed.

Lemma boot_ok w w' : world_ok w → boot w = inl w' → world_ok w'.
Proof.
  intros Hok. unfold boot. destruct (has_customElements _).
  - destruct (define tagName w) as [w1|] eqn:Hdef; [|done]. intros Hw.
    assert (w' = drain (checkpoint_fuel w1) w1) as -> by congruence.
    apply drain_ok. by apply (define_world_ok tagName w w1).
  - intros [= <-]. destruct Hok as [Hwf Hrefs]. split; [done|].
    eapply refs_ok_grow; [exact Hrefs|apply set_console_refs].
Qed.

(** ** Only islands of the document are hydrated *)

Lemma drain_islands n w : world_ok w → islands_ok w → islands_ok (drain n w).
Proof.
  revert w. induction n as [|n IH]; intros w Hok Hisl; simpl; [done|].
  destruct (take_settled (w_store w) (w_frames w)) as [[f rest]|] eqn:Ht; [|done].
  destruct (take_settled_some _ _ _ _ Ht) as [_ (pre & post & Hfs & ->)].
  apply IH; [by apply resume_taken_ok|]. destruct Hok as [Hwf _].
  apply resume_islands; [done| |].
  - intros el Hel. apply Hisl. cbn [set_frames w_hydrated w_frames] in Hel. rewrite Hfs.
    destruct Hel as [|Hel]; [by left|right]. rewrite map_app in *. simpl. set_solver.
  - apply Hisl. right. rewrite Hfs, map_app. simpl. set_solver.
Qed.

Definition islands_kept (w w' : world) : Prop := islands_ok w → islands_ok w'.

#[export] Instance islands_kept_preorder : PreOrder islands_kept.
Proof. split; [intros w H; exact H|intros w1 w2 w3 H12 H23 H; by apply H23, H12]. Qed.

Lemma dispatch_islands e w : islands_ok w → islands_ok (dispatch e w).
Proof.
  apply (dispatch_rel islands_kept); try (intros; unfold islands_kept; apply islands_ok_same; reflexivity).
  intros el w0 H. unfold fire_connect. destruct (find_node el (w_doc w0)) as [n|] eqn:Hn; [|done].
  destruct (is_island n) eqn:Hi; simpl; [|done]. case_bool_decide; [|done].
  apply hydrate_islands; [done|]. by exists n.
Qed.

Lemma step_islands e w : world_ok w → islands_ok w → islands_ok (step e w).
Proof. intros Hok Hisl. apply drain_islands; [by apply dispatch_ok|by apply dispatch_islands]. Qed.

Lemma define_islands name w w1 : world_ok w → islands_ok w → define name w = inl w1 → islands_ok w1.
Proof.
  intros [Hwf _] Hisl. unfold define. case_bool_decide; [done|]. intros [= <-].
  apply connect_all_islands; [exact Hisl|]. intros n Hn. cbn [set_defined w_doc] in *.
  apply list_elem_of_filter in Hn as [Hi Hn]. exists n.
  split; [by apply find_node_tree|by apply Is_true_true].
Qed.

Lemma boot_islands w w' : world_ok w → islands_ok w → boot w = inl w' → islands_ok w'.
Proof.
  intros Hok Hisl. unfold boot. destruct (has_customElements _).
  - destruct (define tagName w) as [w1|] eqn:Hdef; [|done]. intros Hw.
    assert (w' = drain (checkpoint_fuel w1) w1) as -> by congruence.
    apply drain_islands; [by apply (define_world_ok tagName w w1)|by apply (define_islands tagName w w1)].
  - intros [= <-]. exact Hisl.
Qed.

End EventLoop.
