(* ===== verification/Reachable.v ===== *)
(** * Reachable: the states a page can reach

    A page starts with no promise, subscription, frame or registered
    element; its document may be any tree whose identities are unique.
    The script's top level ([EventLoop.boot]) runs once, then the event
    loop runs tasks ([EventLoop.step]), each followed by its microtask
    checkpoint.  [reachable] is this transition system as an inductive
    relation, and the invariants below are proved by induction on it:
    identities stay unique and every promise cell the world refers to
    exists ([reachable_world_ok]), and every element hydrated or
    waiting is a [<mini-island>] of the document
    ([reachable_islands]).  Without [customElements] nothing is ever
    hydrated. *)

From S2P Require Import Prelude Dom Platform Conditions Island EventLoop.
Import Dom Platform Conditions Island EventLoop.

Module Reachable.

(** The page before the script runs, with its document, [readyState],
    capabilities and media environment. *)
Definition initial_world (doc : list node) (r : ready_state) (c : caps) (media : string → bool) : world :=
  mk_world doc r c media [] [] [] [] [] [] [] [] [].

Inductive reachable : world → Prop :=
| reachable_boot doc r c media w :
    wf doc → boot (initial_world doc r c media) = inl w → reachable w
| reachable_step e w :
    reachable w → reachable (step e w).

Lemma initial_world_ok doc r c media : wf doc → world_ok (initial_world doc r c media).
Proof. intros Hwf. split; [done|]. intros p Hp. by apply not_elem_of_nil in Hp. Qed.

Lemma reachable_world_ok w : reachable w → world_ok w.
Proof.
  induction 1 as [doc r c media w Hwf Hboot|e w _ IH].
  - eapply boot_ok; [apply initial_world_ok, Hwf|exact Hboot].
  - by apply step_ok.
Qed.

Lemma reachable_islands w : reachable w → islands_ok w.
Proof.
  intros Hr. induction Hr as [doc r c media w Hwf Hboot|e w Hr IH].
  - eapply boot_islands; [by apply initial_world_ok| |exact Hboot].
    intros el [Hel|Hel]; by apply not_elem_of_nil in Hel.
  - by apply step_islands; [apply reachable_world_ok|].
Qed.

(** ** Without [customElements]

    The script only logs its diagnostic: [mini-island] is never
    defined, so no task connects an island and no frame is ever
    created.  [dormant] is what a task keeps in that situation. *)

Definition dormant (w w' : world) : Prop :=
  tagName ∉ w_defined w →
  w_frames w' = w_frames w ∧ w_hydrated w' = w_hydrated w ∧ w_doc w' = w_doc w ∧
  w_defined w' = w_defined w ∧ w_console w' = w_console w.

#[export] Instance dormant_preorder : PreOrder dormant.
Proof.
  split; [by intros w _|].
  intros w1 w2 w3 H12 H23 Hnd. destruct (H12 Hnd) as (?&?&?&Hd&?).
  rewrite <- Hd in Hnd. destruct (H23 Hnd) as (?&?&?&?&?). split_and!; congruence.
Qed.

Lemma dispatch_dormant e w : dormant w (dispatch e w).
Proof.
  apply (dispatch_rel dormant); try (intros; by intros _).
  intros el w0 Hnd. unfold fire_connect. destruct (find_node el (w_doc w0)); [|done].
  by rewrite (bool_decide_eq_false_2 _ Hnd), andb_false_r.
Qed.

Lemma run_dormant es w :
  tagName ∉ w_defined w → w_frames w = [] →
  w_frames (run es w) = [] ∧ w_hydrated (run es w) = w_hydrated w ∧ w_doc (run es w) = w_doc w ∧
  w_console (run es w) = w_console w.
Proof.
  unfold run. revert w. induction es as [|e es IH]; intros w Hnd Hfr; simpl; [done|].
  destruct (dispatch_dormant e w Hnd) as (Hf & Hh & Hd & Hdef & Hc).
  assert (Hstep : step e w = dispatch e w).
  { unfold step. destruct (checkpoint_fuel _); simpl; [done|]. by rewrite Hf, Hfr. }
  rewrite Hstep. rewrite <- Hdef in Hnd. rewrite <- Hf in Hfr.
  destruct (IH (dispatch e w) Hnd Hfr) as (? & -> & -> & ->). split_and!; congruence.
Qed.

(** C24: Without [window.customElements] the page stays as the server
    sent it, whatever tasks follow: the diagnostic is logged once, the
    document keeps its dormant templates and no island is hydrated. *)
Theorem no_registry_stays_dormant doc r c media w es :
  has_customElements c = false → boot (initial_world doc r c media) = inl w →
  w_console (run es w) = [console_message] ∧ w_doc (run es w) = doc ∧
  w_hydrated (run es w) = [] ∧ w_frames (run es w) = [].
Proof.
  intros Hc Hboot. rewrite boot_without_registry in Hboot by done. injection Hboot as <-.
  destruct (run_dormant es (set_console [console_message] (initial_world doc r c media)))
    as (? & ? & ? & ?); [by apply not_elem_of_nil|done|]. by split_and!.
Qed.

End Reachable.
