(* ===== verification/Causes.v ===== *)
(** * Causes: a hydration happens only after its conditions were met

    The specification's central promise (section 4.2 and the second
    testable property of section 8): an island is promoted only after
    the wait primitive of every declared condition resolved.  This file
    proves it of the whole program, from the script's boot on a page
    through any sequence of tasks, and states for each condition kind
    which event of the run (or which fact of the initial page) caused
    it:
    - [client:idle]: the [load] event (or a page already complete) and
      an idle period (or no [requestIdleCallback]);
    - [client:visible]: an intersection notification for this element
      whose first entry intersects (or no [IntersectionObserver]);
    - [client:media]: a media change, or the initial environment, in
      which the query matches (or no query, or no [matchMedia]).

    Every promise cell of a suspended frame has a [role]: the load
    listener, the idle callback, the observer of an element, or the
    listener of a query.  The invariant [cinv] says, in a run with
    events [es]: every resolved cell of a frame has the cause of its
    role in [es]; the subscriptions that can still resolve a cell give
    it the same role as the frame does ([link_ok]); and every hydrated
    island has the causes of all its declared conditions.  The page's
    initial [readyState], capabilities and media environment are the
    [Variable]s of the section. *)

From S2P Require Import Prelude Dom Platform Conditions Island EventLoop Reachable.
Import Dom Platform Conditions Island EventLoop Reachable.

Module Causes.

Local Set Warnings "-clear-no-such-hyp".

(** What a cell of a frame waits for. *)
Inductive role := RLoad | RIdle | RVisible (el : nat) | RMedia (q : string).

#[export] Instance role_eq_dec : EqDecision role.
Proof. solve_decision. Defined.

Lemma condition_of_name_name k : condition_of_name (condition_name k) = Some k.
Proof. by destruct k. Qed.

Section page.
Variable r0 : ready_state.
Variable c0 : caps.
Variable media0 : string → bool.

(** The event of the run, or the fact of the initial page, that lets a
    cell of that role resolve. *)
Definition cause (es : list event) (ρ : role) : Prop :=
  match ρ with
  | RLoad => r0 = Complete ∨ LoadEvent ∈ es
  | RIdle => has_requestIdleCallback c0 = false ∨ IdlePeriod ∈ es
  | RVisible el => ∃ rest, Intersection el (true, rest) ∈ es
  | RMedia q => media0 q = true ∨ ∃ env, MediaChange env ∈ es ∧ env q = true
  end.

(** What a declared condition [(c, v)] of island [el] requires. *)
Definition cond_cause (es : list event) (el : nat) (cv : string * option string) : Prop :=
  match condition_of_name cv.1 with
  | Some Idle => cause es RLoad ∧ cause es RIdle
  | Some Visible => has_IntersectionObserver c0 = false ∨ cause es (RVisible el)
  | Some Media => ∀ q, cv.2 = Some q → q ≠ "" → has_matchMedia c0 = true → cause es (RMedia q)
  | None => True
  end.

(** The roles of the cells of the value an evaluator returned for
    [(c, v)]. *)
Definition comp_roles (el : nat) (cv : string * option string) (comp : waitv) : list (nat * role) :=
  match condition_of_name cv.1, comp with
  | Some Idle, WAll [WCell i; WCell l] => [(i, RIdle); (l, RLoad)]
  | Some Visible, WCell p => [(p, RVisible el)]
  | Some Media, WCell p => match cv.2 with Some q => [(p, RMedia q)] | None => [] end
  | _, _ => []
  end.

(** The value returned for [(c, v)] has the evaluator's shape, a value
    [undefined] was returned for a reason, and every resolved cell has
    its cause. *)
Definition comp_ok (es : list event) (σ : list bool) (el : nat) (cv : string * option string)
    (comp : waitv) : Prop :=
  match condition_of_name cv.1 with
  | Some Idle => ∃ i l, comp = WAll [WCell i; WCell l]
  | Some Visible => (comp = WUndef ∧ has_IntersectionObserver c0 = false) ∨ ∃ p, comp = WCell p
  | Some Media =>
      (comp = WUndef ∧ ∀ q, cv.2 = Some q → q ≠ "" → has_matchMedia c0 = true → cause es (RMedia q)) ∨
      ∃ p q, cv.2 = Some q ∧ comp = WCell p
  | None => True
  end ∧
  ∀ p ρ, (p, ρ) ∈ comp_roles el cv comp → σ !! p = Some true → cause es ρ.

Lemma cause_mono es es' ρ : es ⊆ es' → cause es ρ → cause es' ρ.
Proof.
  intros Hsub. destruct ρ; simpl; [naive_solver..| |].
  - intros [rest Hr]. exists rest. by apply Hsub.
  - intros [?|(env & Henv & ?)]; [by left|right]. exists env. split; [by apply Hsub|done].
Qed.

Lemma comp_ok_mono es es' σ σ' el cv comp :
  es ⊆ es' →
  (∀ p ρ, (p, ρ) ∈ comp_roles el cv comp → σ' !! p = Some true → σ !! p = Some true ∨ cause es' ρ) →
  comp_ok es σ el cv comp → comp_ok es' σ' el cv comp.
Proof.
  intros Hsub Hσ [Hshape Hres]. split.
  - unfold comp_ok in *. destruct (condition_of_name cv.1) as [[| |]|]; try done.
    destruct Hshape as [[-> Hq]|Hp]; [left|by right]. split; [done|].
    intros q Hv Hne Hm. eapply cause_mono; [exact Hsub|]. by apply Hq.
  - intros p ρ Hpρ Hp. destruct (Hσ p ρ Hpρ Hp) as [Hp'|]; [|done].
    eapply cause_mono; [exact Hsub|]. by apply (Hres p ρ).
Qed.

(** A component whose value has settled: the condition's causes hold. *)
Lemma comp_ok_settled es σ el cv comp :
  comp_ok es σ el cv comp → settled σ comp = true → cond_cause es el cv.
Proof.
  intros [Hshape Hres] Hset. rewrite settled_cells in Hset. unfold comp_ok, cond_cause, comp_roles in *.
  destruct (condition_of_name cv.1) as [[| |]|]; try done.
  - destruct Hshape as (i & l & ->). split; [apply (Hres l)|apply (Hres i)];
      first [by right; left | by left | apply Hset; simpl; set_solver].
  - destruct Hshape as [[-> ?]|[p ->]]; [by left|right]. apply (Hres p); [by left|]. apply Hset. by left.
  - destruct Hshape as [[-> Hq]|(p & q & Hv & ->)]; [done|].
    intros q' Hv' _ _. rewrite Hv in Hv', Hres. injection Hv' as <-.
    apply (Hres p); [by left|]. apply Hset. by left.
Qed.

(** ** The invariant *)

(** The declared conditions of island [el], read from the document. *)
Definition conds (el : nat) (w : world) : list (string * option string) :=
  getConditions (element_attrs el w).

Definition frame_roles (w : world) (f : frame) : list (nat * role) :=
  match fr_join f with
  | WAll ps => flat_map (λ x, comp_roles (fr_el f) x.1 x.2) (zip (conds (fr_el f) w) ps)
  | _ => []
  end.

Definition frame_ok (es : list event) (w : world) (f : frame) : Prop :=
  ∃ ps, fr_join f = WAll ps ∧ Forall2 (comp_ok es (w_store w) (fr_el f)) (conds (fr_el f) w) ps.

(** The role each subscription gives the cell it resolves. *)
Definition sub_roles (w : world) : list (nat * role) :=
  map (λ p, (p, RLoad)) (w_load w) ++ map (λ p, (p, RIdle)) (w_idle w) ++
  map (λ ob, (ob_cell ob, RVisible (ob_target ob))) (w_observers w) ++
  map (λ ml, (ml_cell ml, RMedia (ml_query ml))) (w_mql w).

(** The state remembers the run: capabilities never change, and a
    complete document or a matching query has its cause. *)
Definition hist_ok (es : list event) (w : world) : Prop :=
  w_caps w = c0 ∧ (w_ready w = Complete → cause es RLoad) ∧
  ∀ q, w_media w q = true → cause es (RMedia q).

(** The roles the suspended frames give their cells. *)
Definition all_roles (w : world) : list (nat * role) := flat_map (frame_roles w) (w_frames w).

Definition link_ok (w : world) : Prop :=
  ∀ p ρ ρ', (p, ρ) ∈ flat_map (frame_roles w) (w_frames w) → (p, ρ') ∈ sub_roles w → ρ = ρ'.

Definition hyd_ok (es : list event) (w : world) : Prop :=
  ∀ el cv, el ∈ w_hydrated w → cv ∈ conds el w → cond_cause es el cv.

Definition cinv (es : list event) (w : world) : Prop :=
  world_ok w ∧ islands_ok w ∧ hist_ok es w ∧ link_ok w ∧
  (∀ f, f ∈ w_frames w → frame_ok es w f) ∧ hyd_ok es w.

Definition roles_fun (R : list (nat * role)) : Prop :=
  ∀ p ρ ρ', (p, ρ) ∈ R → (p, ρ') ∈ R → ρ = ρ'.

(** What an evaluator does, as far as roles go: it appends cells, its
    new subscriptions give the cells of its value their roles, those
    cells are new, and its value is [comp_ok]. *)
Definition eval_post (es : list event) (el : nat) (cv : string * option string)
    (w : world) (comp : waitv) (w' : world) : Prop :=
  (∃ extra, w_store w' = w_store w ++ extra) ∧
  (∀ x, x ∈ sub_roles w' → x ∈ sub_roles w ∨ x ∈ comp_roles el cv comp) ∧
  (∀ p ρ, (p, ρ) ∈ comp_roles el cv comp → length (w_store w) ≤ p < length (w_store w')) ∧
  roles_fun (comp_roles el cv comp) ∧
  comp_ok es (w_store w') el cv comp ∧
  w_ready w' = w_ready w ∧ w_media w' = w_media w.

(** The conjuncts of [eval_post] that follow from the shape of the
    store and of the new subscriptions; the causes of the cells
    resolved at creation are left. *)
Ltac eval_post_tac :=
  split_and!;
   [ eexists; rewrite <- ?app_assoc; first [reflexivity | symmetry; apply app_nil_r]
   | intros x Hx; unfold sub_roles in *; cbn in Hx; rewrite ?map_app in Hx; set_solver
   | intros p ρ Hpρ; set_unfold in Hpρ; destruct_or? Hpρ; simplify_eq; rewrite ?length_app; simpl; lia
   | intros p ρ ρ' H1 H2; set_unfold in H1; set_unfold in H2; destruct_or? H1; destruct_or? H2; simplify_eq;
       first [done | rewrite ?length_app in *; simpl in *; lia]
   | idtac ..
   | done | done ].

Lemma waitForIdle_post es v el w :
  hist_ok es w → eval_post es el (condition_name Idle, v) w (waitForIdle v el w).1 (waitForIdle v el w).2.
Proof.
  intros (Hc & Hr & _). unfold eval_post, comp_ok, comp_roles. cbn [fst snd]. rewrite condition_of_name_name.
  unfold waitForIdle, new_promise, resolve.
  destruct (bool_decide _) eqn:Hready; destruct (has_requestIdleCallback _) eqn:Hric; simpl;
    rewrite ?insert_snoc_true; eval_post_tac.
  all: first [by eauto | intros p ρ Hpρ Hp; set_unfold in Hpρ; destruct_or! Hpρ; simplify_eq].
  all: cbn in Hready, Hric; rewrite ?lookup_snoc_new in Hp;
    rewrite ?lookup_snoc_old in Hp by (rewrite ?length_app; simpl; lia); rewrite ?lookup_snoc_new in Hp;
    try discriminate.
  all: first [left; by rewrite <- Hc | apply Hr; apply bool_decide_eq_false in Hready; by apply dec_stable].
Qed.

Lemma waitForVisible_post es v el w :
  hist_ok es w → eval_post es el (condition_name Visible, v) w (waitForVisible v el w).1 (waitForVisible v el w).2.
Proof.
  intros (Hc & _ & _). unfold eval_post, comp_ok, comp_roles. cbn [fst snd]. rewrite condition_of_name_name.
  unfold waitForVisible, new_promise. destruct (has_IntersectionObserver _) eqn:Hio; simpl; eval_post_tac.
  all: first [by eauto | by left; rewrite <- Hc | set_solver
             | intros p ρ Hpρ Hp; apply list_elem_of_singleton in Hpρ; injection Hpρ as -> ->;
               rewrite lookup_snoc_new in Hp; discriminate ].
Qed.

Lemma waitForMedia_post es v el w :
  hist_ok es w → eval_post es el (condition_name Media, v) w (waitForMedia v el w).1 (waitForMedia v el w).2.
Proof.
  intros (Hc & _ & Hm). unfold eval_post, comp_ok, comp_roles. cbn [fst snd]. rewrite condition_of_name_name.
  unfold waitForMedia, new_promise. destruct (media_query_list v w) as [q|] eqn:Hq.
  - assert (v = Some q) as -> by (destruct v; [|done]; simpl in Hq; by destruct (_ && _); simplify_eq).
    destruct (w_media w q) eqn:Hwq; simpl; eval_post_tac.
    + left. split; [done|]. intros q' [= <-] _ _. by apply Hm.
    + set_solver.
    + right. by exists (length (w_store w)), q.
    + intros p ρ Hpρ Hp. apply list_elem_of_singleton in Hpρ. injection Hpρ as -> ->.
      rewrite lookup_snoc_new in Hp. discriminate.
  - simpl. eval_post_tac; [|set_solver]. left. split; [done|]. intros q -> Hne Hmm.
    unfold media_query_list in Hq. simpl in Hq. rewrite Hc, Hmm, andb_true_r in Hq.
    by rewrite bool_decide_eq_true_2 in Hq.
Qed.

Lemma evaluator_post es k v el w :
  hist_ok es w → eval_post es el (condition_name k, v) w (evaluator k v el w).1 (evaluator k v el w).2.
Proof. destruct k; [apply waitForIdle_post|apply waitForVisible_post|apply waitForMedia_post]. Qed.

Lemma hist_ok_eval es k v el w : hist_ok es w → hist_ok es (evaluator k v el w).2.
Proof.
  intros Hh. destruct (evaluator_post es k v el w Hh) as (_&_&_&_&_&Hr&Hm).
  destruct (evaluator_ok_all k v el w) as (_&_&_&_&Hc&_). unfold hist_ok in *.
  by rewrite Hr, Hm, Hc.
Qed.

(** The roles of the values of the evaluators [hydrate] starts. *)
Definition conds_roles (el : nat) (conds : list (string * option string)) (ps : list waitv) : list (nat * role) :=
  flat_map (λ x, comp_roles el x.1 x.2) (zip conds ps).

Lemma start_conditions_post es conds el w :
  hist_ok es w → Forall (λ cv, ∃ k, cv.1 = condition_name k) conds →
  let ps := (start_conditions conds el w).1 in
  let w1 := (start_conditions conds el w).2 in
  (∃ extra, w_store w1 = w_store w ++ extra) ∧
  (∀ x, x ∈ sub_roles w1 → x ∈ sub_roles w ∨ x ∈ conds_roles el conds ps) ∧
  (∀ p ρ, (p, ρ) ∈ conds_roles el conds ps → length (w_store w) ≤ p < length (w_store w1)) ∧
  roles_fun (conds_roles el conds ps) ∧
  Forall2 (comp_ok es (w_store w1) el) conds ps ∧
  hist_ok es w1.
Proof.
  revert w. induction conds as [|[c v] conds IH]; intros w Hh Hk; simpl.
  { split_and!; [exists []; by rewrite app_nil_r|by left|set_solver|intros ???; set_solver|done|done]. }
  apply Forall_cons in Hk as [[k Hck] Hk]. simpl in Hck. subst c.
  change (registry_lookup (condition_name k)) with (map_lookup (condition_name k)).
  rewrite map_lookup_name.
  pose proof (evaluator_post es k v el w Hh) as (Hst1 & Hsub1 & Hb1 & Hf1 & Hc1 & _).
  pose proof (hist_ok_eval es k v el w Hh) as Hh1.
  destruct (evaluator k v el w) as [comp w1]. simpl in *.
  destruct (IH w1 Hh1 Hk) as (Hst2 & Hsub2 & Hb2 & Hf2 & Hc2 & Hh2).
  destruct (start_conditions conds el w1) as [ps w2]. simpl in *.
  destruct Hst1 as [e1 He1]. destruct Hst2 as [e2 He2].
  assert (Hlen : length (w_store w1) ≤ length (w_store w2)) by (rewrite He2, length_app; lia).
  assert (Hlen1 : length (w_store w) ≤ length (w_store w1)) by (rewrite He1, length_app; lia).
  unfold conds_roles in *. cbn [zip flat_map fst snd].
  split_and!; [exists (e1 ++ e2); by rewrite He2, He1, app_assoc| | | |constructor; [|exact Hc2]|done].
  - intros x Hx. destruct (Hsub2 x Hx) as [Hx1|]; [|set_solver]. destruct (Hsub1 x Hx1); set_solver.
  - intros p ρ Hpρ. apply elem_of_app in Hpρ as [Hpρ|Hpρ]; [specialize (Hb1 p ρ Hpρ); lia|].
    specialize (Hb2 p ρ Hpρ). lia.
  - intros p ρ ρ' H1 H2. apply elem_of_app in H1 as [H1|H1], H2 as [H2|H2];
      [by eapply Hf1|..|by eapply Hf2]; [specialize (Hb1 _ _ H1); specialize (Hb2 _ _ H2)
                                       |specialize (Hb2 _ _ H1); specialize (Hb1 _ _ H2)]; lia.
  - eapply comp_ok_mono; [done| |exact Hc1]. intros p ρ Hpρ Hp. left.
    specialize (Hb1 p ρ Hpρ). rewrite He2, lookup_app_l in Hp; [done|lia].
Qed.

(** ** Cells, roles and the document *)

Lemma comp_roles_cells el cv comp p ρ : (p, ρ) ∈ comp_roles el cv comp → p ∈ cells comp.
Proof. unfold comp_roles. repeat case_match; simplify_eq; simpl; set_solver. Qed.

Lemma frame_roles_cells w f p ρ : (p, ρ) ∈ frame_roles w f → p ∈ cells (fr_join f).
Proof.
  unfold frame_roles. destruct (fr_join f) as [| |ps]; [set_solver..|]. intros H.
  apply elem_of_flat_map in H as ([cv comp] & Hz & H). apply comp_roles_cells in H.
  apply elem_of_zip_r in Hz. simpl. apply elem_of_flat_map. eauto.
Qed.

Lemma frames_roles_world w p ρ :
  (p, ρ) ∈ flat_map (frame_roles w) (w_frames w) → p ∈ world_cells w.
Proof.
  intros H. apply elem_of_flat_map in H as (f & Hf & H). apply frame_roles_cells in H.
  unfold world_cells. apply elem_of_app. left. apply elem_of_flat_map. eauto.
Qed.

Lemma sub_roles_world w p ρ : (p, ρ) ∈ sub_roles w → p ∈ world_cells w.
Proof. unfold sub_roles, world_cells. rewrite !elem_of_app, !elem_of_map_iff. naive_solver. Qed.

Lemma conds_doc el w w' : w_doc w' = w_doc w → conds el w' = conds el w.
Proof. unfold conds, element_attrs. by intros ->. Qed.

Lemma frame_roles_doc w w' f : w_doc w' = w_doc w → frame_roles w' f = frame_roles w f.
Proof. intros Hd. unfold frame_roles. by rewrite (conds_doc _ w w'). Qed.

(** The roles of the components of a frame are roles of the frame. *)
Lemma frame_roles_comp w f ps cv comp p ρ :
  fr_join f = WAll ps → (cv, comp) ∈ zip (conds (fr_el f) w) ps →
  (p, ρ) ∈ comp_roles (fr_el f) cv comp → (p, ρ) ∈ frame_roles w f.
Proof. intros Hj Hz H. unfold frame_roles. rewrite Hj. apply elem_of_flat_map. by exists (cv, comp). Qed.

Lemma cond_cause_mono es es' el cv : es ⊆ es' → cond_cause es el cv → cond_cause es' el cv.
Proof.
  intros Hsub. unfold cond_cause. destruct (condition_of_name cv.1) as [[| |]|]; try done.
  - intros [? ?]. split; by eapply cause_mono.
  - intros [?|?]; [by left|right]. by eapply cause_mono.
  - intros H q Hq Hne Hm. eapply cause_mono; [done|]. by apply H.
Qed.

(** ** Preservation *)

Lemma cinv_mono es es' w : es ⊆ es' → cinv es w → cinv es' w.
Proof.
  intros Hsub (Hok & Hisl & (Hc & Hr & Hm) & Hl & Hf & Hy). split_and!; try done.
  - split_and!; [done|intros; eapply cause_mono; eauto|intros; eapply cause_mono; eauto].
  - intros f Hf'. destruct (Hf f Hf') as (ps & Hj & H2). exists ps. split; [done|].
    eapply Forall2_impl; [exact H2|]. intros cv comp. apply comp_ok_mono; [done|]. by left.
  - intros el cv Hel Hcv. eapply cond_cause_mono; [done|]. by apply Hy.
Qed.

(** A change that keeps the document, the hydrations and the store,
    and only drops frames or subscriptions. *)
Lemma cinv_same es w w' :
  cinv es w → refs_grow w w' → hist_ok es w' → w_doc w' = w_doc w → w_frames w' ⊆ w_frames w →
  w_hydrated w' = w_hydrated w → w_store w' = w_store w → sub_roles w' ⊆ sub_roles w → cinv es w'.
Proof.
  intros (Hok & Hisl & Hh & Hl & Hf & Hy) Hg Hh' Hd Hfr Hhy Hst Hsub.
  assert (Hfm : ∀ x, x ∈ all_roles w' → x ∈ all_roles w).
  { unfold all_roles. intros x. rewrite !elem_of_flat_map. intros (f & Hf' & Hx).
    rewrite (frame_roles_doc w w' f Hd) in Hx. exists f. split; [by apply Hfr|done]. }
  split_and!; try done.
  - destruct Hok as [Hwf Hrefs]. split; [by rewrite Hd|]. by eapply refs_ok_grow.
  - intros el Hel. rewrite Hd. apply Hisl. rewrite <- Hhy. destruct Hel as [?|Hel]; [by left|right].
    rewrite elem_of_map_iff in Hel |- *. destruct Hel as (f & -> & Hf'). exists f. split; [done|by apply Hfr].
  - intros p ρ ρ' H1 H2. by apply (Hl p); [apply Hfm|apply Hsub].
  - intros f Hf'. destruct (Hf f (Hfr f Hf')) as (ps & Hj & H2). exists ps.
    by rewrite (conds_doc _ w w'), Hst.
  - intros el cv Hel Hcv. rewrite Hhy in Hel. rewrite (conds_doc _ w w') in Hcv; [|done]. by apply Hy.
Qed.

(** Resolving a cell whose roles in the frames all have their cause. *)
Lemma cinv_resolve_frames es w p :
  cinv es w → (∀ ρ, (p, ρ) ∈ all_roles w → cause es ρ) → cinv es (resolve p w).
Proof.
  intros (Hok & Hisl & Hh & Hl & Hf & Hy) Hc. split_and!; try done.
  - destruct Hok as [Hwf Hrefs]. split; [done|]. eapply refs_ok_grow; [exact Hrefs|apply resolve_refs].
  - intros f Hf'. destruct (Hf f Hf') as (ps & Hj & H2). exists ps. split; [done|].
    apply (Forall2_zip_impl _ _ _ _ H2). intros cv comp Hz. apply comp_ok_mono; [done|].
    intros p' ρ Hpρ Hp'. destruct (decide (p' = p)) as [->|Hne].
    + right. apply Hc, elem_of_flat_map. exists f. split; [done|]. by eapply frame_roles_comp.
    + left. simpl in Hp'. by rewrite lookup_set_true_ne in Hp' by congruence.
Qed.

(** Resolving a cell that a subscription resolves for its cause. *)
Lemma cinv_resolve es w p ρ' :
  cinv es w → (p, ρ') ∈ sub_roles w → cause es ρ' → cinv es (resolve p w).
Proof.
  intros Hinv Hp Hc. apply cinv_resolve_frames; [done|]. intros ρ Hρ.
  destruct Hinv as (_ & _ & _ & Hl & _). by rewrite (Hl p ρ ρ').
Qed.

(** A frame stays [frame_ok] when cells are appended to the store: its
    resolved cells are old. *)
Lemma frame_ok_extend es w w' f extra :
  world_ok w → f ∈ w_frames w → w_doc w' = w_doc w → w_store w' = w_store w ++ extra →
  frame_ok es w f → frame_ok es w' f.
Proof.
  intros [_ Hrefs] Hf Hd Hst (ps & Hj & H2). exists ps. split; [done|].
  rewrite (conds_doc _ w w' Hd), Hst. apply (Forall2_zip_impl _ _ _ _ H2).
  intros cv comp Hz. apply comp_ok_mono; [done|]. intros p ρ Hpρ Hp. left.
  assert (p < length (w_store w)).
  { apply Hrefs, (frames_roles_world w p ρ), elem_of_flat_map. exists f. split; [done|].
    by eapply frame_roles_comp. }
  by rewrite lookup_app_l in Hp.
Qed.

Lemma getConditions_kinds attrs : Forall (λ cv, ∃ k, cv.1 = condition_name k) (getConditions attrs).
Proof.
  apply Forall_forall. intros [c v] Hcv. destruct (getConditions_names _ _ _ Hcv) as [k ->]. by exists k.
Qed.

Lemma cinv_hydrate es w el : cinv es w → island_in (w_doc w) el → cinv es (hydrate el w).
Proof.
  intros Hinv Hel. pose proof Hinv as ([Hwf Hrefs] & Hisl & Hh & Hl & Hf & Hy).
  assert (Hok' : world_ok (hydrate el w)).
  { split; [by destruct (hydrate_quiet el w) as (-> & _)|]. eapply refs_ok_grow; [exact Hrefs|apply hydrate_refs]. }
  pose proof (hydrate_islands el w Hisl Hel) as Hisl'.
  pose proof (start_conditions_quiet (conds el w) el w) as (Hd1 & Hhy1 & _).
  pose proof (start_conditions_frames (conds el w) el w) as Hfr1.
  pose proof (start_conditions_post es (conds el w) el w Hh (getConditions_kinds _)) as (Hst & Hsub & Hb & Hfun & Hc2 & Hh1).
  unfold hydrate in *. change (registry_getConditions (element_attrs el w)) with (conds el w) in *.
  destruct (start_conditions (conds el w) el w) as [ps w1] eqn:HR. simpl in *.
  destruct Hst as [extra Hst].
  set (F := mk_frame el (WAll ps)) in *.
  assert (HdF : w_doc (set_frames (w_frames w1 ++ [F]) w1) = w_doc w) by done.
  assert (Hold : ∀ p ρ, (p, ρ) ∈ flat_map (frame_roles w) (w_frames w) → p < length (w_store w)).
  { intros p ρ H. by eapply Hrefs, frames_roles_world. }
  assert (Hsubw : ∀ p ρ, (p, ρ) ∈ sub_roles w → p < length (w_store w)).
  { intros p ρ H. by eapply Hrefs, sub_roles_world. }
  split_and!; try done.
  - intros p ρ ρ' H1 H2. cbn [set_frames w_frames] in H1. rewrite Hfr1, flat_map_app in H1.
    rewrite (flat_map_ext _ (frame_roles w)) in H1 by (intros f; by apply frame_roles_doc).
    cbn [flat_map] in H1. rewrite app_nil_r in H1.
    unfold frame_roles at 2 in H1. cbn [fr_join fr_el F] in H1. rewrite (conds_doc _ w) in H1 by done.
    destruct (Hsub (p, ρ') H2) as [H2'|H2'];
      apply elem_of_app in H1 as [H1|H1]; unfold conds_roles in *.
    + by apply (Hl p).
    + specialize (Hsubw _ _ H2'). specialize (Hb _ _ H1). lia.
    + specialize (Hold _ _ H1). specialize (Hb _ _ H2'). lia.
    + by apply (Hfun p).
  - intros f Hf'. cbn [set_frames w_frames] in Hf'. rewrite Hfr1 in Hf'.
    apply elem_of_app in Hf' as [Hf'|Hf'].
    + eapply frame_ok_extend; [by split|done|exact HdF| |by apply Hf]. simpl. exact Hst.
    + apply list_elem_of_singleton in Hf'. subst f. exists ps. split; [done|].
      rewrite (conds_doc _ w) by done. exact Hc2.
  - intros el' cv Hel' Hcv. rewrite (conds_doc _ w) in Hcv by done. apply Hy; [|done].
    cbn [set_frames w_hydrated] in Hel'. by rewrite Hhy1 in Hel'.
Qed.

(** ** The promotions *)

(** [node.replaceWith(node.content)] keeps the attributes of every
    island, hence the declared conditions of every frame and hydrated
    element. *)
Lemma conds_set_doc w t el :
  wf (w_doc w) → island_in (w_doc w) el → conds el (set_doc (replaceWith_content t (w_doc w)) w) = conds el w.
Proof. intros Hwf Hel. unfold conds. by rewrite (element_attrs_replace_each [t] w (set_doc (replaceWith_content t (w_doc w)) w) el Hwf Hel eq_refl). Qed.

Lemma frame_roles_set_doc w t f :
  wf (w_doc w) → island_in (w_doc w) (fr_el f) →
  frame_roles (set_doc (replaceWith_content t (w_doc w)) w) f = frame_roles w f.
Proof. intros Hwf Hel. unfold frame_roles. by rewrite conds_set_doc. Qed.

Lemma frame_island w f : islands_ok w → f ∈ w_frames w → island_in (w_doc w) (fr_el f).
Proof. intros Hisl Hf. apply Hisl. right. apply elem_of_map_iff. by exists f. Qed.

Lemma cinv_set_doc es w t : cinv es w → cinv es (set_doc (replaceWith_content t (w_doc w)) w).
Proof.
  intros (Hok & Hisl & Hh & Hl & Hf & Hy). destruct Hok as [Hwf Hrefs].
  set (w' := set_doc _ w).
  assert (Hc : ∀ el, island_in (w_doc w) el → conds el w' = conds el w) by (intros; by apply conds_set_doc).
  assert (Hfe : ∀ f, f ∈ w_frames w → island_in (w_doc w) (fr_el f)) by (intros; by apply frame_island).
  assert (Hfm : all_roles w' = all_roles w).
  { apply flat_map_ext_in. intros f Hf'. by apply frame_roles_set_doc, Hfe. }
  split_and!; try done.
  - split; [by apply wf_replaceWith_content|]. eapply refs_ok_grow; [exact Hrefs|apply set_doc_refs].
  - intros el Hel. apply island_in_replaceWith; [done|]. by apply Hisl.
  - intros p ρ ρ' H1 H2. change ((p, ρ) ∈ all_roles w') in H1. rewrite Hfm in H1. by apply (Hl p ρ ρ').
  - intros f Hf'. destruct (Hf f Hf') as (ps & Hj & H2). exists ps. by rewrite Hc by auto.
  - intros el cv Hel Hcv. rewrite Hc in Hcv; [by apply Hy|]. apply Hisl. by left.
Qed.

Lemma cinv_wf es w : cinv es w → wf (w_doc w).
Proof. by intros ([? _] & _). Qed.

Lemma cinv_replaceTemplates es ts w : cinv es w → cinv es (replaceTemplates ts w).
Proof. apply replaceTemplates_inv; [apply cinv_wf|intros el w'; apply cinv_hydrate|intros t w'; apply cinv_set_doc]. Qed.

Lemma conds_replaceTemplates ts w el :
  wf (w_doc w) → island_in (w_doc w) el → conds el (replaceTemplates ts w) = conds el w.
Proof. intros Hwf Hel. unfold conds. by rewrite (element_attrs_replace_each ts w _ el Hwf Hel (replaceTemplates_doc ts w)). Qed.

(** ** The microtask checkpoint *)

Lemma cinv_take es w pre f post :
  cinv es w → w_frames w = pre ++ f :: post → cinv es (set_frames (pre ++ post) w).
Proof.
  intros Hinv Hfs. pose proof Hinv as (_ & _ & Hh & _). apply (cinv_same es w); try done.
  - by apply (take_frame_refs w pre f post).
  - simpl. rewrite Hfs. set_solver.
Qed.

Lemma cinv_add_hydrated es w el :
  cinv es w → island_in (w_doc w) el → (∀ cv, cv ∈ conds el w → cond_cause es el cv) →
  cinv es (set_hydrated (w_hydrated w ++ [el]) w).
Proof.
  intros (Hok & Hisl & Hh & Hl & Hf & Hy) Hel Hc. split_and!; try done.
  - intros el' [Hel'|Hel']; [|apply Hisl; by right]. apply elem_of_app in Hel' as [Hel'|Hel']; [apply Hisl; by left|].
    apply list_elem_of_singleton in Hel'. by subst.
  - intros el' cv Hel' Hcv. apply elem_of_app in Hel' as [Hel'|Hel']; [by apply Hy|].
    apply list_elem_of_singleton in Hel'. subst. by apply Hc.
Qed.

(** A frame whose [Promise.all] has settled: every declared condition
    of its island has its cause. *)
Lemma frame_settled_causes es w f :
  frame_ok es w f → settled (w_store w) (fr_join f) = true →
  ∀ cv, cv ∈ conds (fr_el f) w → cond_cause es (fr_el f) cv.
Proof.
  intros (ps & Hj & H2) Hs cv Hcv. rewrite Hj in Hs. simpl in Hs.
  apply list_elem_of_lookup in Hcv as [i Hi].
  destruct (Forall2_lookup_l _ _ _ _ _ H2 Hi) as (comp & Hcomp & Hok).
  apply (comp_ok_settled es (w_store w) _ _ comp Hok).
  apply (proj1 (forallb_forall _ _) Hs). apply list_elem_of_In. by eapply list_elem_of_lookup_2.
Qed.

Lemma cinv_resume_taken es w pre f post :
  cinv es w → w_frames w = pre ++ f :: post → settled (w_store w) (fr_join f) = true →
  cinv es (resume f (set_frames (pre ++ post) w)).
Proof.
  intros Hinv Hfs Hs. pose proof Hinv as ([Hwf _] & Hisl & _ & _ & Hf & _).
  assert (Hin : f ∈ w_frames w) by (rewrite Hfs; set_solver).
  assert (Hel : island_in (w_doc w) (fr_el f)) by (apply Hisl; right; apply elem_of_map_iff; by exists f).
  unfold resume. apply cinv_add_hydrated.
  - by apply cinv_replaceTemplates, (cinv_take es w pre f post).
  - rewrite replaceTemplates_doc. by apply island_in_replace_each.
  - intros cv Hcv. rewrite conds_replaceTemplates in Hcv by done.
    by apply (frame_settled_causes es w f); [apply Hf|..].
Qed.

Lemma cinv_drain es n w : cinv es w → cinv es (drain n w).
Proof.
  revert w. induction n as [|n IH]; intros w Hinv; simpl; [done|].
  destruct (take_settled (w_store w) (w_frames w)) as [[f rest]|] eqn:Ht; [|done].
  destruct (take_settled_some _ _ _ _ Ht) as [Hs (pre & post & Hfs & ->)].
  by apply IH, (cinv_resume_taken es w pre f post).
Qed.

(** ** The tasks *)

Ltac sub_roles_in := unfold sub_roles; rewrite !elem_of_app, !elem_of_map_iff; naive_solver.

Lemma sub_roles_load w p : p ∈ w_load w → (p, RLoad) ∈ sub_roles w.
Proof. sub_roles_in. Qed.
Lemma sub_roles_idle w p : p ∈ w_idle w → (p, RIdle) ∈ sub_roles w.
Proof. sub_roles_in. Qed.
Lemma sub_roles_observer w ob : ob ∈ w_observers w → (ob_cell ob, RVisible (ob_target ob)) ∈ sub_roles w.
Proof. sub_roles_in. Qed.
Lemma sub_roles_mql w ml : ml ∈ w_mql w → (ml_cell ml, RMedia (ml_query ml)) ∈ sub_roles w.
Proof. sub_roles_in. Qed.

Lemma sub_roles_unobserve i w : sub_roles (unobserve i w) = sub_roles w.
Proof. unfold sub_roles. by rewrite (unobserve_map _ i w). Qed.

Lemma cinv_fire_connect es el w : cinv es w → cinv es (fire_connect el w).
Proof.
  intros Hinv. unfold fire_connect. destruct (find_node el (w_doc w)) as [n|] eqn:Hn; [|done].
  destruct (is_island n) eqn:Hi; simpl; [|done]. case_bool_decide; [|done].
  apply cinv_hydrate; [done|]. by exists n.
Qed.

Lemma cinv_fire_dom_content_loaded es w : cinv es w → cinv es (fire_dom_content_loaded w).
Proof.
  intros Hinv. unfold fire_dom_content_loaded. destruct (w_ready w); [|done|done].
  pose proof Hinv as (_ & _ & (Hc & _ & Hm) & _). apply (cinv_same es w); try done.
  apply set_ready_refs.
Qed.

(** [load]: [readyState] becomes complete and the load listeners
    resolve their cells, each of which has the role [RLoad]. *)
Lemma cinv_fire_load es w : LoadEvent ∈ es → cinv es w → cinv es (fire_load w).
Proof.
  intros He Hinv. unfold fire_load. destruct (w_ready w) eqn:Hr; [..|done].
  all: pose proof Hinv as (_ & _ & (Hc & _ & Hm) & Hl & _).
  all: assert (Hinv1 : cinv es (set_load [] (set_ready Complete w)))
         by (apply (cinv_same es w); try done; [refs_setter|split_and!; [done|by right|exact Hm]
                                               |intros x Hx; unfold sub_roles in *; set_solver]).
  all: eapply proj1, (fold_left_inv (λ w', cinv es w' ∧ all_roles w' = all_roles w)); [|done].
  all: intros w' p Hp [Hinv' Hfr]; split; [|exact Hfr].
  all: apply cinv_resolve_frames; [done|]; intros ρ Hρ; rewrite Hfr in Hρ.
  all: rewrite (Hl p ρ RLoad Hρ); [by right|by apply sub_roles_load].
Qed.

(** An idle period runs the oldest idle callback, whose cell has the
    role [RIdle]. *)
Lemma cinv_fire_idle es w : IdlePeriod ∈ es → cinv es w → cinv es (fire_idle w).
Proof.
  intros He Hinv. unfold fire_idle. destruct (w_idle w) as [|p rest] eqn:Hi; [done|].
  pose proof Hinv as (_ & _ & Hh & Hl & _). apply cinv_resolve_frames.
  - apply (cinv_same es w); try done.
    + apply refs_grow_same; [done|]. unfold world_cells. cbn. rewrite Hi. set_solver.
    + intros x Hx. unfold sub_roles in *. rewrite Hi. set_solver.
  - intros ρ Hρ. rewrite (Hl p ρ RIdle Hρ); [by right|]. apply sub_roles_idle. rewrite Hi. by left.
Qed.

Lemma cinv_unobserve es i w : cinv es w → cinv es (unobserve i w).
Proof.
  intros Hinv. pose proof Hinv as (_ & _ & Hh & _). apply (cinv_same es w); try done.
  - apply refs_grow_same; [done|]. unfold world_cells. rewrite unobserve_cells. unfold unobserve. cbn. set_solver.
  - by rewrite sub_roles_unobserve.
Qed.

(** An intersection notification resolves, for each observer of [el]
    still observing, its cell when the first entry intersects. *)
Lemma cinv_fire_intersection es el entries w :
  Intersection el entries ∈ es → cinv es w → cinv es (fire_intersection el entries w).
Proof.
  intros He. unfold fire_intersection. apply (fold_left_inv (cinv es)). intros w' i _ Hinv.
  unfold notify_observer. destruct (w_observers w' !! i) as [ob|] eqn:Hob; [|done].
  destruct (ob_observing ob && _) eqn:Hc; [|done]. apply andb_true_iff in Hc as [_ Ht].
  apply bool_decide_eq_true in Ht. unfold on_intersection. rewrite Hob.
  destruct entries as [[] rest]; simpl; [|done].
  apply (cinv_resolve es _ _ (RVisible el)); [by apply cinv_unobserve| |by exists rest].
  rewrite sub_roles_unobserve, <- Ht. apply sub_roles_observer. by eapply list_elem_of_lookup_2.
Qed.

(** A media change: the environment becomes [env], then each listener
    whose query changed its answer is called, and resolves its cell
    when the query matches. *)
Lemma cinv_fire_media_change es env w :
  MediaChange env ∈ es → cinv es w → cinv es (fire_media_change env w).
Proof.
  intros He Hinv. pose proof Hinv as (_ & _ & (Hc & Hr & _) & _). unfold fire_media_change.
  eapply proj1, (fold_left_inv (λ w', cinv es w' ∧ w_mql w' = w_mql w)); [|split; [|done]].
  - intros w' ml Hml [Hinv' Hq]. case_bool_decide; [done|]. unfold on_media_change.
    destruct (env (ml_query ml)) eqn:Henv; [|done]. split; [|exact Hq].
    apply (cinv_resolve es _ _ (RMedia (ml_query ml))); [done| |right; by exists env].
    apply sub_roles_mql. by rewrite Hq.
  - apply (cinv_same es w); try done; [apply set_media_refs|]. split_and!; [done|done|].
    intros q Hq. right. by exists env.
Qed.

Lemma cinv_dispatch es e w : cinv es w → cinv (es ++ [e]) (dispatch e w).
Proof.
  intros Hinv. apply (cinv_mono es (es ++ [e])) in Hinv; [|set_solver].
  assert (He : e ∈ es ++ [e]) by set_solver.
  destruct e; simpl.
  - by apply cinv_fire_connect.
  - by apply cinv_fire_dom_content_loaded.
  - by apply cinv_fire_load.
  - by apply cinv_fire_idle.
  - by apply cinv_fire_intersection.
  - by apply cinv_fire_media_change.
Qed.

Lemma cinv_step es e w : cinv es w → cinv (es ++ [e]) (step e w).
Proof. intros Hinv. by apply cinv_drain, cinv_dispatch. Qed.

Lemma cinv_run es w : cinv [] w → cinv es (run es w).
Proof.
  intros Hinv. induction es as [|e es IH] using rev_ind; [done|].
  unfold run in *. rewrite fold_left_app. simpl. by apply cinv_step.
Qed.

(** ** The script's boot *)

Lemma cinv_initial doc : wf doc → cinv [] (initial_world doc r0 c0 media0).
Proof.
  intros Hwf. split_and!; [by apply initial_world_ok| | | | |].
  - intros el [Hel|Hel]; by apply not_elem_of_nil in Hel.
  - split_and!; [done|by left|by left].
  - intros p ρ ρ' H1. by apply not_elem_of_nil in H1.
  - intros f Hf. by apply not_elem_of_nil in Hf.
  - intros el cv Hel. by apply not_elem_of_nil in Hel.
Qed.

(** [customElements.define] upgrades the islands of the document. *)
Lemma cinv_define es name w w1 : cinv es w → define name w = inl w1 → cinv es w1.
Proof.
  intros Hinv. unfold define. case_bool_decide; [done|]. intros [= <-].
  pose proof Hinv as ([Hwf _] & _ & Hh & _). apply (connect_all_inv (cinv es)); [intros el w'; apply cinv_hydrate|..].
  - apply (cinv_same es w); try done. apply set_defined_refs.
  - intros n Hn. apply list_elem_of_filter in Hn as [Hi Hn]. exists n.
    split; [by apply find_node_tree|by apply Is_true_true].
Qed.

Lemma cinv_boot doc w : wf doc → boot (initial_world doc r0 c0 media0) = inl w → cinv [] w.
Proof.
  intros Hwf. pose proof (cinv_initial doc Hwf) as Hinv. unfold boot. destruct (has_customElements _).
  - destruct (define tagName _) as [w1|] eqn:Hdef; [|done]. intros Hw.
    assert (w = drain (checkpoint_fuel w1) w1) as -> by congruence. apply cinv_drain. by eapply cinv_define.
  - intros [= <-]. pose proof Hinv as (_ & _ & Hh & _). apply (cinv_same [] (initial_world doc r0 c0 media0)); try done.
    apply set_console_refs.
Qed.

(** Every declared condition of an island hydrated in a run has its
    cause among the run's events or the initial page. *)
Lemma run_hydrated_causes doc w es el cv :
  wf doc → boot (initial_world doc r0 c0 media0) = inl w →
  el ∈ w_hydrated (run es w) → cv ∈ conds el (run es w) → cond_cause es el cv.
Proof.
  intros Hwf Hb. destruct (cinv_run es w (cinv_boot doc w Hwf Hb)) as (_ & _ & _ & _ & _ & Hy). apply Hy.
Qed.

(** C2: An island that declares [client:idle] is hydrated only after
    the [load] event (or on a page that was already complete) and after
    an idle period (or when [requestIdleCallback] does not exist). *)
Theorem idle_hydration_has_causes doc w es el v :
  wf doc → boot (initial_world doc r0 c0 media0) = inl w →
  el ∈ w_hydrated (run es w) → (condition_name Idle, v) ∈ getConditions (element_attrs el (run es w)) →
  (r0 = Complete ∨ LoadEvent ∈ es) ∧ (has_requestIdleCallback c0 = false ∨ IdlePeriod ∈ es).
Proof.
  intros Hwf Hb Hel Hcv. pose proof (run_hydrated_causes doc w es el _ Hwf Hb Hel Hcv) as H.
  unfold cond_cause in H. cbn [fst snd] in H. by rewrite condition_of_name_name in H.
Qed.

(** C7: Where [IntersectionObserver] exists, an island that declares
    [client:visible] is hydrated only after a notification for it whose
    first entry intersects. *)
Theorem visible_hydration_has_cause doc w es el v :
  wf doc → boot (initial_world doc r0 c0 media0) = inl w → has_IntersectionObserver c0 = true →
  el ∈ w_hydrated (run es w) → (condition_name Visible, v) ∈ getConditions (element_attrs el (run es w)) →
  ∃ rest, Intersection el (true, rest) ∈ es.
Proof.
  intros Hwf Hb Hio Hel Hcv. pose proof (run_hydrated_causes doc w es el _ Hwf Hb Hel Hcv) as H.
  unfold cond_cause in H. cbn [fst snd] in H. rewrite condition_of_name_name in H. by destruct H as [H|H]; [congruence|].
Qed.

(** C8: Where [matchMedia] exists, an island that declares
    [client:media] with a non-empty query is hydrated only if the query
    matched when the page started or a media change made it match. *)
Theorem media_hydration_has_cause doc w es el q :
  wf doc → boot (initial_world doc r0 c0 media0) = inl w → has_matchMedia c0 = true → q ≠ "" →
  el ∈ w_hydrated (run es w) → (condition_name Media, Some q) ∈ getConditions (element_attrs el (run es w)) →
  media0 q = true ∨ ∃ env, MediaChange env ∈ es ∧ env q = true.
Proof.
  intros Hwf Hb Hm Hq Hel Hcv. pose proof (run_hydrated_causes doc w es el _ Hwf Hb Hel Hcv) as H.
  unfold cond_cause in H. cbn [fst snd] in H. rewrite condition_of_name_name in H. by apply H.
Qed.

End page.

End Causes.
