(* ===== verification/Once.v ===== *)
(** * Once: an island is hydrated at most once unless it is re-connected

    The specification promises that promotion runs exactly once per
    subtree and is a one-way transition (sections 1 and 4.3); the code
    has no guard against a second [connectedCallback] (the open
    question of section 9; [reconnect_starts_twice] below shows that a
    re-connection of a hydrated island starts a second [hydrate]).
    This file proves that the guard is not needed otherwise: in a run
    from the script's boot whose tasks never connect an element again,
    no island is hydrated twice and no hydrated island waits again.

    The argument: the islands whose [hydrate] has started ([started]:
    hydrated or waiting) are distinct islands of the tree.  The boot
    connects each island of the tree once; a promotion connects only
    the islands of the inserted fragment, which were inside a template
    content until then, hence neither hydrated nor waiting; a round of
    the checkpoint moves an island from the waiting frames to the
    hydrated list.  During that round the resumed island is in neither
    list, and [once_ok X] carries it as [X]. *)

From S2P Require Import Prelude Dom Platform Conditions Island EventLoop Reachable.
Import Dom Platform Conditions Island EventLoop Reachable.

Module Once.

(** The islands whose [hydrate] has started: hydrated, or waiting. *)
Definition started (w : world) : list nat := w_hydrated w ++ map fr_el (w_frames w).

(** No island is started twice, each is an island of the tree, and
    identities are unique; [X] lists the islands being resumed. *)
Definition once_ok (X : list nat) (w : world) : Prop :=
  NoDup (started w ++ X) ∧ (∀ el, el ∈ started w ++ X → island_in (w_doc w) el) ∧ wf (w_doc w).

Lemma once_ok_perm X X' w w' :
  started w' ++ X' ≡ₚ started w ++ X → w_doc w' = w_doc w → once_ok X w → once_ok X' w'.
Proof.
  intros Hp Hd (Hnd & Hin & Hwf). split_and!; [by rewrite Hp| |by rewrite Hd].
  intros el Hel. rewrite Hd. apply Hin. by rewrite <- Hp.
Qed.

Lemma hydrate_started el w : started (hydrate el w) = started w ++ [el].
Proof.
  destruct (hydrate_quiet el w) as (_ & Hh & _). destruct (hydrate_frames el w) as [v Hf].
  unfold started. by rewrite Hh, Hf, map_app, app_assoc.
Qed.

(** The custom element reactions for a list of islands start each of
    them, in order. *)
Lemma started_connect_all l w :
  started (fold_left (λ w n, connectedCallback (node_id n) w) l w) = started w ++ map node_id l.
Proof.
  revert w. induction l as [|n l IH]; intros w; simpl; [by rewrite app_nil_r|].
  unfold connectedCallback at 2. by rewrite IH, hydrate_started, <- app_assoc.
Qed.

Lemma once_hydrate X el w :
  once_ok X w → island_in (w_doc w) el → el ∉ started w ++ X → once_ok X (hydrate el w).
Proof.
  intros (Hnd & Hin & Hwf) Hel Hnot. destruct (hydrate_quiet el w) as (Hd & _).
  unfold once_ok. rewrite hydrate_started, Hd, <- app_assoc. cbn [app].
  split_and!; [|intros el'; rewrite <- Permutation_middle|done].
  - rewrite <- Permutation_middle. by apply NoDup_cons.
  - intros [->|Hel']%elem_of_cons; [done|by apply Hin].
Qed.

(** The custom element reactions for distinct islands that have not
    started. *)
Lemma once_connect_all X l w :
  once_ok X w → NoDup (map node_id l) →
  (∀ n, n ∈ l → island_in (w_doc w) (node_id n) ∧ node_id n ∉ started w ++ X) →
  once_ok X (fold_left (λ w n, connectedCallback (node_id n) w) l w).
Proof.
  revert w. induction l as [|n l IH]; intros w Hok Hnd Hl; simpl; [done|].
  apply NoDup_cons in Hnd as [Hn Hnd]. destruct (Hl n) as [Hi Hnot]; [by left|].
  unfold connectedCallback. destruct (hydrate_quiet (node_id n) w) as (Hd & _).
  apply IH; [by apply once_hydrate|done|].
  intros m Hm. destruct (Hl m) as [Hmi Hmnot]; [by right|]. rewrite Hd, hydrate_started, <- app_assoc. cbn [app].
  split; [done|]. rewrite <- Permutation_middle. intros [Heq|Hm']%elem_of_cons; [|done].
  apply Hn. rewrite <- Heq. apply elem_of_map_iff. by exists m.
Qed.

Lemma once_connect_inserted X ns w :
  once_ok X w → NoDup (map node_id (filter is_island (flat_map subtree ns))) →
  (∀ n, n ∈ filter is_island (flat_map subtree ns) → island_in (w_doc w) (node_id n) ∧ node_id n ∉ started w ++ X) →
  once_ok X (connect_inserted ns w).
Proof. unfold connect_inserted. case_bool_decide; [apply once_connect_all|done]. Qed.

(** [node.replaceWith(node.content)]: the islands it connects were
    inside a template content, so none of them had started. *)
Lemma once_replace_one X w t : once_ok X w → once_ok X (replace_one w t).
Proof.
  intros (Hnd & Hin & Hwf). unfold replace_one. apply once_connect_inserted.
  - split_and!; [done| |by apply wf_replaceWith_content].
    intros el Hel. apply island_in_replaceWith; [done|]. by apply Hin.
  - eapply sublist_NoDup; [apply (wf_content t _ Hwf)|]. apply sublist_map, sublist_filter.
  - intros n Hn. split; [by apply island_in_inserted|]. intros Hs.
    apply (wf_tree_inner (w_doc w) (node_id n) Hwf).
    + destruct (Hin _ Hs) as (m & Hm & _). by eapply find_node_tree_ids.
    + eapply sublist_subseteq; [apply content_of_inner|]. apply list_elem_of_filter in Hn as [_ Hn].
      rewrite tree_ids_flat, elem_of_map_iff. by exists n.
Qed.

Lemma once_replaceTemplates X ts w : once_ok X w → once_ok X (replaceTemplates ts w).
Proof. unfold replaceTemplates. apply (fold_left_inv (once_ok X)). intros w' t _. apply once_replace_one. Qed.

(** One round of the checkpoint moves the resumed island from the
    frames to the hydrated list. *)
Lemma once_resume_taken w pre f post :
  once_ok [] w → w_frames w = pre ++ f :: post → once_ok [] (resume f (set_frames (pre ++ post) w)).
Proof.
  intros Hok Hfs.
  assert (Hok1 : once_ok [fr_el f] (set_frames (pre ++ post) w)).
  { apply (once_ok_perm [] _ w); [|done|done]. unfold started. cbn [set_frames w_frames w_hydrated].
    rewrite Hfs, !map_app, app_nil_r. simpl. solve_Permutation. }
  unfold resume. set (w2 := replaceTemplates _ _).
  apply (once_ok_perm [fr_el f] [] w2); [|done|by apply once_replaceTemplates].
  unfold started. cbn [set_hydrated w_hydrated w_frames]. rewrite app_nil_r. solve_Permutation.
Qed.

Lemma once_drain n w : once_ok [] w → once_ok [] (drain n w).
Proof.
  revert w. induction n as [|n IH]; intros w Hok; simpl; [done|].
  destruct (take_settled (w_store w) (w_frames w)) as [[f rest]|] eqn:Ht; [|done].
  destruct (take_settled_some _ _ _ _ Ht) as [_ (pre & post & Hfs & ->)].
  by apply IH, once_resume_taken.
Qed.

(** A task other than a connection starts no [hydrate] and keeps the
    document. *)
Definition same_started (w w' : world) : Prop := started w' = started w ∧ w_doc w' = w_doc w.

#[export] Instance same_started_preorder : PreOrder same_started.
Proof. split; [by intros w|intros w1 w2 w3 [? ?] [? ?]; split; congruence]. Qed.

Lemma dispatch_same_started e w : (∀ el, e ≠ Connect el) → same_started w (dispatch e w).
Proof. intros He. apply (dispatch_rel_task same_started); by intros. Qed.

Lemma once_step e w : (∀ el, e ≠ Connect el) → once_ok [] w → once_ok [] (step e w).
Proof.
  intros He Hok. apply once_drain. destruct (dispatch_same_started e w He) as [Hs Hd].
  apply (once_ok_perm [] [] w); [by rewrite Hs|done|done].
Qed.

Lemma once_run es w : (∀ el, Connect el ∉ es) → once_ok [] w → once_ok [] (run es w).
Proof.
  intros Hes. unfold run. apply (fold_left_inv (once_ok [])). intros w' e He. apply once_step.
  intros el ->. by apply (Hes el).
Qed.

(** The boot connects every island of the tree once. *)
Lemma once_boot doc r c media w : wf doc → boot (initial_world doc r c media) = inl w → once_ok [] w.
Proof.
  intros Hwf. unfold boot. destruct (has_customElements _).
  - destruct (define tagName _) as [w1|] eqn:Hdef; [|done]. intros Hw.
    assert (w = drain (checkpoint_fuel w1) w1) as -> by congruence. apply once_drain.
    revert Hdef. unfold define. case_bool_decide; [done|]. intros [= <-].
    apply once_connect_all.
    + split_and!; [apply NoDup_nil_2|intros el Hel; by apply not_elem_of_nil in Hel|done].
    + eapply sublist_NoDup; [apply (wf_tree doc Hwf)|]. apply sublist_map, sublist_filter.
    + intros n Hn. apply list_elem_of_filter in Hn as [Hi Hn]. split; [|apply not_elem_of_nil].
      exists n. split; [by apply find_node_tree|by apply Is_true_true].
  - intros [= <-]. split_and!; [apply NoDup_nil_2|intros el Hel; by apply not_elem_of_nil in Hel|done].
Qed.

(** C4: In a run from the script's boot whose tasks never connect an
    element again, every island is hydrated at most once, and an
    island that was hydrated is not waiting again: promotion is
    one-shot. *)
Theorem hydrated_at_most_once doc r c media w es :
  wf doc → boot (initial_world doc r c media) = inl w → (∀ el, Connect el ∉ es) →
  NoDup (w_hydrated (run es w) ++ map fr_el (w_frames (run es w))).
Proof.
  intros Hwf Hb Hes. destruct (once_run es w Hes (once_boot doc r c media w Hwf Hb)) as (Hnd & _).
  by rewrite app_nil_r in Hnd.
Qed.

(** ** A re-connection starts a second hydration *)

(** Every round of the checkpoint keeps the started islands, as a
    multiset, and adds those that promotions connect. *)
Lemma started_sub_replace_one w t : started w ⊆+ started (replace_one w t).
Proof.
  unfold replace_one, connect_inserted. case_bool_decide; [|done].
  rewrite started_connect_all. by apply submseteq_inserts_r.
Qed.

Lemma started_sub_replaceTemplates ts w : started w ⊆+ started (replaceTemplates ts w).
Proof.
  unfold replaceTemplates. apply (fold_left_inv (λ u, started w ⊆+ started u)); [|done].
  intros w' t _ Hw'. etrans; [exact Hw'|apply started_sub_replace_one].
Qed.

Lemma started_sub_resume_taken w pre f post :
  w_frames w = pre ++ f :: post → started w ⊆+ started (resume f (set_frames (pre ++ post) w)).
Proof.
  intros Hfs. unfold resume. set (w1 := set_frames (pre ++ post) w). set (w2 := replaceTemplates _ w1).
  assert (H1 : started w ≡ₚ started w1 ++ [fr_el f]).
  { unfold started, w1. cbn [set_frames w_frames w_hydrated]. rewrite Hfs, !map_app. simpl. solve_Permutation. }
  assert (H2 : started (set_hydrated (w_hydrated w2 ++ [fr_el f]) w2) ≡ₚ started w2 ++ [fr_el f]).
  { unfold started. cbn [set_hydrated w_hydrated w_frames]. solve_Permutation. }
  rewrite H1, H2. apply submseteq_app; [apply started_sub_replaceTemplates|done].
Qed.

Lemma started_sub_drain n w : started w ⊆+ started (drain n w).
Proof.
  revert w. induction n as [|n IH]; intros w; simpl; [done|].
  destruct (take_settled (w_store w) (w_frames w)) as [[f rest]|] eqn:Ht; [|done].
  destruct (take_settled_some _ _ _ _ Ht) as [_ (pre & post & Hfs & ->)].
  etrans; [by apply started_sub_resume_taken|apply IH].
Qed.

Lemma NoDup_started_sub w w' : started w ⊆+ started w' → NoDup (started w') → NoDup (started w).
Proof.
  intros Hs Hnd. destruct (submseteq_Permutation _ _ Hs) as [k Hk].
  rewrite Hk in Hnd. by apply NoDup_app in Hnd as [? _].
Qed.

(** C23: [connectedCallback] has no guard: when an island that was
    already hydrated is connected again (the element was moved), the
    task starts a second [hydrate] for it, and after its checkpoint
    the island is recorded twice, hydrated twice or hydrated and
    waiting.  So the hypothesis of C4 that no element is connected
    again is needed. *)
Theorem reconnect_starts_twice w el :
  island_in (w_doc w) el → tagName ∈ w_defined w → el ∈ w_hydrated w →
  ¬ NoDup (started (step (Connect el) w)).
Proof.
  intros (n & Hf & Hi) Hdef Hh Hnd. unfold step in Hnd.
  apply (NoDup_started_sub (dispatch (Connect el) w)) in Hnd; [|apply started_sub_drain].
  revert Hnd. simpl. unfold fire_connect. rewrite Hf, Hi, bool_decide_eq_true_2 by done. simpl.
  unfold connectedCallback. rewrite hydrate_started. intros Hnd.
  apply NoDup_app in Hnd as (_ & Hdisj & _). apply (Hdisj el); [|by left].
  unfold started. apply elem_of_app. by left.
Qed.

End Once.
