(* ===== verification/Live.v ===== *)
(** * Live: a waiting island is never stranded

    The specification's fail-open promise (sections 4.3 and 6): a
    hydration gate never strands content, except behind a media query
    that never matches.  This file proves it of the whole program: in
    every state reached from the script's boot, every pending promise
    cell of a suspended [hydrate] is still resolvable, by a
    subscription that the event of its role triggers ([live]): the
    [load] listener while the document is not complete, the idle
    callback queue, an intersection observer that still observes the
    island, a media listener whose query does not match yet.  The
    roles are those of [Causes].

    From this invariant, [waiting_island_hydrated] shows that an
    island waiting in a reachable state is hydrated by the [load]
    event, as many idle periods as there are pending idle callbacks,
    an intersection notification for it, and a media environment in
    which every query matches ([wake_events]). *)

From S2P Require Import Prelude Dom Platform Conditions Island EventLoop Reachable Causes.
Import Dom Platform Conditions Island EventLoop Reachable Causes.

Module Live.

Local Set Warnings "-clear-no-such-hyp".

Definition pending (w : world) (p : nat) : Prop := w_store w !! p ≠ Some true.

(** The subscription that resolves a pending cell of that role is
    still there and will fire on the role's event. *)
Definition live (w : world) (p : nat) (ρ : role) : Prop :=
  match ρ with
  | RLoad => p ∈ w_load w ∧ w_ready w ≠ Complete
  | RIdle => p ∈ w_idle w
  | RVisible el => ∃ ob, ob ∈ w_observers w ∧ ob_cell ob = p ∧ ob_target ob = el ∧ ob_observing ob = true
  | RMedia q => ∃ ml, ml ∈ w_mql w ∧ ml_cell ml = p ∧ ml_query ml = q ∧ w_media w q = false
  end.

(** Every cell of a suspended frame has a role in the frame, and
    every role of a pending cell is live. *)
Definition live_ok (w : world) : Prop :=
  ∀ f, f ∈ w_frames w →
    (∀ p, p ∈ cells (fr_join f) → ∃ ρ, (p, ρ) ∈ frame_roles w f) ∧
    (∀ p ρ, (p, ρ) ∈ frame_roles w f → pending w p → live w p ρ).

Definition lv (w : world) : Prop := world_ok w ∧ islands_ok w ∧ live_ok w.

(** A change that keeps every subscription, [readyState] and the media
    environment. *)
Definition subs_le (w w' : world) : Prop :=
  w_load w ⊆ w_load w' ∧ w_idle w `prefix_of` w_idle w' ∧ w_observers w ⊆ w_observers w' ∧
  w_mql w ⊆ w_mql w' ∧ w_ready w' = w_ready w ∧ w_media w' = w_media w.

#[export] Instance subs_le_preorder : PreOrder subs_le.
Proof.
  split; [intros w; split_and!; done|].
  intros w1 w2 w3 (?&?&?&?&?&?) (?&?&?&?&?&?). split_and!; [by etrans..|congruence|congruence].
Qed.

Lemma live_mono w w' p ρ : subs_le w w' → live w p ρ → live w' p ρ.
Proof.
  intros (Hl & Hi & Ho & Hm & Hr & Hme). destruct ρ; simpl.
  - rewrite Hr. intros [? ?]. split; [by apply Hl|done].
  - intros H. by eapply elem_of_prefix.
  - intros (ob & ? & ? & ? & ?). exists ob. split_and!; [by apply Ho|done..].
  - intros (ml & ? & ? & ? & ?). exists ml. split_and!; [by apply Hm|done|done|by rewrite Hme].
Qed.

Lemma pending_le w w' p : w_store w ⊑ w_store w' → pending w' p → pending w p.
Proof. intros [_ Hle] Hp Hw. by apply Hp, Hle. Qed.

Lemma keeps_observers_subseteq obs obs' : keeps_observers obs obs' → obs ⊆ obs'.
Proof.
  intros Hk ob Hob. apply list_elem_of_lookup in Hob as [i Hi]. eapply list_elem_of_lookup_2, Hk, Hi.
Qed.

(** ** What an evaluator does to liveness *)

Definition eval_live (el : nat) (cv : string * option string) (w : world) (comp : waitv) (w' : world) : Prop :=
  subs_le w w' ∧ w_store w ⊑ w_store w' ∧
  (∀ p, p ∈ cells comp → ∃ ρ, (p, ρ) ∈ comp_roles el cv comp) ∧
  (∀ p ρ, (p, ρ) ∈ comp_roles el cv comp → pending w' p → live w' p ρ).

Ltac store_le :=
  repeat first [ apply bools_le_refl | apply bools_le_snoc_r | apply bools_le_set_true_r
               | rewrite insert_snoc_true ].

Ltac eval_live_tac :=
  split_and!;
  [ split_and!; simpl; first [done | set_solver | by apply prefix_app_r]
  | simpl; store_le
  | intros p Hp; cbn in Hp; set_unfold in Hp; destruct_or? Hp; subst p; eexists; first [left | right; left]
  | intros p ρ Hpρ Hpend; cbn in Hpρ; set_unfold in Hpρ; destruct_or? Hpρ; simplify_eq;
    unfold pending in Hpend; simpl in Hpend; rewrite ?insert_snoc_true in Hpend;
    rewrite ?lookup_snoc_new in Hpend; rewrite ?lookup_snoc_old in Hpend by (rewrite ?length_app; simpl; lia);
    rewrite ?lookup_snoc_new in Hpend; try congruence ].

Lemma waitForIdle_live v el w :
  eval_live el (condition_name Idle, v) w (waitForIdle v el w).1 (waitForIdle v el w).2.
Proof.
  unfold eval_live, comp_roles. cbn [fst snd]. rewrite condition_of_name_name.
  unfold waitForIdle, new_promise, resolve.
  destruct (bool_decide _) eqn:Hready; destruct (has_requestIdleCallback _) eqn:Hric; simpl;
    rewrite ?insert_snoc_true; eval_live_tac.
  all: first [ simpl; set_solver | simpl; split; [set_solver|by apply bool_decide_eq_true in Hready] ].
Qed.

Lemma waitForVisible_live v el w :
  eval_live el (condition_name Visible, v) w (waitForVisible v el w).1 (waitForVisible v el w).2.
Proof.
  unfold eval_live, comp_roles. cbn [fst snd]. rewrite condition_of_name_name.
  unfold waitForVisible, new_promise. destruct (has_IntersectionObserver _); simpl; eval_live_tac.
  exists (mk_observer el (length (w_store w)) true). split_and!; [set_solver|done..].
Qed.

Lemma waitForMedia_live v el w :
  eval_live el (condition_name Media, v) w (waitForMedia v el w).1 (waitForMedia v el w).2.
Proof.
  unfold eval_live, comp_roles. cbn [fst snd]. rewrite condition_of_name_name.
  unfold waitForMedia, new_promise. destruct (media_query_list v w) as [q|] eqn:Hq; [|simpl; eval_live_tac].
  assert (v = Some q) as -> by (destruct v; [|done]; simpl in Hq; by destruct (_ && _); simplify_eq).
  destruct (w_media w q) eqn:Hwq; simpl; eval_live_tac.
  exists (mk_media_listener q (length (w_store w))). split_and!; [set_solver|done..].
Qed.

Lemma evaluator_live k v el w :
  eval_live el (condition_name k, v) w (evaluator k v el w).1 (evaluator k v el w).2.
Proof. destruct k; [apply waitForIdle_live|apply waitForVisible_live|apply waitForMedia_live]. Qed.

Lemma start_conditions_live conds el w :
  Forall (λ cv, ∃ k, cv.1 = condition_name k) conds →
  let ps := (start_conditions conds el w).1 in
  let w1 := (start_conditions conds el w).2 in
  subs_le w w1 ∧ w_store w ⊑ w_store w1 ∧
  (∀ p, p ∈ flat_map cells ps → ∃ ρ, (p, ρ) ∈ conds_roles el conds ps) ∧
  (∀ p ρ, (p, ρ) ∈ conds_roles el conds ps → pending w1 p → live w1 p ρ).
Proof.
  revert w. induction conds as [|[c v] conds IH]; intros w Hk; simpl.
  { split_and!; [reflexivity|apply bools_le_refl|intros p Hp; by apply not_elem_of_nil in Hp|set_solver]. }
  apply Forall_cons in Hk as [[k Hck] Hk]. simpl in Hck. subst c.
  change (registry_lookup (condition_name k)) with (map_lookup (condition_name k)).
  rewrite map_lookup_name.
  pose proof (evaluator_live k v el w) as (Hs1 & Hσ1 & Hv1 & Hc1).
  destruct (evaluator k v el w) as [comp w1]. simpl in *.
  destruct (IH w1 Hk) as (Hs2 & Hσ2 & Hv2 & Hc2).
  destruct (start_conditions conds el w1) as [ps w2]. simpl in *.
  unfold conds_roles in *. cbn [zip flat_map fst snd].
  split_and!; [by etrans|by eapply bools_le_trans| |].
  - intros p Hp. apply elem_of_app in Hp as [Hp|Hp].
    + destruct (Hv1 p Hp) as [ρ Hρ]. exists ρ. set_solver.
    + destruct (Hv2 p Hp) as [ρ Hρ]. exists ρ. set_solver.
  - intros p ρ Hpρ Hpend. apply elem_of_app in Hpρ as [Hpρ|Hpρ]; [|by apply Hc2].
    eapply live_mono; [exact Hs2|]. apply Hc1; [done|]. by eapply pending_le.
Qed.

(** ** Through the promotions and the checkpoint *)

Lemma live_hydrate el w : live_ok w → live_ok (hydrate el w).
Proof.
  intros Hl. pose proof (start_conditions_live (conds el w) el w (getConditions_kinds _)) as (Hs & Hσ & Hv & Hc).
  pose proof (start_conditions_quiet (conds el w) el w) as (Hd1 & _).
  pose proof (start_conditions_frames (conds el w) el w) as Hfr1.
  unfold hydrate. change (registry_getConditions (element_attrs el w)) with (conds el w).
  destruct (start_conditions (conds el w) el w) as [ps w1]. simpl in *.
  intros f Hf. rewrite (frame_roles_doc w) by done. cbn [set_frames w_frames] in Hf. rewrite Hfr1 in Hf.
  apply elem_of_app in Hf as [Hf|Hf].
  - destruct (Hl f Hf) as [Hcov Hlive]. split; [done|].
    intros p ρ Hpρ Hpend. eapply live_mono; [exact Hs|]. apply Hlive; [done|]. by eapply pending_le.
  - apply list_elem_of_singleton in Hf. subst f. split; [exact Hv|exact Hc].
Qed.

Lemma live_set_doc w t :
  wf (w_doc w) → islands_ok w → live_ok w → live_ok (set_doc (replaceWith_content t (w_doc w)) w).
Proof. intros Hwf Hisl Hl f Hf. rewrite frame_roles_set_doc; [by apply Hl|done|by apply frame_island]. Qed.

Lemma live_frames w fs : fs ⊆ w_frames w → live_ok w → live_ok (set_frames fs w).
Proof. intros Hfs Hl f Hf. by apply Hl, Hfs. Qed.

Lemma lv_hydrate el w : lv w → island_in (w_doc w) el → lv (hydrate el w).
Proof.
  intros (Hok & Hisl & Hl) Hel. split_and!; [|by apply hydrate_islands|by apply live_hydrate].
  apply (world_ok_grow w); [done|by destruct (hydrate_quiet el w)|apply hydrate_refs].
Qed.

Lemma lv_set_doc t w : lv w → lv (set_doc (replaceWith_content t (w_doc w)) w).
Proof.
  intros ([Hwf Hrefs] & Hisl & Hl). split_and!; [split| | ].
  - by apply wf_replaceWith_content.
  - eapply refs_ok_grow; [exact Hrefs|apply set_doc_refs].
  - intros el Hel. apply island_in_replaceWith; [done|]. by apply Hisl.
  - by apply live_set_doc.
Qed.

Lemma lv_replaceTemplates ts w : lv w → lv (replaceTemplates ts w).
Proof.
  apply replaceTemplates_inv; [by intros ? ([? _] & _)|intros el w'; apply lv_hydrate|intros t w'; apply lv_set_doc].
Qed.

Lemma lv_resume_taken w pre f post :
  lv w → w_frames w = pre ++ f :: post → lv (resume f (set_frames (pre ++ post) w)).
Proof.
  intros (Hok & Hisl & Hl) Hfs.
  assert (Hin : f ∈ w_frames w) by (rewrite Hfs; set_solver).
  assert (Hlv1 : lv (set_frames (pre ++ post) w)).
  { split_and!; [by apply (world_ok_grow w), (take_frame_refs w pre f post)| |].
    - intros el [Hh|Hm]; apply Hisl; [by left|right]. rewrite Hfs, map_app. cbn in Hm. rewrite map_app in Hm.
      simpl. set_solver.
    - apply live_frames; [|done]. rewrite Hfs. set_solver. }
  pose proof (lv_replaceTemplates (getTemplates (fr_el f) (w_doc w)) _ Hlv1) as (Hok2 & Hisl2 & Hl2).
  unfold resume. split_and!; [by apply (world_ok_grow _ _ Hok2), set_hydrated_refs| |exact Hl2].
  intros el [Hh|Hm]; [|by apply Hisl2; right]. cbn [set_hydrated w_hydrated] in Hh.
  apply elem_of_app in Hh as [Hh|Hh]; [by apply Hisl2; left|].
  apply list_elem_of_singleton in Hh. subst el. cbn [set_hydrated w_doc]. rewrite replaceTemplates_doc.
  apply island_in_replace_each; [by destruct Hok|by apply (frame_island w)].
Qed.

Lemma lv_drain n w : lv w → lv (drain n w).
Proof.
  revert w. induction n as [|n IH]; intros w Hlv; simpl; [done|].
  destruct (take_settled (w_store w) (w_frames w)) as [[f rest]|] eqn:Ht; [|done].
  destruct (take_settled_some _ _ _ _ Ht) as [_ (pre & post & Hfs & ->)].
  by apply IH, lv_resume_taken.
Qed.

(** ** The tasks *)

(** A change of the store and the subscriptions only. *)
Lemma live_ok_change w w' :
  w_doc w' = w_doc w → w_frames w' = w_frames w → w_store w ⊑ w_store w' → live_ok w →
  (∀ f p ρ, f ∈ w_frames w → (p, ρ) ∈ frame_roles w f → pending w' p → live w p ρ → live w' p ρ) →
  live_ok w'.
Proof.
  intros Hd Hfr Hσ Hl Hch f Hf. rewrite Hfr in Hf. rewrite (frame_roles_doc w w' f Hd).
  destruct (Hl f Hf) as [Hcov Hlive]. split; [done|].
  intros p ρ Hpρ Hpend. apply (Hch f); [done..|]. apply Hlive; [done|]. by eapply pending_le.
Qed.

Lemma inserts_le L (σ : list bool) : σ ⊑ fold_left (λ σ p, <[p:=true]> σ) L σ.
Proof.
  revert σ. induction L as [|p L IH]; intros σ; simpl; [apply bools_le_refl|].
  etrans; [apply bools_le_set_true|apply IH].
Qed.

Lemma inserts_resolved L (σ : list bool) p :
  p ∈ L → p < length σ → fold_left (λ σ p, <[p:=true]> σ) L σ !! p = Some true.
Proof.
  revert σ. induction L as [|q L IH]; intros σ Hp Hlt; simpl; [by apply not_elem_of_nil in Hp|].
  apply elem_of_cons in Hp as [->|Hp].
  - apply (proj2 (inserts_le L _)). by apply lookup_set_true.
  - apply IH; [done|]. by rewrite length_insert.
Qed.

Lemma fold_on_load L w :
  fold_left (λ w p, on_load p w) L w = set_store (fold_left (λ σ p, <[p:=true]> σ) L (w_store w)) w.
Proof. revert w. induction L as [|p L IH]; intros w; simpl; [by destruct w|]. by rewrite IH. Qed.

Lemma fold_media_call old env l w : ∃ σ, fold_left (media_call old env) l w = set_store σ w.
Proof.
  revert w. induction l as [|ml l IH]; intros w; simpl; [exists (w_store w); by destruct w|].
  destruct (IH (media_call old env w ml)) as [σ ->]. exists σ. unfold media_call.
  case_bool_decide; [done|]. unfold on_media_change. by destruct (env _).
Qed.

(** A fold whose steps keep resolved cells, one of which resolves [p]. *)
Lemma fold_left_resolves {B} (g : world → B → world) (l : list B) x p w :
  (∀ w y, w_store w ⊑ w_store (g w y)) → x ∈ l → p < length (w_store w) →
  (∀ w, p < length (w_store w) → w_store (g w x) !! p = Some true) →
  w_store (fold_left g l w) !! p = Some true.
Proof.
  intros Hg. revert w. induction l as [|y l IH]; intros w Hx Hp Hres; [by apply not_elem_of_nil in Hx|]. simpl.
  apply elem_of_cons in Hx as [->|Hx].
  - apply (fold_left_inv (λ w, w_store w !! p = Some true)); [|by apply Hres].
    intros w' z _ Hz. by apply (proj2 (Hg w' z)).
  - apply IH; [done| |done]. pose proof (proj1 (Hg w y)). lia.
Qed.

Lemma observer_cell_world w i ob : w_observers w !! i = Some ob → ob_cell ob ∈ world_cells w.
Proof.
  intros Hob. unfold world_cells. rewrite !elem_of_app, elem_of_map_iff. right; right; right; left.
  exists ob. split; [done|by eapply list_elem_of_lookup_2].
Qed.

Lemma mql_cell_world w ml : ml ∈ w_mql w → ml_cell ml ∈ world_cells w.
Proof. intros Hml. unfold world_cells. rewrite !elem_of_app, (elem_of_map_iff ml_cell). naive_solver. Qed.

Lemma live_fire_dom_content_loaded w : live_ok w → live_ok (fire_dom_content_loaded w).
Proof.
  intros Hl. unfold fire_dom_content_loaded. destruct (w_ready w) eqn:Hr; [|done|done].
  apply (live_ok_change w); [done|done|apply bools_le_refl|done|].
  intros f p ρ Hf Hpρ Hpend Hlive. destruct ρ; [|exact Hlive..]. destruct Hlive as [? _].
  split; [done|]. simpl. discriminate.
Qed.

(** [load] resolves every cell of role [RLoad]. *)
Lemma live_fire_load w : world_ok w → live_ok w → live_ok (fire_load w).
Proof.
  intros [_ Hrefs] Hl. unfold fire_load.
  destruct (w_ready w) eqn:Hr; [..|done]; rewrite fold_on_load.
  all: apply (live_ok_change w); [done|done|apply inserts_le|done|].
  all: intros f p ρ Hf Hpρ Hpend Hlive; destruct ρ; try exact Hlive.
  all: destruct Hlive as [Hp _]; exfalso; apply Hpend; simpl.
  all: apply inserts_resolved; [done|apply Hrefs; unfold world_cells; set_solver].
Qed.

Lemma live_fire_idle w : world_ok w → live_ok w → live_ok (fire_idle w).
Proof.
  intros [_ Hrefs] Hl. unfold fire_idle. destruct (w_idle w) as [|p rest] eqn:Hi; [done|].
  apply (live_ok_change w); [done|done|apply bools_le_set_true|done|].
  intros f p' ρ Hf Hpρ Hpend Hlive. destruct ρ; try exact Hlive.
  simpl in Hlive |- *. rewrite Hi in Hlive. apply elem_of_cons in Hlive as [->|?]; [|done].
  exfalso. apply Hpend. apply resolve_resolved. apply Hrefs. unfold world_cells. rewrite Hi. set_solver.
Qed.

Lemma notify_lv el entries w i : world_ok w → live_ok w →
  world_ok (notify_observer el entries w i) ∧ live_ok (notify_observer el entries w i).
Proof.
  intros Hok Hl. unfold notify_observer. destruct (w_observers w !! i) as [ob|] eqn:Hob; [|done].
  destruct (_ && _); [|done]. unfold on_intersection. rewrite Hob. destruct (entries.1); [|done].
  split; [apply (world_ok_grow w); [done|done|]; etrans; [apply unobserve_refs|apply resolve_refs]|].
  destruct Hok as [_ Hrefs].
  apply (live_ok_change w); [done|done|apply bools_le_set_true|done|].
  intros f p ρ Hf Hpρ Hpend Hlive. destruct ρ as [| |el'|q]; try exact Hlive.
  destruct Hlive as (ob' & Hob' & Hc & Ht & Ho). apply list_elem_of_lookup in Hob' as [j Hj].
  destruct (decide (j = i)) as [->|Hne].
  - rewrite Hob in Hj. injection Hj as <-. exfalso. apply Hpend. rewrite <- Hc.
    apply resolve_resolved, Hrefs. by eapply observer_cell_world.
  - exists ob'. split_and!; [|done..]. simpl. apply (list_elem_of_lookup_2 _ j).
    rewrite list_lookup_alter_ne; [done|]. by intros ->.
Qed.

(** An intersection notification resolves the cells of the observers
    it stops. *)
Lemma live_fire_intersection el entries w : world_ok w → live_ok w → live_ok (fire_intersection el entries w).
Proof.
  intros Hok Hl. unfold fire_intersection.
  eapply proj2, (fold_left_inv (λ u, world_ok u ∧ live_ok u)); [|done].
  intros u i _ [Hoku Hlu]. by apply notify_lv.
Qed.

(** A media change resolves the cell of a listener whose query starts
    to match, so a pending cell of role [RMedia q] has [q] not
    matching. *)
Lemma dispatch_media_resolves w env ml :
  world_ok w → ml ∈ w_mql w → w_media w (ml_query ml) = false → env (ml_query ml) = true →
  w_store (dispatch (MediaChange env) w) !! ml_cell ml = Some true.
Proof.
  intros [_ Hrefs] Hml Hm He. simpl. unfold fire_media_change. fold (media_call (w_media w) env).
  apply (fold_left_resolves _ _ ml); [|done| |].
  - intros u y. by destruct (media_call_grows (w_media w) env u y) as (_ & ? & _).
  - simpl. by apply Hrefs, mql_cell_world.
  - intros u Hu. unfold media_call, on_media_change. rewrite Hm, He, bool_decide_eq_false_2 by done.
    by apply resolve_resolved.
Qed.

Lemma live_fire_media_change env w : world_ok w → live_ok w → live_ok (fire_media_change env w).
Proof.
  intros Hok Hl. unfold fire_media_change. fold (media_call (w_media w) env).
  destruct (fold_media_call (w_media w) env (w_mql w) (set_media env w)) as [σ Hσ].
  assert (Hg : ∀ u y, w_store u ⊑ w_store (media_call (w_media w) env u y))
    by (intros u y; by destruct (media_call_grows (w_media w) env u y) as (_ & ? & _)).
  apply (live_ok_change w); [by rewrite Hσ|by rewrite Hσ| |done|].
  { apply (fold_left_inv (λ u, w_store w ⊑ w_store u)); [|apply bools_le_refl].
    intros u y _ Hu. by etrans. }
  intros f p ρ Hf Hpρ Hpend Hlive. destruct ρ as [| |el'|q]; try (rewrite Hσ; exact Hlive).
  destruct Hlive as (ml & Hml & Hc & Hq & Hm). rewrite Hσ. exists ml. split_and!; [done..|]. simpl.
  destruct (env q) eqn:He; [|done]. exfalso. apply Hpend. subst p q.
  exact (dispatch_media_resolves w env ml Hok Hml Hm He).
Qed.

Lemma lv_dispatch e w : lv w → lv (dispatch e w).
Proof.
  intros (Hok & Hisl & Hl). split_and!; [by apply dispatch_ok|by apply dispatch_islands|].
  destruct e; simpl.
  - unfold fire_connect. destruct (find_node el (w_doc w)); [|done]. destruct (_ && _); [by apply live_hydrate|done].
  - by apply live_fire_dom_content_loaded.
  - by apply live_fire_load.
  - by apply live_fire_idle.
  - by apply live_fire_intersection.
  - by apply live_fire_media_change.
Qed.

Lemma lv_step e w : lv w → lv (step e w).
Proof. intros Hlv. by apply lv_drain, lv_dispatch. Qed.

Lemma lv_boot w w' : lv w → boot w = inl w' → lv w'.
Proof.
  intros Hlv. unfold boot. destruct (has_customElements _).
  - destruct (define tagName w) as [w1|] eqn:Hdef; [|done]. intros Hw.
    assert (w' = drain (checkpoint_fuel w1) w1) as -> by congruence. apply lv_drain.
    revert Hdef. unfold define. case_bool_decide; [done|]. intros [= <-].
    apply (connect_all_inv lv); [intros el u; apply lv_hydrate|exact Hlv|].
    intros n Hn. apply list_elem_of_filter in Hn as [Hi Hn]. exists n.
    split; [apply find_node_tree; [by destruct Hlv as ([? _] & _)|done]|by apply Is_true_true].
  - intros [= <-]. exact Hlv.
Qed.

Lemma lv_reachable w : reachable w → lv w.
Proof.
  induction 1 as [doc r c media w Hwf Hboot|e w _ IH]; [|by apply lv_step].
  eapply lv_boot; [|exact Hboot]. split_and!; [by apply initial_world_ok| |].
  - intros el [Hel|Hel]; by apply not_elem_of_nil in Hel.
  - intros f Hf. by apply not_elem_of_nil in Hf.
Qed.

Lemma lv_run es w : lv w → lv (run es w).
Proof. unfold run. apply (fold_left_inv lv). intros u e _. apply lv_step. Qed.

(** ** What a run keeps of a waiting island *)

Lemma resolved_grows w w' p : grows w w' → w_store w !! p = Some true → w_store w' !! p = Some true.
Proof. intros (_ & [_ Hle] & _). apply Hle. Qed.

(** A waiting frame stays waiting until it is resumed. *)
Lemma drain_keeps_frame n w f : f ∈ w_frames w → f ∈ w_frames (drain n w) ∨ fr_el f ∈ w_hydrated (drain n w).
Proof.
  revert w. induction n as [|n IH]; intros w Hf; simpl; [by left|].
  destruct (take_settled (w_store w) (w_frames w)) as [[g rest]|] eqn:Ht; [|by left].
  destruct (take_settled_some _ _ _ _ Ht) as [_ (pre & post & Hfs & ->)].
  rewrite Hfs in Hf. apply elem_of_app in Hf as [Hf|[->|Hf]%elem_of_cons].
  - apply IH. eapply elem_of_prefix; [|apply resume_frames]. simpl. set_solver.
  - right. eapply hydrated_grows; [apply drain_grows|].
    destruct (resume_hydrated g (set_frames (pre ++ post) w)) as [l ->]. set_solver.
  - apply IH. eapply elem_of_prefix; [|apply resume_frames]. simpl. set_solver.
Qed.

Lemma run_keeps_frame es w f : f ∈ w_frames w → f ∈ w_frames (run es w) ∨ fr_el f ∈ w_hydrated (run es w).
Proof.
  intros Hf0. unfold run. apply (fold_left_inv (λ u, f ∈ w_frames u ∨ fr_el f ∈ w_hydrated u)); [|by left].
  intros u e _ [Hf|Hh].
  - unfold step. apply drain_keeps_frame. eapply elem_of_prefix; [exact Hf|apply dispatch_grows].
  - right. eapply hydrated_grows; [apply step_grows|exact Hh].
Qed.

Lemma replace_each_app L1 L2 doc : replace_each (L1 ++ L2) doc = replace_each L2 (replace_each L1 doc).
Proof. unfold replace_each. by rewrite fold_left_app. Qed.

(** A checkpoint changes the document by promotions only. *)
Lemma drain_doc n w : ∃ L, w_doc (drain n w) = replace_each L (w_doc w).
Proof.
  revert w. induction n as [|n IH]; intros w; simpl; [by exists []|].
  destruct (take_settled _ _) as [[f rest]|]; [|by exists []].
  match goal with |- context [drain n ?u] => destruct (IH u) as [L ->] end.
  rewrite resume_doc. eexists. by rewrite <- replace_each_app.
Qed.

(** An island of the document stays one through a run, with the
    conditions it declares. *)
Lemma run_island_conds es w el :
  lv w → island_in (w_doc w) el → island_in (w_doc (run es w)) el ∧ conds el (run es w) = conds el w.
Proof.
  intros Hlv Hel. unfold run.
  eapply proj2, (fold_left_inv (λ u, lv u ∧ island_in (w_doc u) el ∧ conds el u = conds el w)); [|done].
  intros u e _ (Hlvu & Hu & Hc). split_and!; [by apply lv_step| |].
  all: destruct Hlvu as ([Hwf _] & _); unfold step.
  all: destruct (drain_doc (checkpoint_fuel (dispatch e u)) (dispatch e u)) as [L HL];
       rewrite dispatch_doc in HL.
  - rewrite HL. by apply island_in_replace_each.
  - rewrite <- Hc. unfold conds. f_equal. apply (element_attrs_replace_each L); [done|done|].
    by rewrite HL.
Qed.

Lemma run_frame_roles es w f :
  lv w → f ∈ w_frames w → frame_roles (run es w) f = frame_roles w f.
Proof.
  intros Hlv Hf. destruct Hlv as (Hok & Hisl & Hl).
  destruct (run_island_conds es w (fr_el f)) as [_ Hc]; [done|by apply frame_island|].
  unfold frame_roles. by rewrite Hc.
Qed.

(** ** Each event resolves the pending cells of its role *)

Lemma resolved_run es w p : w_store w !! p = Some true → w_store (run es w) !! p = Some true.
Proof. apply resolved_grows, (run_rel grows step_grows). Qed.

Lemma hydrate_subs el w : subs_le w (hydrate el w).
Proof.
  pose proof (start_conditions_live (conds el w) el w (getConditions_kinds _)) as (Hs & _).
  unfold hydrate. change (registry_getConditions (element_attrs el w)) with (conds el w).
  destruct (start_conditions (conds el w) el w) as [ps w1]. exact Hs.
Qed.

(** The idle queue: a task other than an idle period and every
    checkpoint only append to it. *)
Definition idle_le (w w' : world) : Prop := w_idle w `prefix_of` w_idle w'.

#[export] Instance idle_le_preorder : PreOrder idle_le.
Proof. unfold idle_le. split; [intros w; reflexivity|intros w1 w2 w3 ? ?; by etrans]. Qed.

Lemma drain_idle n w : idle_le w (drain n w).
Proof.
  apply (drain_rel idle_le); [intros el u; by destruct (hydrate_subs el u) as (_ & ? & _)|..];
    intros; unfold idle_le; reflexivity.
Qed.

Lemma dispatch_idle e w : e ≠ IdlePeriod → idle_le w (dispatch e w).
Proof.
  intros He. destruct e; simpl; [| | |done| |].
  - apply (fire_connect_rel idle_le). intros el' u. by destruct (hydrate_subs el' u) as (_ & ? & _).
  - unfold fire_dom_content_loaded. destruct (w_ready w); unfold idle_le; reflexivity.
  - unfold fire_load. destruct (w_ready w); [..|reflexivity]; rewrite fold_on_load; unfold idle_le; reflexivity.
  - unfold fire_intersection. apply fold_left_rel; [apply _|]. intros u i _.
    unfold notify_observer, on_intersection. repeat case_match; unfold idle_le; reflexivity.
  - unfold fire_media_change. fold (media_call (w_media w) env).
    destruct (fold_media_call (w_media w) env (w_mql w) (set_media env w)) as [σ ->]. unfold idle_le. reflexivity.
Qed.

Lemma dispatch_idle_period w : w_idle (dispatch IdlePeriod w) = tail (w_idle w).
Proof. simpl. unfold fire_idle. destruct (w_idle w) as [|p rest] eqn:E; simpl; [exact E|done]. Qed.

Lemma dispatch_idle_head w p rest :
  world_ok w → w_idle w = p :: rest → w_store (dispatch IdlePeriod w) !! p = Some true.
Proof.
  intros [_ Hrefs] Hi. simpl. unfold fire_idle. rewrite Hi. apply resolve_resolved, Hrefs.
  unfold world_cells. rewrite Hi. set_solver.
Qed.

(** The idle callback at position [i] runs at the [i+1]-th idle period. *)
Lemma idle_steps k u i p :
  lv u → w_idle u !! i = Some p → i < k → w_store (run (repeat IdlePeriod k) u) !! p = Some true.
Proof.
  revert u i. induction k as [|k IH]; intros u i Hlv Hi Hik; [lia|].
  change (run (repeat IdlePeriod (S k)) u) with (run (repeat IdlePeriod k) (step IdlePeriod u)).
  destruct i as [|i].
  - destruct (w_idle u) as [|q rest] eqn:E; [done|]. injection Hi as ->.
    apply resolved_run. unfold step. eapply resolved_grows; [apply drain_grows|].
    apply (dispatch_idle_head u p rest); [by destruct Hlv|done].
  - apply (IH _ i); [by apply lv_step| |lia].
    unfold step. eapply prefix_lookup_Some; [|apply drain_idle]. rewrite dispatch_idle_period.
    destruct (w_idle u) as [|q rest] eqn:E; [done|]. exact Hi.
Qed.

Lemma dispatch_load_resolves w p :
  world_ok w → p ∈ w_load w → w_ready w ≠ Complete → w_store (dispatch LoadEvent w) !! p = Some true.
Proof.
  intros [_ Hrefs] Hp Hr. simpl. unfold fire_load. destruct (w_ready w); [..|done].
  all: rewrite fold_on_load; simpl; apply inserts_resolved; [done|apply Hrefs; unfold world_cells; set_solver].
Qed.

Lemma notify_observers el entries u i j :
  i ≠ j → w_observers (notify_observer el entries u i) !! j = w_observers u !! j.
Proof.
  intros Hij. unfold notify_observer. destruct (w_observers u !! i) as [ob|] eqn:Hob; [|done].
  destruct (_ && _); [|done]. unfold on_intersection. rewrite Hob. destruct (entries.1); [|done].
  simpl. by rewrite list_lookup_alter_ne.
Qed.

Lemma notify_store el entries u i : w_store u ⊑ w_store (notify_observer el entries u i).
Proof.
  unfold notify_observer, on_intersection. repeat case_match; simpl; first [apply bools_le_set_true|apply bools_le_refl].
Qed.

(** A notification for [el] whose first entry intersects resolves the
    cell of every observer of [el] that still observes. *)
Lemma dispatch_intersection_resolves w el rest ob :
  world_ok w → ob ∈ w_observers w → ob_observing ob = true → ob_target ob = el →
  w_store (dispatch (Intersection el (true, rest)) w) !! ob_cell ob = Some true.
Proof.
  intros [_ Hrefs] Hob Ho Ht. apply list_elem_of_lookup in Hob as [j Hj].
  assert (Hlt : ob_cell ob < length (w_store w)) by (by eapply Hrefs, observer_cell_world).
  assert (Hjs : j ∈ seq 0 (length (w_observers w))) by (apply elem_of_seq; apply lookup_lt_Some in Hj; lia).
  pose proof (NoDup_seq 0 (length (w_observers w))) as Hnd.
  simpl. unfold fire_intersection. apply list_elem_of_split in Hjs as (l1 & l2 & Hs).
  rewrite Hs in Hnd |- *. apply NoDup_app in Hnd as (_ & Hdisj & _). rewrite fold_left_app. simpl.
  destruct (fold_left_inv (λ u, w_observers u !! j = Some ob ∧ ob_cell ob < length (w_store u))
              (notify_observer el (true, rest)) l1 w) as [Hju Hltu]; [|done|].
  { intros u i Hi [Hj' Hlt']. split.
    - rewrite notify_observers; [done|]. intros ->. apply (Hdisj j Hi). by left.
    - pose proof (proj1 (notify_store el (true, rest) u i)). lia. }
  set (u0 := fold_left (notify_observer el (true, rest)) l1 w) in *.
  apply (fold_left_inv (λ u, w_store u !! ob_cell ob = Some true)).
  - intros u i _ Hu. by apply (proj2 (notify_store el (true, rest) u i)).
  - unfold notify_observer. rewrite Hju, Ho, Ht, bool_decide_eq_true_2 by done. simpl.
    unfold on_intersection. rewrite Hju. simpl. by apply resolve_resolved.
Qed.

(** A media change in which the query of a listener starts to match
    resolves its cell. *)
Lemma frame_roles_visible w f p el' : (p, RVisible el') ∈ frame_roles w f → el' = fr_el f.
Proof.
  unfold frame_roles. destruct (fr_join f); [set_solver..|]. intros H.
  apply elem_of_flat_map in H as ([cv comp] & _ & H). unfold comp_roles in H. simpl in H.
  repeat case_match; set_unfold in H; destruct_or? H; simplify_eq; done.
Qed.

(** ** A waiting island is hydrated once its events happened *)

(** The tasks that wake island [el] when [n] idle callbacks are
    pending: the [load] event, [n] idle periods, a notification for
    [el] whose first entry intersects, and a change to a media
    environment in which every query matches. *)
Definition wake_events (el n : nat) : list event :=
  LoadEvent :: repeat IdlePeriod n ++ [Intersection el (true, []); MediaChange (λ _, true)].

Lemma run_app es1 es2 w : run (es1 ++ es2) w = run es2 (run es1 w).
Proof. unfold run. by rewrite fold_left_app. Qed.

Lemma wake_events_no_connect el n x : Connect x ∉ wake_events el n.
Proof.
  unfold wake_events. intros Hx. apply elem_of_cons in Hx as [Hx|Hx]; [discriminate|].
  apply elem_of_app in Hx as [Hx|Hx].
  - apply list_elem_of_In, repeat_spec in Hx. discriminate.
  - repeat (apply elem_of_cons in Hx as [Hx|Hx]; [discriminate|]). by apply not_elem_of_nil in Hx.
Qed.

Lemma wake_run el n w :
  run (wake_events el n) w =
  step (MediaChange (λ _, true)) (step (Intersection el (true, [])) (run (repeat IdlePeriod n) (step LoadEvent w))).
Proof. unfold wake_events. rewrite app_comm_cons, run_app. reflexivity. Qed.

(** Each cell of a waiting frame is resolved by the event of its role:
    the role is read in the state where the frame waits, and stays the
    frame's role since the island keeps its attributes. *)
Lemma wake_cell w f p ρ :
  lv w → f ∈ w_frames w → (p, ρ) ∈ frame_roles w f → pending w p →
  let w1 := step LoadEvent w in
  let w2 := run (repeat IdlePeriod (length (w_idle w))) w1 in
  let w3 := step (Intersection (fr_el f) (true, [])) w2 in
  f ∈ w_frames w2 → f ∈ w_frames w3 →
  w_store (dispatch (MediaChange (λ _, true)) w3) !! p = Some true.
Proof.
  intros Hlv Hf Hρ Hpend w1 w2 w3 Hf2 Hf3.
  assert (Hlv1 : lv w1) by (by apply lv_step). assert (Hlv2 : lv w2) by (by apply lv_run).
  assert (Hlv3 : lv w3) by (by apply lv_step).
  assert (Hg3 : grows w3 (dispatch (MediaChange (λ _, true)) w3)) by apply dispatch_grows.
  assert (Hg2 : grows w2 (dispatch (MediaChange (λ _, true)) w3)) by (etrans; [apply step_grows|exact Hg3]).
  assert (Hg1 : grows w1 (dispatch (MediaChange (λ _, true)) w3)) by (etrans; [exact (run_rel grows step_grows (repeat IdlePeriod (length (w_idle w))) w1)|exact Hg2]).
  assert (Hr2 : frame_roles w2 f = frame_roles w f).
  { change w2 with (run (LoadEvent :: repeat IdlePeriod (length (w_idle w))) w). by apply run_frame_roles. }
  assert (Hr3 : frame_roles w3 f = frame_roles w f).
  { replace w3 with (run (LoadEvent :: repeat IdlePeriod (length (w_idle w)) ++ [Intersection (fr_el f) (true, [])]) w)
      by (rewrite app_comm_cons, run_app; reflexivity).
    by apply run_frame_roles. }
  destruct Hlv as (Hok & Hisl & Hl). pose proof (proj2 (Hl f Hf) p ρ Hρ Hpend) as Hlive.
  destruct ρ as [| |el'|q]; simpl in Hlive.
  - destruct Hlive as [Hp Hr]. apply (resolved_grows w1); [exact Hg1|].
    unfold w1, step. eapply resolved_grows; [apply drain_grows|]. by apply dispatch_load_resolves.
  - apply list_elem_of_lookup in Hlive as [i Hi]. apply (resolved_grows w2); [exact Hg2|].
    apply (idle_steps _ _ i); [done| |by eapply lookup_lt_Some].
    unfold w1, step. eapply prefix_lookup_Some; [|apply drain_idle].
    eapply prefix_lookup_Some; [exact Hi|by apply dispatch_idle].
  - pose proof (frame_roles_visible w f p el' Hρ) as ->.
    destruct (decide (w_store w2 !! p = Some true)) as [Hres|Hpend2]; [by apply (resolved_grows w2)|].
    destruct Hlv2 as (Hok2 & _ & Hl2). rewrite <- Hr2 in Hρ.
    destruct (proj2 (Hl2 f Hf2) p _ Hρ Hpend2) as (ob & Hob & Hc & Ht & Ho).
    apply (resolved_grows w3); [exact Hg3|]. unfold w3, step. eapply resolved_grows; [apply drain_grows|].
    subst p. by apply dispatch_intersection_resolves.
  - destruct (decide (w_store w3 !! p = Some true)) as [Hres|Hpend3]; [by apply (resolved_grows w3)|].
    destruct Hlv3 as (Hok3 & _ & Hl3). rewrite <- Hr3 in Hρ.
    destruct (proj2 (Hl3 f Hf3) p _ Hρ Hpend3) as (ml & Hml & Hc & Hq & Hm).
    subst p q. by apply dispatch_media_resolves.
Qed.

(** The wake-up run, from any state of the invariant. *)
Lemma wake_hydrates w f :
  lv w → f ∈ w_frames w →
  fr_el f ∈ w_hydrated (run (wake_events (fr_el f) (length (w_idle w))) w).
Proof.
  intros Hlv Hf. rewrite wake_run.
  set (w1 := step LoadEvent w). set (w2 := run (repeat IdlePeriod (length (w_idle w))) w1).
  set (w3 := step (Intersection (fr_el f) (true, [])) w2).
  assert (Hh : ∀ u, grows u (step (MediaChange (λ _, true)) w3) → fr_el f ∈ w_hydrated u →
            fr_el f ∈ w_hydrated (step (MediaChange (λ _, true)) w3)).
  { intros u (_ & _ & Hp & _) Hu. by eapply elem_of_prefix. }
  destruct (run_keeps_frame (LoadEvent :: repeat IdlePeriod (length (w_idle w))) w f Hf) as [Hf2|Hh2];
    [|apply (Hh w2); [etrans; apply step_grows|done]].
  destruct (run_keeps_frame [Intersection (fr_el f) (true, [])] w2 f Hf2) as [Hf3|Hh3];
    [|apply (Hh w3); [apply step_grows|done]].
  apply (step_resumes _ _ f).
  - eapply elem_of_prefix; [exact Hf3|apply dispatch_grows].
  - apply settled_cells. intros p Hp. destruct Hlv as (Hok & Hisl & Hl).
    destruct (proj1 (Hl f Hf) p Hp) as [ρ Hρ].
    destruct (decide (w_store w !! p = Some true)) as [Hres|Hpend].
    + eapply resolved_grows; [|exact Hres].
      etrans; [apply (run_rel grows step_grows (LoadEvent :: repeat IdlePeriod (length (w_idle w)))) |].
      etrans; [apply step_grows|apply dispatch_grows].
    + by apply (wake_cell w f p ρ).
Qed.

(** C5: Every island that waits in a state reachable from the
    script's boot is hydrated once the events its conditions wait for
    have happened: after the [load] event, as many idle periods as
    idle callbacks are pending, a notification that the island
    intersects the viewport and a media change to an environment where
    every query matches, the island is in the hydrated list.
    [Exactly.island_promoted_exactly_once] joins it with C4 and C6. *)
Theorem waiting_island_hydrated w f :
  reachable w → f ∈ w_frames w →
  fr_el f ∈ w_hydrated (run (wake_events (fr_el f) (length (w_idle w))) w).
Proof. intros Hr Hf. apply wake_hydrates; [by apply lv_reachable|done]. Qed.

End Live.
