(* ===== verification/Exactly.v ===== *)
(** * Exactly: every island of the page is promoted exactly once

    The specification's headline promise (sections 1 and 4.3): every
    [<mini-island>] of the page is promoted once its conditions hold,
    and only once.  [Once] gives "at most once" and [Live] gives
    "a waiting island is woken by its events"; this file supplies the
    missing link: with the registry defined, no island of the document
    is left dormant.  Every island in the tree has started its
    [hydrate]: it is hydrated or waiting.  The boot connects every
    island of the tree, and a promotion connects the islands it
    inserts ([connect_inserted]), which are the only new islands of
    the tree ([Island.island_in_replaceWith_inv]).

    The invariant [covered X] carries, like [Once.once_ok X], the
    island being resumed during a round of the checkpoint as [X]: it
    is then neither waiting nor yet hydrated.

    The composition [island_promoted_exactly_once] joins the three:
    from the script's boot, each island of the page is hydrated after
    the events its conditions wait for, and no island is hydrated
    twice along the way. *)

From S2P Require Import Prelude Dom Platform Conditions Island EventLoop Reachable Once Live.
Import Dom Platform Conditions Island EventLoop Reachable Once Live.

Module Exactly.
Local Open Scope island_scope.

(** Identities are unique, and with the registry defined every island
    of the document has started (or is [X], being resumed). *)
Definition covered (X : list nat) (w : world) : Prop :=
  wf (w_doc w) ∧ (tagName ∈ w_defined w → ∀ el, island_in (w_doc w) el → el ∈ started w ++ X).

Lemma covered_mono X X' w w' :
  started w ++ X ⊆ started w' ++ X' → w_doc w' = w_doc w → w_defined w' = w_defined w →
  covered X w → covered X' w'.
Proof.
  intros Hs Hd Hdef [Hwf Hc]. unfold covered. rewrite Hd, Hdef. split; [done|]. intros Ht el Hel. by apply Hs, Hc.
Qed.

Lemma connect_all_quiet l w : w ≼ fold_left (λ w n, connectedCallback (node_id n) w) l w.
Proof. apply fold_left_rel; [apply _|]. intros w' n _. apply hydrate_quiet. Qed.

(** [node.replaceWith(node.content)]: an island of the new document
    was an island before, hence started, or was inserted, and the
    reactions start it. *)
Lemma covered_replace_one X w t : covered X w → covered X (replace_one w t).
Proof.
  intros [Hwf Hc]. unfold replace_one, connect_inserted.
  case_bool_decide as Hdef; cbn [w_defined set_doc] in Hdef.
  - match goal with |- context [fold_left ?g ?l ?u] =>
      destruct (connect_all_quiet l u) as (Hd & _ & Hdf & _) end.
    split; [rewrite Hd; by apply wf_replaceWith_content|]. rewrite Hd, Hdf, started_connect_all.
    intros _ el Hel. destruct (island_in_replaceWith_inv t (w_doc w) el Hwf Hel) as [Hold|(n & Hn & <-)].
    + specialize (Hc Hdef el Hold). unfold started in *. simpl. set_solver.
    + apply elem_of_app. left. apply elem_of_app. right. apply elem_of_map_iff. by exists n.
  - split; [by apply wf_replaceWith_content|]. intros Ht. by destruct Hdef.
Qed.

Lemma covered_replaceTemplates X ts w : covered X w → covered X (replaceTemplates ts w).
Proof. unfold replaceTemplates. apply (fold_left_inv (covered X)). intros w' t _. apply covered_replace_one. Qed.

(** One round of the checkpoint: the resumed island moves from the
    frames to [X], and from [X] to the hydrated list. *)
Lemma covered_resume_taken w pre f post :
  covered [] w → w_frames w = pre ++ f :: post → covered [] (resume f (set_frames (pre ++ post) w)).
Proof.
  intros Hc Hfs.
  assert (Hc1 : covered [fr_el f] (set_frames (pre ++ post) w)).
  { apply (covered_mono [] _ w); [|done|done|done]. unfold started. cbn [set_frames w_frames w_hydrated].
    rewrite Hfs, !map_app. simpl. set_solver. }
  unfold resume. set (w2 := replaceTemplates _ _).
  apply (covered_mono [fr_el f] [] w2); [|done|done|by apply covered_replaceTemplates].
  unfold started. cbn [set_hydrated w_hydrated w_frames]. set_solver.
Qed.

Lemma covered_drain n w : covered [] w → covered [] (drain n w).
Proof.
  revert w. induction n as [|n IH]; intros w Hc; simpl; [done|].
  destruct (take_settled (w_store w) (w_frames w)) as [[f rest]|] eqn:Ht; [|done].
  destruct (take_settled_some _ _ _ _ Ht) as [_ (pre & post & Hfs & ->)].
  by apply IH, covered_resume_taken.
Qed.

(** ** Tasks *)

(** A task other than a connection starts no [hydrate] and keeps the
    document and the registry. *)
Lemma covered_task e w : (∀ el, e ≠ Connect el) → covered [] w → covered [] (dispatch e w).
Proof.
  intros He. destruct (dispatch_same_started e w He) as [Hs Hd].
  destruct (dispatch_grows e w) as [(_ & _ & _ & Hdef & _) _].
  apply covered_mono; [by rewrite Hs|done|done].
Qed.

(** A connection starts one more [hydrate]. *)
Lemma covered_dispatch e w : covered [] w → covered [] (dispatch e w).
Proof.
  intros Hc. destruct e as [el| | | | |]; [|apply covered_task; [by intros ? ?|done]..].
  simpl. unfold fire_connect. destruct (find_node el (w_doc w)); [|done]. destruct (_ && _); [|done].
  unfold connectedCallback. destruct (hydrate_quiet el w) as (Hd & _ & Hdf & _).
  apply (covered_mono [] [] w); [rewrite hydrate_started; set_solver|done|done|done].
Qed.

Lemma covered_step e w : covered [] w → covered [] (step e w).
Proof. intros Hc. unfold step. by apply covered_drain, covered_dispatch. Qed.

(** ** The boot *)

(** [customElements.define] upgrades every island of the tree. *)
Lemma covered_boot doc r c media w : wf doc → boot (initial_world doc r c media) = inl w → covered [] w.
Proof.
  intros Hwf. unfold boot. destruct (has_customElements _).
  - destruct (define tagName _) as [w1|] eqn:Hdef; [|done]. intros Hw.
    assert (w = drain (checkpoint_fuel w1) w1) as -> by congruence. apply covered_drain.
    revert Hdef. unfold define. case_bool_decide; [done|]. intros [= <-].
    match goal with |- context [fold_left ?g ?l ?u] =>
      destruct (connect_all_quiet l u) as (Hd & _ & Hdf & _) end.
    split; [by rewrite Hd|]. rewrite Hd, started_connect_all. intros _ el (n & Hf & Hi).
    unfold find_node in Hf. apply find_some in Hf as [Hn Hid]. apply bool_decide_eq_true in Hid.
    apply list_elem_of_In in Hn. rewrite app_nil_r. apply elem_of_app. right.
    apply elem_of_map_iff. exists n. split; [done|]. apply list_elem_of_filter. split; [by apply Is_true_true|done].
  - intros [= <-]. split; [done|]. intros Ht. by apply not_elem_of_nil in Ht.
Qed.

(** The registry holds [mini-island] exactly when the window has
    [customElements]. *)
Lemma reachable_defined w : reachable w → has_customElements (w_caps w) = true → tagName ∈ w_defined w.
Proof.
  induction 1 as [doc r c media w Hwf Hboot|e w _ IH].
  - revert Hboot. unfold boot. destruct (has_customElements (w_caps _)) eqn:Hc.
    + destruct (define tagName _) as [w1|] eqn:Hdef; [|done]. intros Hw _.
      assert (w = drain (checkpoint_fuel w1) w1) as -> by congruence.
      destruct (define_ok _ _ _ Hdef) as [Hin _]. destruct (drain_grows (checkpoint_fuel w1) w1) as (_ & _ & _ & Hd & _).
      by rewrite Hd.
    + intros [= <-] Hcaps. simpl in Hc, Hcaps. congruence.
  - intros Hcaps. destruct (step_grows e w) as (Hc & _ & _ & Hd & _). rewrite Hd. apply IH. by rewrite <- Hc.
Qed.

Lemma covered_reachable w : reachable w → covered [] w.
Proof. induction 1; [by eapply covered_boot|by apply covered_step]. Qed.

(** C6: In every state reachable from the script's boot on a window
    with [customElements], the islands that are hydrated or waiting
    are exactly the [<mini-island>] elements of the document: none of
    them is left dormant, the islands that promotions insert included,
    and nothing else is ever hydrated. *)
Theorem reachable_islands_started w el :
  reachable w → has_customElements (w_caps w) = true →
  (el ∈ w_hydrated w ∨ el ∈ map fr_el (w_frames w) ↔ island_in (w_doc w) el).
Proof.
  intros Hr Hc. split; [by apply (reachable_islands w Hr)|]. intros Hel.
  destruct (covered_reachable w Hr) as [_ Hcov].
  specialize (Hcov (reachable_defined w Hr Hc) el Hel). rewrite app_nil_r in Hcov. by apply elem_of_app.
Qed.

(** ** Exactly once *)

(** The islands of the page are still islands of the document after
    the boot: its checkpoint only promotes. *)
Lemma boot_island doc r c media w el :
  wf doc → boot (initial_world doc r c media) = inl w → island_in doc el → island_in (w_doc w) el.
Proof.
  intros Hwf. unfold boot. destruct (has_customElements _).
  - destruct (define tagName _) as [w1|] eqn:Hdef; [|done]. intros Hw (n & Hf & Hi).
    assert (w = drain (checkpoint_fuel w1) w1) as -> by congruence.
    assert (Hd1 : w_doc w1 = doc).
    { revert Hdef. unfold define. case_bool_decide; [done|]. intros [= <-].
      match goal with |- context [fold_left ?g ?l ?u] => destruct (connect_all_quiet l u) as (Hd & _) end.
      by rewrite Hd. }
    destruct (drain_doc (checkpoint_fuel w1) w1) as [L ->]. rewrite Hd1.
    destruct (find_island_replace_each L doc el n Hwf Hf Hi) as (n' & ? & ? & _). by exists n'.
  - intros [= <-]. done.
Qed.

Lemma boot_caps w w' : boot w = inl w' → w_caps w' = w_caps w.
Proof.
  unfold boot. destruct (has_customElements _); [|by intros [= <-]].
  destruct (define tagName w) as [w1|] eqn:Hdef; [|done]. intros Hw.
  assert (w' = drain (checkpoint_fuel w1) w1) as -> by congruence.
  destruct (drain_grows (checkpoint_fuel w1) w1) as (Hc & _). rewrite Hc. by apply (define_ok tagName).
Qed.

(** C1: The specification's promise, from the script's boot on a page
    with unique identities and a window with [customElements]: every
    [<mini-island>] of the page is hydrated once the events its
    conditions wait for have happened (the [load] event, one idle
    period per pending idle callback, an intersecting entry for it and
    a media change after which every query matches), and along that
    run no island is hydrated twice. *)
Theorem island_promoted_exactly_once doc r c media w el :
  wf doc → has_customElements c = true → boot (initial_world doc r c media) = inl w → island_in doc el →
  el ∈ w_hydrated (run (wake_events el (length (w_idle w))) w) ∧
  NoDup (w_hydrated (run (wake_events el (length (w_idle w))) w)).
Proof.
  intros Hwf Hc Hb Hel.
  assert (Hr : reachable w) by exact (reachable_boot doc r c media w Hwf Hb).
  split.
  - destruct (covered_reachable w Hr) as [_ Hcov].
    assert (Hdef : tagName ∈ w_defined w).
    { apply reachable_defined; [done|]. by rewrite (boot_caps _ _ Hb). }
    specialize (Hcov Hdef el (boot_island doc r c media w el Hwf Hb Hel)).
    rewrite app_nil_r in Hcov. unfold started in Hcov. apply elem_of_app in Hcov as [Hh|Hf].
    + destruct (run_rel grows step_grows (wake_events el (length (w_idle w))) w) as (_ & _ & Hp & _).
      by eapply elem_of_prefix.
    + apply elem_of_map_iff in Hf as (f & -> & Hf). apply wake_hydrates; [by apply lv_reachable|done].
  - destruct (once_run _ w (wake_events_no_connect el (length (w_idle w))) (once_boot doc r c media w Hwf Hb))
      as (Hnd & _).
    rewrite app_nil_r in Hnd. by apply NoDup_app in Hnd as [? _].
Qed.

End Exactly.
