(* ===== verification/Scenarios.v ===== *)
(** * Scenarios: the general theorems at concrete pages

    Small documents with one or two [<mini-island>] elements (an island
    waiting for [client:idle] with two fragments, one for
    [client:media], one for [client:visible], one without conditions,
    an island whose fragment holds a nested island, an island with all
    three conditions) and the witnesses: each applies a theorem of the
    development whose statement has hypotheses at one of these pages,
    discharging the hypotheses by evaluation ([vm_compute]), so that
    none of the hypotheses is vacuous. *)

From S2P Require Import Prelude Dom Platform Conditions Island EventLoop Reachable Causes Once Live Exactly.
Import Dom Platform Conditions Island EventLoop Reachable Causes Once Live Exactly.

Module Scenarios.

Definition caps_all : caps := mk_caps true true true true.

(** Only [customElements]: no idle callbacks, no intersection
    observers, no [matchMedia]. *)
Definition caps_registry_only : caps := mk_caps false false false true.

(** A page before any script ran: no promise, subscription or frame;
    no media query matches. *)
Definition page (doc : list node) (r : ready_state) (c : caps) (defined : list string) : world :=
  mk_world doc r c (λ _, false) [] [] [] [] [] [] defined [] [].

Definition marked : list attr := [(dataIsland, "")].

(** ** [client:idle] with two fragments *)

Definition idle_island : node :=
  Elem 1 tagName [("client:idle", "")] [Template 2 marked [Text 3 "F1"]; Template 4 marked [Text 5 "F2"]].

Definition idle_doc : list node := [Elem 0 "body" [] [idle_island]].

Definition idle_page : world := page idle_doc Loading caps_all [tagName].

(** ** [client:media] *)

Definition mq : string := "(min-width: 800px)".
Definition narrow : string → bool := λ _, false.
Definition wide : string → bool := λ q, bool_decide (q = mq).

Definition media_doc : list node :=
  [Elem 0 "body" [] [Elem 1 tagName [("client:media", mq)] [Template 2 marked [Text 3 "wide"]]]].

Definition media_page : world := page media_doc Complete caps_all [tagName].

(** ** [client:visible] *)

Definition visible_doc : list node :=
  [Elem 0 "body" [] [Elem 1 tagName [("client:visible", "")] [Template 2 marked [Text 3 "seen"]]]].

Definition visible_page : world := page visible_doc Complete caps_all [tagName].

(** ** An island without conditions *)

Definition plain_island : node := Elem 1 tagName [] [Template 2 marked [Text 3 "x"]].
Definition plain_doc : list node := [Elem 0 "body" [] [plain_island]].
Definition plain_page : world := page plain_doc Complete caps_all [tagName].

(** ** Witnesses: the general theorems applied at these pages *)

Lemma resume_promotes_witness :
  wf idle_doc ∧ find_node 1 idle_doc = Some idle_island ∧
  w_doc (resume (mk_frame 1 (WAll [])) idle_page) = map (map_node 1 (promote_children dataIsland)) idle_doc.
Proof.
  assert (Hwf : wf idle_doc) by (unfold wf; apply (proj1 (bool_decide_eq_true _)); vm_compute; reflexivity).
  assert (Hf : find_node 1 idle_doc = Some idle_island) by (vm_compute; reflexivity).
  split; [exact Hwf|]. split; [exact Hf|].
  exact (resume_promotes (mk_frame 1 (WAll [])) idle_page idle_island Hwf Hf).
Defined.

Lemma connect_without_conditions_hydrates_witness :
  find_node 1 (w_doc plain_page) = Some plain_island ∧ is_island plain_island = true ∧
  tagName ∈ w_defined plain_page ∧ getConditions (node_attrs plain_island) = [] ∧
  1 ∈ w_hydrated (step (Connect 1) plain_page).
Proof.
  assert (Hf : find_node 1 (w_doc plain_page) = Some plain_island) by (vm_compute; reflexivity).
  assert (Hi : is_island plain_island = true) by (vm_compute; reflexivity).
  assert (Hd : tagName ∈ w_defined plain_page) by (vm_compute; left).
  assert (Hc : getConditions (node_attrs plain_island) = []) by (vm_compute; reflexivity).
  split_and!; [exact Hf|exact Hi|exact Hd|exact Hc|].
  exact (connect_without_conditions_hydrates plain_page 1 plain_island Hf Hi Hd Hc).
Defined.

Definition media_waiting : world := run [Connect 1] media_page.

Lemma media_change_hydrates_witness :
  mk_frame 1 (WAll [WCell 0]) ∈ w_frames media_waiting ∧
  mk_media_listener mq 0 ∈ w_mql media_waiting ∧
  w_media media_waiting mq = false ∧ wide mq = true ∧ 0 < length (w_store media_waiting) ∧
  1 ∈ w_hydrated (step (MediaChange wide) media_waiting).
Proof.
  assert (Hf : mk_frame 1 (WAll [WCell 0]) ∈ w_frames media_waiting) by (vm_compute; left).
  assert (Hl : mk_media_listener mq 0 ∈ w_mql media_waiting) by (vm_compute; left).
  assert (Ho : w_media media_waiting mq = false) by (vm_compute; reflexivity).
  assert (Hn : wide mq = true) by (vm_compute; reflexivity).
  assert (Hlt : 0 < length (w_store media_waiting)) by (vm_compute; lia).
  split_and!; [exact Hf|exact Hl|exact Ho|exact Hn|exact Hlt|].
  exact (media_change_hydrates media_waiting 1 0 mq wide Hf Hl Ho Hn Hlt).
Defined.

Definition visible_waiting : world := run [Connect 1] visible_page.

Lemma visible_fires_once_witness :
  w_observers visible_waiting !! 0 = Some (mk_observer 1 0 true) ∧
  0 < length (w_store visible_waiting) ∧
  w_store (on_intersection 0 (true, []) visible_waiting) !! 0 = Some true ∧
  w_observers (run [Intersection 1 (true, []); Intersection 1 (false, [])]
                   (on_intersection 0 (true, []) visible_waiting)) !! 0 = Some (mk_observer 1 0 false).
Proof.
  assert (Hob : w_observers visible_waiting !! 0 = Some (mk_observer 1 0 true)) by (vm_compute; reflexivity).
  assert (Hlt : 0 < length (w_store visible_waiting)) by (vm_compute; lia).
  split; [exact Hob|]. split; [exact Hlt|].
  exact (visible_fires_once visible_waiting 0 (mk_observer 1 0 true) []
           [Intersection 1 (true, []); Intersection 1 (false, [])] Hob Hlt).
Defined.

Definition all_conditions_island : node :=
  Elem 1 tagName [("client:idle", ""); ("client:visible", ""); ("client:media", mq)]
       [Template 2 marked [Text 3 "x"]].

Definition bare_page : world :=
  page [Elem 0 "body" [] [all_conditions_island]] Complete caps_registry_only [tagName].

Lemma connect_without_capabilities_hydrates_witness :
  find_node 1 (w_doc bare_page) = Some all_conditions_island ∧
  is_island all_conditions_island = true ∧ tagName ∈ w_defined bare_page ∧
  w_ready bare_page = Complete ∧ has_requestIdleCallback (w_caps bare_page) = false ∧
  has_IntersectionObserver (w_caps bare_page) = false ∧ has_matchMedia (w_caps bare_page) = false ∧
  1 ∈ w_hydrated (step (Connect 1) bare_page).
Proof.
  assert (Hf : find_node 1 (w_doc bare_page) = Some all_conditions_island) by (vm_compute; reflexivity).
  assert (Hi : is_island all_conditions_island = true) by (vm_compute; reflexivity).
  assert (Hd : tagName ∈ w_defined bare_page) by (vm_compute; left).
  split_and!; [exact Hf|exact Hi|exact Hd|reflexivity..|].
  exact (connect_without_capabilities_hydrates bare_page 1 all_conditions_island Hf Hi Hd
           eq_refl eq_refl eq_refl eq_refl).
Defined.

Lemma waitForVisible_no_observer_witness :
  has_IntersectionObserver (w_caps bare_page) = false ∧
  waitForVisible None 1 bare_page = (WUndef, bare_page).
Proof.
  split; [reflexivity|]. exact (waitForVisible_no_observer None 1 bare_page eq_refl).
Defined.

Lemma boot_twice_throws_witness :
  has_customElements (w_caps (page plain_doc Complete caps_all [])) = true ∧
  ∃ w1, boot (page plain_doc Complete caps_all []) = inl w1 ∧ boot w1 = inr NotSupportedError.
Proof.
  split; [reflexivity|].
  destruct (boot (page plain_doc Complete caps_all [])) as [w1|] eqn:Hb; [|vm_compute in Hb; discriminate].
  exists w1. split; [reflexivity|].
  exact (boot_twice_throws (page plain_doc Complete caps_all []) w1 eq_refl Hb).
Defined.

Lemma connectedCallback_defers_witness :
  RegistryLaws ∧
  w_doc (connectedCallback 1 idle_page) = w_doc idle_page ∧
  w_hydrated (connectedCallback 1 idle_page) = w_hydrated idle_page ∧
  ∃ v, w_frames (connectedCallback 1 idle_page) = w_frames idle_page ++ [mk_frame 1 v].
Proof.
  split; [exact conditions_laws|]. exact (connectedCallback_defers 1 idle_page).
Defined.

Lemma checkpoint_completes_witness :
  mk_frame 1 (WAll [WCell 0]) ∈ w_frames (step (Connect 1) visible_page) ∧
  settled (w_store (step (Connect 1) visible_page)) (WAll [WCell 0]) = false.
Proof.
  assert (Hf : mk_frame 1 (WAll [WCell 0]) ∈ w_frames (step (Connect 1) visible_page))
    by (vm_compute; left).
  split; [exact Hf|]. exact (checkpoint_completes (Connect 1) visible_page _ Hf).
Defined.

Lemma replace_each_simultaneous_witness :
  wf idle_doc ∧ (∀ j, j ∈ [2; 4] → j ∈ flat_map tree_ids idle_doc) ∧
  replace_each [2; 4] idle_doc = flat_map (replace_in [2; 4]) idle_doc.
Proof.
  assert (Hwf : wf idle_doc) by (unfold wf; apply (proj1 (bool_decide_eq_true _)); vm_compute; reflexivity).
  assert (HL : ∀ j, j ∈ [2; 4] → j ∈ flat_map tree_ids idle_doc).
  { apply (Forall_forall (λ j, j ∈ flat_map tree_ids idle_doc)).
    apply (proj1 (bool_decide_eq_true _)). vm_compute. reflexivity. }
  split; [exact Hwf|]. split; [exact HL|]. exact (replace_each_simultaneous [2; 4] idle_doc Hwf HL).
Defined.

Lemma getConditions_lookup_witness :
  ("media", Some mq) ∈ getConditions [("client:media", mq)] ∧
  ∃ k, "media" = condition_name k ∧ map_lookup "media" = Some (evaluator k).
Proof.
  assert (H : ("media", Some mq) ∈ getConditions [("client:media", mq)]) by (vm_compute; left).
  split; [exact H|]. exact (getConditions_lookup _ _ _ H).
Defined.

(** The [client:idle] page booted by the script while loading. *)
Definition idle_start : world := initial_world idle_doc Loading caps_all (λ _, false).
Definition idle_booted : world := match boot idle_start with inl w => w | inr _ => idle_start end.

(** A browser with every other capability but no custom element registry. *)
Definition caps_no_registry : caps := mk_caps true true true false.

Definition no_registry_booted : world :=
  match boot (initial_world idle_doc Loading caps_no_registry (λ _, false)) with
  | inl w => w | inr _ => idle_start
  end.

Lemma no_registry_stays_dormant_witness :
  has_customElements caps_no_registry = false ∧
  boot (initial_world idle_doc Loading caps_no_registry (λ _, false)) = inl no_registry_booted ∧
  w_console (run [LoadEvent; IdlePeriod; Connect 1] no_registry_booted) = [console_message] ∧
  w_doc (run [LoadEvent; IdlePeriod; Connect 1] no_registry_booted) = idle_doc ∧
  w_hydrated (run [LoadEvent; IdlePeriod; Connect 1] no_registry_booted) = [] ∧
  w_frames (run [LoadEvent; IdlePeriod; Connect 1] no_registry_booted) = [].
Proof.
  assert (Hb : boot (initial_world idle_doc Loading caps_no_registry (λ _, false)) = inl no_registry_booted)
    by (vm_compute; reflexivity).
  split; [reflexivity|]. split; [exact Hb|].
  exact (no_registry_stays_dormant idle_doc Loading caps_no_registry (λ _, false) no_registry_booted
           [LoadEvent; IdlePeriod; Connect 1] eq_refl Hb).
Defined.

(** ** Every hydration has its causes *)

Lemma idle_doc_wf : wf idle_doc.
Proof. unfold wf. apply (proj1 (bool_decide_eq_true _)). vm_compute. reflexivity. Qed.

Lemma idle_hydration_has_causes_witness :
  1 ∈ w_hydrated (run [LoadEvent; IdlePeriod] idle_booted) ∧
  (Loading = Complete ∨ LoadEvent ∈ [LoadEvent; IdlePeriod]) ∧
  (has_requestIdleCallback caps_all = false ∨ IdlePeriod ∈ [LoadEvent; IdlePeriod]).
Proof.
  assert (Hb : boot (initial_world idle_doc Loading caps_all (λ _, false)) = inl idle_booted)
    by (vm_compute; reflexivity).
  assert (Hel : 1 ∈ w_hydrated (run [LoadEvent; IdlePeriod] idle_booted)) by (vm_compute; left).
  assert (Hcv : (condition_name Idle, Some "") ∈
                getConditions (element_attrs 1 (run [LoadEvent; IdlePeriod] idle_booted)))
    by (vm_compute; left).
  split; [exact Hel|].
  exact (idle_hydration_has_causes Loading caps_all (λ _, false) idle_doc idle_booted _ 1 _ idle_doc_wf Hb Hel Hcv).
Defined.

Definition visible_start : world := initial_world visible_doc Complete caps_all (λ _, false).
Definition visible_booted : world := match boot visible_start with inl w => w | inr _ => visible_start end.

Lemma visible_hydration_has_cause_witness :
  1 ∈ w_hydrated (run [Intersection 1 (false, [true]); Intersection 1 (true, [])] visible_booted) ∧
  ∃ rest, Intersection 1 (true, rest) ∈ [Intersection 1 (false, [true]); Intersection 1 (true, [])].
Proof.
  assert (Hwf : wf visible_doc) by (unfold wf; apply (proj1 (bool_decide_eq_true _)); vm_compute; reflexivity).
  assert (Hb : boot visible_start = inl visible_booted) by (vm_compute; reflexivity).
  assert (Hel : 1 ∈ w_hydrated (run [Intersection 1 (false, [true]); Intersection 1 (true, [])] visible_booted))
    by (vm_compute; left).
  assert (Hcv : (condition_name Visible, Some "") ∈
                getConditions (element_attrs 1 (run [Intersection 1 (false, [true]); Intersection 1 (true, [])] visible_booted)))
    by (vm_compute; left).
  split; [exact Hel|].
  exact (visible_hydration_has_cause Complete caps_all (λ _, false) visible_doc visible_booted _ 1 _ Hwf Hb
           eq_refl Hel Hcv).
Defined.

Definition media_start : world := initial_world media_doc Complete caps_all narrow.
Definition media_booted : world := match boot media_start with inl w => w | inr _ => media_start end.

Lemma media_hydration_has_cause_witness :
  1 ∈ w_hydrated (run [MediaChange narrow; MediaChange wide] media_booted) ∧
  (narrow mq = true ∨ ∃ env, MediaChange env ∈ [MediaChange narrow; MediaChange wide] ∧ env mq = true).
Proof.
  assert (Hwf : wf media_doc) by (unfold wf; apply (proj1 (bool_decide_eq_true _)); vm_compute; reflexivity).
  assert (Hb : boot media_start = inl media_booted) by (vm_compute; reflexivity).
  assert (Hel : 1 ∈ w_hydrated (run [MediaChange narrow; MediaChange wide] media_booted)) by (vm_compute; left).
  assert (Hcv : (condition_name Media, Some mq) ∈
                getConditions (element_attrs 1 (run [MediaChange narrow; MediaChange wide] media_booted)))
    by (vm_compute; left).
  split; [exact Hel|].
  exact (media_hydration_has_cause Complete caps_all narrow media_doc media_booted _ 1 mq Hwf Hb
           eq_refl ltac:(discriminate) Hel Hcv).
Defined.

(** ** Promotion is one-shot *)

Definition cascade_idle_doc : list node :=
  [Elem 0 "body" [] [Elem 1 tagName [("client:idle", "")]
     [Template 2 marked [Elem 3 tagName [] [Template 4 marked [Text 5 "leaf"]]]]]].

Definition cascade_start : world := initial_world cascade_idle_doc Loading caps_all (λ _, false).
Definition cascade_booted : world := match boot cascade_start with inl w => w | inr _ => cascade_start end.

Lemma hydrated_at_most_once_witness :
  w_hydrated (run [LoadEvent; IdlePeriod] cascade_booted) = [1; 3] ∧
  NoDup (w_hydrated (run [LoadEvent; IdlePeriod] cascade_booted) ++
         map fr_el (w_frames (run [LoadEvent; IdlePeriod] cascade_booted))).
Proof.
  assert (Hwf : wf cascade_idle_doc) by (unfold wf; apply (proj1 (bool_decide_eq_true _)); vm_compute; reflexivity).
  assert (Hb : boot cascade_start = inl cascade_booted) by (vm_compute; reflexivity).
  assert (Hes : ∀ el, Connect el ∉ [LoadEvent; IdlePeriod]).
  { intros el Hel. apply elem_of_cons in Hel as [Hel|Hel]; [discriminate|].
    apply list_elem_of_singleton in Hel. discriminate. }
  split; [vm_compute; reflexivity|].
  exact (hydrated_at_most_once cascade_idle_doc Loading caps_all (λ _, false) cascade_booted _ Hwf Hb Hes).
Defined.

(** ** A waiting island is woken by its events *)

(** An island with three conditions on a page that is still loading:
    the boot leaves it waiting for [load], an idle period, the viewport
    and the media query. *)
Definition wake_doc : list node :=
  [Elem 0 "body" [] [Elem 1 tagName [("client:idle", ""); ("client:visible", ""); ("client:media", mq)]
     [Template 2 marked [Text 3 "x"]]]].

Definition wake_start : world := initial_world wake_doc Loading caps_all narrow.
Definition wake_booted : world := match boot wake_start with inl w => w | inr _ => wake_start end.

Lemma reconnect_starts_twice_witness :
  island_in (w_doc (run [Connect 1] plain_page)) 1 ∧ 1 ∈ w_hydrated (run [Connect 1] plain_page) ∧
  ¬ NoDup (started (step (Connect 1) (run [Connect 1] plain_page))).
Proof.
  assert (Hi : island_in (w_doc (run [Connect 1] plain_page)) 1) by (eexists; split; reflexivity).
  assert (Hh : 1 ∈ w_hydrated (run [Connect 1] plain_page)) by (vm_compute; left).
  assert (Hd : tagName ∈ w_defined (run [Connect 1] plain_page)) by (vm_compute; left).
  split_and!; [exact Hi|exact Hh|]. exact (reconnect_starts_twice _ 1 Hi Hd Hh).
Defined.

Lemma waiting_island_hydrated_witness :
  reachable wake_booted ∧ map fr_el (w_frames wake_booted) = [1] ∧ w_hydrated wake_booted = [] ∧
  1 ∈ w_hydrated (run (wake_events 1 (length (w_idle wake_booted))) wake_booted).
Proof.
  assert (Hr : reachable wake_booted).
  { apply (reachable_boot wake_doc Loading caps_all narrow).
    - unfold wf. apply (proj1 (bool_decide_eq_true _)). vm_compute. reflexivity.
    - vm_compute. reflexivity. }
  assert (Hm : map fr_el (w_frames wake_booted) = [1]) by (vm_compute; reflexivity).
  split_and!; [exact Hr|exact Hm|vm_compute; reflexivity|].
  assert (H1 : 1 ∈ map fr_el (w_frames wake_booted)) by (rewrite Hm; left).
  apply elem_of_map_iff in H1 as (f & Hel & Hf). rewrite Hel.
  exact (waiting_island_hydrated wake_booted f Hr Hf).
Defined.

(** ** Every island of the page is promoted exactly once *)

(** The nested island 3 of [cascade_idle_doc] enters the tree when the
    outer island is promoted, and the promotion connects it. *)
Definition cascade_promoted : world := run [LoadEvent; IdlePeriod] cascade_booted.

Lemma cascade_idle_doc_wf : wf cascade_idle_doc.
Proof. unfold wf. apply (proj1 (bool_decide_eq_true _)). vm_compute. reflexivity. Qed.

Lemma cascade_booted_reachable : reachable cascade_booted.
Proof.
  apply (reachable_boot cascade_idle_doc Loading caps_all (λ _, false)); [apply cascade_idle_doc_wf|].
  vm_compute. reflexivity.
Qed.

Lemma reachable_islands_started_witness :
  reachable cascade_promoted ∧ island_in (w_doc cascade_promoted) 3 ∧
  (3 ∈ w_hydrated cascade_promoted ∨ 3 ∈ map fr_el (w_frames cascade_promoted)).
Proof.
  assert (Hr : reachable cascade_promoted).
  { apply (reachable_step IdlePeriod), (reachable_step LoadEvent), cascade_booted_reachable. }
  assert (Hi : island_in (w_doc cascade_promoted) 3) by (eexists; split; reflexivity).
  split_and!; [exact Hr|exact Hi|].
  apply (proj2 (reachable_islands_started cascade_promoted 3 Hr eq_refl)). exact Hi.
Defined.

Lemma island_promoted_exactly_once_witness :
  island_in cascade_idle_doc 1 ∧
  1 ∈ w_hydrated (run (wake_events 1 (length (w_idle cascade_booted))) cascade_booted) ∧
  NoDup (w_hydrated (run (wake_events 1 (length (w_idle cascade_booted))) cascade_booted)).
Proof.
  assert (Hi : island_in cascade_idle_doc 1) by (eexists; split; reflexivity).
  assert (Hb : boot cascade_start = inl cascade_booted) by (vm_compute; reflexivity).
  split; [exact Hi|].
  exact (island_promoted_exactly_once cascade_idle_doc Loading caps_all (λ _, false) cascade_booted 1
           cascade_idle_doc_wf eq_refl Hb Hi).
Defined.

End Scenarios.
